(** * A hidden-Markov-model part-of-speech tagger: model estimation and
      Viterbi decoding (class [HMM] of s1763241.py)

    The Python class is embedded shallowly.  Python objects become records,
    dictionaries become [gmap]s keyed by strings, Python lists become lists,
    and a raised exception becomes the [Raise] alternative of [result].
    Floating-point numbers are idealised as real numbers: [math.log(x, 2)]
    is [ln x / ln 2] on positive arguments and raises [ValueError] otherwise.

    The library calls of the source (nltk's [FreqDist],
    [ConditionalFreqDist], [LidstoneProbDist], [ConditionalProbDist],
    [bigrams] and [unique_list]) are embedded from their definitions in
    nltk/probability.py and nltk/util.py; each embedding quotes the library
    code it follows.

    A method that updates the object returns the updated object; when it
    raises, the partially updated object is not kept.

    Of the module-level code, the helper [isclose] and two parts of the
    driver [answers] are embedded as well: the split of the corpus into
    training and test data, and the loop that checks the accuracy. *)

From Stdlib Require Import Reals Lra.
From stdpp Require Import gmap strings list fin_maps.

(** ** Python exceptions as results *)

Inductive exn : Set := TypeError | KeyError | IndexError | ValueError.

Inductive result (A : Type) : Type :=
| Ok (a : A)
| Raise (e : exn).
Arguments Ok {A} a.
Arguments Raise {A} e.

#[export] Instance result_ret : MRet result := λ A a, Ok a.
#[export] Instance result_bind : MBind result := λ A B f c,
  match c with
  | Ok a => f a
  | Raise e => Raise e
  end.

(** A [for x in l: body] loop over a state [S]; the first exception ends it. *)
Fixpoint for_in {S A : Type} (l : list A) (body : S → A → result S) (s : S)
  : result S :=
  match l with
  | [] => Ok s
  | x :: l' => s' ← body s x; for_in l' body s'
  end.

(** A list comprehension [[f x for x in l]] whose element expression may raise. *)
Fixpoint comprehension {A B : Type} (f : A → result B) (l : list A)
  : result (list B) :=
  match l with
  | [] => Ok []
  | x :: l' => y ← f x; ys ← comprehension f l'; Ok (y :: ys)
  end.

(** ** Python built-ins used by the class *)

(** [l[i]] on a list: a negative index counts from the end, an index out of
    range raises [IndexError]. *)
Definition list_getitem {A : Type} (l : list A) (i : Z) : result A :=
  let j := if (i <? 0)%Z then (i + Z.of_nat (length l))%Z else i in
  if (j <? 0)%Z then Raise IndexError
  else match l !! Z.to_nat j with
       | Some x => Ok x
       | None => Raise IndexError
       end.

(** [d[k]] on a plain dictionary. *)
Definition dict_getitem {A : Type} (d : gmap string A) (k : string) : result A :=
  match d !! k with
  | Some v => Ok v
  | None => Raise KeyError
  end.

(** [range(start, stop)] and [range(start, stop, -1)]. *)
Definition range (start stop : Z) : list Z :=
  (λ i : nat, (start + Z.of_nat i)%Z) <$> seq 0 (Z.to_nat (stop - start)).

Definition range_down (start stop : Z) : list Z :=
  (λ i : nat, (start - Z.of_nat i)%Z) <$> seq 0 (Z.to_nat (start - stop)).

(** [min(l, key=lambda item: item[0])]: the first element whose key is
    minimal; [ValueError] on an empty list. *)
Definition min_step {B : Type} (best y : R * B) : R * B :=
  if Rlt_dec y.1 best.1 then y else best.

Definition min_key {B : Type} (l : list (R * B)) : result (R * B) :=
  match l with
  | [] => Raise ValueError
  | x :: l' => Ok (foldl min_step x l')
  end.

(** [math.log(x, base)]; the class always passes base 2. *)
Definition math_log (x base : R) : result R :=
  if Rlt_dec 0 x then Ok (ln x / ln base)%R else Raise ValueError.

(** [str.lower] on the ASCII letters. *)
Definition lower_ascii (c : Ascii.ascii) : Ascii.ascii :=
  let n := Ascii.nat_of_ascii c in
  if (65 <=? n) && (n <=? 90) then Ascii.ascii_of_nat (n + 32) else c.

Fixpoint lower (s : string) : string :=
  match s with
  | EmptyString => EmptyString
  | String c s' => String (lower_ascii c) (lower s')
  end.

(** ** nltk: frequency distributions *)

Module FreqDist.
(** A [FreqDist] is a [Counter]: [f[sample]] of a missing sample is 0 and
    stores nothing. *)
Definition getitem (f : gmap string nat) (sample : string) : nat :=
  default 0 (f !! sample).

(** [f[sample] += 1] *)
Definition incr (f : gmap string nat) (sample : string) : gmap string nat :=
  <[sample := S (getitem f sample)]> f.

(** [f.N()]: the total number of sample outcomes, [sum(self.values())]. *)
Definition N (f : gmap string nat) : nat :=
  map_fold (λ _ c acc, c + acc) 0 f.

(** [f.B()]: the number of bins, [len(self)]. *)
Definition B (f : gmap string nat) : nat := size f.
End FreqDist.

Module ConditionalFreqDist.
(** [class ConditionalFreqDist(defaultdict)], built on
    [defaultdict.__init__(self, FreqDist)]: a missing condition reads as the
    empty frequency distribution. *)
Definition getitem (cfd : gmap string (gmap string nat)) (cond : string)
  : gmap string nat :=
  default ∅ (cfd !! cond).

(** [self[cond][sample] += 1] *)
Definition incr (cfd : gmap string (gmap string nat)) (cs : string * string)
  : gmap string (gmap string nat) :=
  <[cs.1 := FreqDist.incr (getitem cfd cs.1) cs.2]> cfd.

(** The constructor:
    [for (cond, sample) in cond_samples: self[cond][sample] += 1]. *)
Definition init (cond_samples : list (string * string))
  : gmap string (gmap string nat) :=
  foldl incr ∅ cond_samples.
End ConditionalFreqDist.

(** [nltk.bigrams]: the adjacent pairs of a sequence, without padding. *)
Fixpoint bigrams {A : Type} (l : list A) : list (A * A) :=
  match l with
  | x :: (y :: _) as l' => (x, y) :: bigrams l'
  | _ => []
  end.

(** [nltk.util.unique_list]:
    [seen = set(); return [x for x in xs if x not in seen and not seen.add(x)]]. *)
Fixpoint unique_list_from (seen : gset string) (xs : list string) : list string :=
  match xs with
  | [] => []
  | x :: xs' =>
      if decide (x ∈ seen) then unique_list_from seen xs'
      else x :: unique_list_from ({[x]} ∪ seen) xs'
  end.

Definition unique_list (xs : list string) : list string :=
  unique_list_from ∅ xs.

(** ** nltk: Lidstone-smoothed probability distributions *)

Record LidstoneProbDist : Type := {
  lp_freqdist : gmap string nat;
  lp_gamma : R;
  lp_N : nat;
  lp_bins : nat;
  lp_divisor : R
}.

Module Lidstone.
(** [LidstoneProbDist.__init__(freqdist, gamma, bins)] with [bins] given:
    [ValueError] if [bins == 0] or [bins < freqdist.B()]; then
    [_N = freqdist.N()], [_divisor = _N + bins * gamma], and if the divisor
    is 0 the distribution takes [_gamma = 0], [_divisor = 1]. *)
Definition init (freqdist : gmap string nat) (gamma : R) (bins : nat)
  : result LidstoneProbDist :=
  if bins =? 0 then Raise ValueError
  else if bins <? FreqDist.B freqdist then Raise ValueError
  else
    let n := FreqDist.N freqdist in
    let divisor := (INR n + INR bins * gamma)%R in
    if Req_dec_T divisor 0
    then Ok {| lp_freqdist := freqdist; lp_gamma := 0; lp_N := n;
               lp_bins := bins; lp_divisor := 1 |}
    else Ok {| lp_freqdist := freqdist; lp_gamma := gamma; lp_N := n;
               lp_bins := bins; lp_divisor := divisor |}.

(** [d.prob(sample)]: [c = self._freqdist[sample]];
    [return (c + self._gamma) / self._divisor]. *)
Definition prob (d : LidstoneProbDist) (sample : string) : R :=
  let c := FreqDist.getitem (lp_freqdist d) sample in
  ((INR c + lp_gamma d) / lp_divisor d)%R.
End Lidstone.

(** The estimator both models pass to [ConditionalProbDist]:
    [LidstoneProbDist(f, 0.01, f.B()+1)]. *)
Definition lidstone_est (f : gmap string nat) : result LidstoneProbDist :=
  Lidstone.init f (1 / 100) (FreqDist.B f + 1).

Module ConditionalProbDist.
(** The constructor:
    [for condition in cfdist: self[condition] = probdist_factory(cfdist[condition])].
    The factory is [lidstone_est] in both models. *)
Definition init_step (cf : string * gmap string nat)
    (acc : result (gmap string LidstoneProbDist))
  : result (gmap string LidstoneProbDist) :=
  m ← acc; d ← lidstone_est cf.2; Ok (<[cf.1 := d]> m).

Definition init (cfd : gmap string (gmap string nat))
  : result (gmap string LidstoneProbDist) :=
  foldr init_step (Ok ∅) (map_to_list cfd).

(** [cpd[condition]].  For a condition that was never seen the library runs
    [__missing__]: [self[key] = self._probdist_factory(FreqDist())];
    [return self[key]], the estimator's distribution for the empty frequency
    distribution.  The library also stores that distribution under the
    condition; a later lookup returns the same distribution either way, so
    the store is not threaded here. *)
Definition getitem (cpd : gmap string LidstoneProbDist) (cond : string)
  : result LidstoneProbDist :=
  match cpd !! cond with
  | Some d => Ok d
  | None => lidstone_est ∅
  end.
End ConditionalProbDist.

(** ** The class [HMM] *)

(** The attribute [viterbi] (and [backpointer]) is the empty list after
    [__init__] and a dictionary from tags to lists after [initialise]. *)
Inductive table (A : Type) : Type :=
| EmptyList
| Dict (d : gmap string (list A)).
Arguments EmptyList {A}.
Arguments Dict {A} d.

Record HMM : Type := {
  train_data : list (list (string * string));
  test_data : list (list (string * string));
  emission_PD : option (gmap string LidstoneProbDist);
  transition_PD : option (gmap string LidstoneProbDist);
  states : list string;
  viterbi : table R;
  backpointer : table string
}.

(** [HMM(train_data, test_data)] *)
Definition HMM_init (train test : list (list (string * string))) : HMM :=
  {| train_data := train; test_data := test;
     emission_PD := None; transition_PD := None; states := [];
     viterbi := EmptyList; backpointer := EmptyList |}.

(** Subscripting an attribute that may still be [None] or a list. *)
Definition pd_getitem (pd : option (gmap string LidstoneProbDist)) (cond : string)
  : result LidstoneProbDist :=
  match pd with
  | None => Raise TypeError
  | Some cpd => ConditionalProbDist.getitem cpd cond
  end.

Definition table_getitem {A : Type} (tb : table A) (k : string) : result (list A) :=
  match tb with
  | EmptyList => Raise TypeError
  | Dict d => dict_getitem d k
  end.

(** [tb[k] = l] and [tb[k].append(x)] *)
Definition table_setitem {A : Type} (tb : table A) (k : string) (l : list A)
  : result (table A) :=
  match tb with
  | EmptyList => Raise TypeError
  | Dict d => Ok (Dict (<[k := l]> d))
  end.

Definition table_append {A : Type} (tb : table A) (k : string) (x : A)
  : result (table A) :=
  l ← table_getitem tb k; table_setitem tb k (l ++ [x]).

(** The locals [data] and [emission_FD] of [emission_model]: the
    (tag, lowercased word) pairs of the whole corpus and their conditional
    frequency distribution. *)
Definition emission_data (train : list (list (string * string)))
  : list (string * string) :=
  (λ wt : string * string, (wt.2, lower wt.1)) <$> concat train.

Definition emission_FD (train : list (list (string * string)))
  : gmap string (gmap string nat) :=
  ConditionalFreqDist.init (emission_data train).

(** [emission_model]: one smoothed distribution per tag; [states] is the
    list of tags in order of first occurrence. *)
Definition emission_model (self : HMM) (train : list (list (string * string)))
  : result HMM :=
  pd ← ConditionalProbDist.init (emission_FD train);
  Ok {| train_data := train_data self; test_data := test_data self;
        emission_PD := Some pd; transition_PD := transition_PD self;
        states := unique_list (snd <$> concat train);
        viterbi := viterbi self; backpointer := backpointer self |}.

(** [elprob(state, word)] *)
Definition elprob (self : HMM) (state word : string) : result R :=
  d ← pd_getitem (emission_PD self) state;
  math_log (Lidstone.prob d word) 2.

(** The loop of [transition_model]: every sentence contributes [<s>], its
    tags and [</s>] to one running list. *)
Definition tags_words_step (tags_words : list (string * string))
    (s : list (string * string)) : list (string * string) :=
  (tags_words ++ [("<s>", "<s>")])
    ++ ((λ wt : string * string, (wt.2, wt.1)) <$> s)
    ++ [("</s>", "</s>")].

Definition tags_words_of (train : list (list (string * string)))
  : list (string * string) :=
  foldl tags_words_step [] train.

(** The locals [tags] and [transition_FD] of [transition_model]: bigrams of
    the tag list, keyed by their first tag. *)
Definition transition_data (train : list (list (string * string)))
  : list (string * string) :=
  bigrams (fst <$> tags_words_of train).

Definition transition_FD (train : list (list (string * string)))
  : gmap string (gmap string nat) :=
  ConditionalFreqDist.init (transition_data train).

(** [transition_model] *)
Definition transition_model (self : HMM) (train : list (list (string * string)))
  : result HMM :=
  pd ← ConditionalProbDist.init (transition_FD train);
  Ok {| train_data := train_data self; test_data := test_data self;
        emission_PD := emission_PD self; transition_PD := Some pd;
        states := states self;
        viterbi := viterbi self; backpointer := backpointer self |}.

(** [tlprob(state1, state2)] *)
Definition tlprob (self : HMM) (state1 state2 : string) : result R :=
  d ← pd_getitem (transition_PD self) state1;
  math_log (Lidstone.prob d state2) 2.

(** [train()] *)
Definition train (self : HMM) : result HMM :=
  self1 ← emission_model self (train_data self);
  transition_model self1 (train_data self1).

(** The accessors [get_viterbi_value] and [get_backpointer_value]. *)
Definition get_viterbi_value (self : HMM) (state : string) (step : Z) : result R :=
  l ← table_getitem (viterbi self) state; list_getitem l step.

Definition get_backpointer_value (self : HMM) (state : string) (step : Z)
  : result string :=
  l ← table_getitem (backpointer self) state; list_getitem l step.

Definition set_tables (self : HMM) (v : table R) (b : table string) : HMM :=
  {| train_data := train_data self; test_data := test_data self;
     emission_PD := emission_PD self; transition_PD := transition_PD self;
     states := states self; viterbi := v; backpointer := b |}.

(** The body of the loop of [initialise] for one state. *)
Definition initialise_state (observation : string) (self : HMM) (state : string)
  : result HMM :=
  v ← table_setitem (viterbi self) state [];
  dt ← pd_getitem (transition_PD self) "<s>";
  lt ← math_log (Lidstone.prob dt state) 2;
  de ← pd_getitem (emission_PD self) state;
  le ← math_log (Lidstone.prob de observation) 2;
  v ← table_append v state (- lt - le)%R;
  b ← table_setitem (backpointer self) state [];
  b ← table_append b state "<s>";
  Ok (set_tables self v b).

(** [initialise(observation)]: both tables start from empty dictionaries. *)
Definition initialise (self : HMM) (observation : string) : result HMM :=
  for_in (states self) (initialise_state observation)
         (set_tables self (Dict ∅) (Dict ∅)).

(** One candidate of the comprehension in [tag]: the cost of reaching [s] at
    step [t] through [state]. *)
Definition candidate (self : HMM) (observations : list string) (t : Z)
    (s state : string) : result (R * string) :=
  v ← get_viterbi_value self state (t - 1);
  dt ← pd_getitem (transition_PD self) state;
  lt ← math_log (Lidstone.prob dt s) 2;
  de ← pd_getitem (emission_PD self) s;
  o ← list_getitem observations t;
  le ← math_log (Lidstone.prob de o) 2;
  Ok ((v - lt - le)%R, state).

(** The body of the inner loop of [tag] for step [t] and state [s]. *)
Definition tag_state (observations : list string) (t : Z) (self : HMM) (s : string)
  : result HMM :=
  tmp_values ← comprehension (candidate self observations t s) (states self);
  min_val ← min_key tmp_values;
  v ← table_append (viterbi self) s min_val.1;
  b ← table_append (backpointer self) s min_val.2;
  Ok (set_tables self v b).

Definition tag_step (observations : list string) (self : HMM) (t : Z) : result HMM :=
  for_in (states self) (tag_state observations t) self.

(** A candidate of the termination step. *)
Definition final_candidate (self : HMM) (observations : list string) (state : string)
  : result (R * string) :=
  dt ← pd_getitem (transition_PD self) state;
  lt ← math_log (Lidstone.prob dt "</s>") 2;
  v ← get_viterbi_value self state (Z.of_nat (length observations) - 1);
  Ok ((- lt + v)%R, state).

(** The body of the reconstruction loop: [tags] grows at its end. *)
Definition backtrace_step (self : HMM) (observations : list string)
    (tags : list string) (step : Z) : result (list string) :=
  cur ← list_getitem tags (Z.of_nat (length observations) - 1 - step);
  prev ← get_backpointer_value self cur step;
  Ok (tags ++ [prev]).

(** [tag(observations)]: returns the object after the call and the tags. *)
Definition tag (self : HMM) (observations : list string)
  : result (HMM * list string) :=
  let n := Z.of_nat (length observations) in
  self' ← for_in (range 1 n) (tag_step observations) self;
  finals ← comprehension (final_candidate self' observations) (states self');
  best ← min_key finals;
  tags ← for_in (range_down (n - 1) 0) (backtrace_step self' observations) [best.2];
  Ok (self', reverse tags).

(** ** The module-level helpers and the driver [answers] *)

(** [isclose(a, b, rel_tol, abs_tol)]:
    [abs(a - b) <= max(rel_tol * max(abs(a), abs(b)), abs_tol)]; the defaults
    are [rel_tol=1e-09] and [abs_tol=0.0]. *)
Definition isclose (a b rel_tol abs_tol : R) : bool :=
  if Rle_dec (Rabs (a - b)) (Rmax (rel_tol * Rmax (Rabs a) (Rabs b)) abs_tol)
  then true else false.


(** The bound of a slice [l[i:]] or [l[:i]]: a negative index counts from
    the end, and the result is clipped to the list. *)
Definition slice_index {A : Type} (l : list A) (i : Z) : nat :=
  let n := Z.of_nat (length l) in
  if (i <? 0)%Z then Z.to_nat (Z.max (i + n) 0) else Z.to_nat (Z.min i n).

Definition slice_from {A : Type} (l : list A) (i : Z) : list A :=
  drop (slice_index l i) l.

Definition slice_to {A : Type} (l : list A) (i : Z) : list A :=
  take (slice_index l i) l.

(** The split of [answers]: [test_size = 500],
    [train_size = len(sents) - test_size], [test = sents[-test_size:]] and
    [train = sents[:train_size]]; the pair is (train, test). *)
Definition test_size : Z := 500.

Definition split_corpus {A : Type} (sents : list A) : list A * list A :=
  let train_size := (Z.of_nat (length sents) - test_size)%Z in
  (slice_to sents train_size, slice_from sents (- test_size)).

(** The inner loop of the accuracy check of [answers]:
    [for ((word, gold), tag) in zip(sentence, tags)] counts the tags that
    equal the gold tag and those that differ, and sets [inc] on a difference. *)
Definition score_step (acc : nat * nat * bool) (x : (string * string) * string)
  : nat * nat * bool :=
  if decide (x.2 = x.1.2)
  then (acc.1.1 + 1, acc.1.2, acc.2)
  else (acc.1.1, acc.1.2 + 1, true).

Definition score (sentence : list (string * string)) (tags : list string)
    (acc : nat * nat * bool) : nat * nat * bool :=
  foldl score_step acc (zip sentence tags).

(** The variables of the accuracy check: the model, the two counters and the
    list [incorrent_sent] of the first wrongly tagged sentences. *)
Record tally : Type := {
  model : HMM;
  correct : nat;
  incorrect : nat;
  incorrent_sent : list (list (string * string) * list string)
}.

(** The body of [for sentence in test_data_universal]: lowercase the words,
    [initialise] with the first one, [tag], score, and record the sentence
    if a tag was wrong and fewer than 10 are recorded. *)
Definition evaluate_sentence (st : tally) (sentence : list (string * string))
  : result tally :=
  let s := (λ wt : string * string, lower wt.1) <$> sentence in
  w0 ← list_getitem s 0;
  m1 ← initialise (model st) w0;
  mt ← tag m1 s;
  let sc := score sentence mt.2 (correct st, incorrect st, false) in
  Ok {| model := mt.1; correct := sc.1.1; incorrect := sc.1.2;
        incorrent_sent :=
          if sc.2 && (length (incorrent_sent st) <? 10)
          then incorrent_sent st ++ [(sentence, mt.2)]
          else incorrent_sent st |}.

Definition evaluate (m : HMM) (test : list (list (string * string))) : result tally :=
  for_in test evaluate_sentence
         {| model := m; correct := 0; incorrect := 0; incorrent_sent := [] |}.

(** * Specification-level definitions

    What the specification says in its own terms (counts of raw events, the
    smoothing formula, per-sentence tag sequences, the cost and the
    probability of a tag sequence), and the pure functions that describe
    what the loops of the decoder compute.  None of them is used by the
    embedding above. *)

(** ** Counting raw events *)

(** Number of occurrences of [x] in [l]. *)
Fixpoint count {A : Type} `{EqDecision A} (x : A) (l : list A) : nat :=
  match l with
  | [] => 0
  | y :: l' => (if decide (x = y) then 1 else 0) + count x l'
  end.

(** The samples recorded under condition [c], in order. *)
Definition samples_of (c : string) (data : list (string * string)) : list string :=
  snd <$> filter (λ p : string * string, p.1 = c) data.

(** The frequency distribution obtained by counting a list of samples. *)
Definition fd_of (l : list string) : gmap string nat :=
  foldl FreqDist.incr ∅ l.

(** The distribution the estimator builds when its guards pass. *)
Definition lidstone_dist (f : gmap string nat) : LidstoneProbDist :=
  {| lp_freqdist := f; lp_gamma := 1 / 100; lp_N := FreqDist.N f;
     lp_bins := FreqDist.B f + 1;
     lp_divisor := INR (FreqDist.N f) + INR (FreqDist.B f + 1) * (1 / 100) |}.

(** The tag sequence of one training sentence with its boundary symbols, and
    the adjacent pairs inside each such sequence. *)
Definition sentence_tags (s : list (string * string)) : list string :=
  "<s>" :: (snd <$> s) ++ ["</s>"].

Definition sentence_bigrams (train : list (list (string * string)))
  : list (string * string) :=
  concat ((λ s, bigrams (sentence_tags s)) <$> train).

(** The training set of the specification's worked example. *)
Definition example_corpus : list (list (string * string)) :=
  [ [("dog", "NOUN"); ("runs", "VERB")];
    [("cats", "NOUN"); ("sleep", "VERB")];
    [("dogs", "NOUN"); ("run", "VERB")] ].

(** The estimate the smoothing contract prescribes for value [v] under
    condition [c], from the raw (condition, value) events:
    [(count + 0.01) / (N + (B + 1) * 0.01)] with [N] the number of events
    under [c] and [B] the number of distinct values under [c]. *)
Definition smoothed (data : list (string * string)) (c v : string) : R :=
  ((INR (count (c, v) data) + 1 / 100)
   / (INR (length (samples_of c data))
      + INR (length (remove_dups (samples_of c data)) + 1) * (1 / 100)))%R.

(** ** The trellis the decoder computes *)

(** The value an accessor returns (0 stands in for a raised exception;
    [estimated] says that none is raised). *)
Definition value_of (c : result R) : R :=
  match c with
  | Ok x => x
  | Raise _ => 0%R
  end.

(** Log-probabilities of a model as total functions. *)
Definition tl (m : HMM) (a b : string) : R := value_of (tlprob m a b).
Definition el (m : HMM) (s w : string) : R := value_of (elprob m s w).

(** Both accessors answer for every pair of arguments. *)
Definition estimated (m : HMM) : Prop :=
  (∀ a b, tlprob m a b = Ok (tl m a b)) ∧ (∀ s w, elprob m s w = Ok (el m s w)).

(** The element [min_key] returns, with a default for the empty list. *)
Definition first_min {B : Type} (d : R * B) (l : list (R * B)) : R * B :=
  match l with
  | [] => d
  | x :: l' => foldl min_step x l'
  end.

(** The pair the inner loop appends for tag [s]: the candidates range over
    the previous tags [p] in the order of [states]. *)
Definition cand (m : HMM) (prev : string → R) (o s p : string) : R * string :=
  ((prev p - tl m p s - el m s o)%R, p).

Definition best_prev (m : HMM) (prev : string → R) (o s : string) : R * string :=
  first_min (0%R, "") (cand m prev o s <$> states m).

(** The word at position [t] of the sentence. *)
Definition obs_at (obs : list string) (t : nat) : string := default "" (obs !! t).

(** Cost and backpointer of tag [s] at step [t], for first word [w]. *)
Fixpoint V (m : HMM) (w : string) (obs : list string) (t : nat) (s : string) : R :=
  match t with
  | 0 => (- tl m "<s>" s - el m s w)%R
  | S t' => (best_prev m (V m w obs t') (obs_at obs t) s).1
  end.

Definition BP (m : HMM) (w : string) (obs : list string) (t : nat) (s : string)
  : string :=
  match t with
  | 0 => "<s>"
  | S t' => (best_prev m (V m w obs t') (obs_at obs t) s).2
  end.

(** The rows of the two tables for tag [s] once step [T] is complete. *)
Definition Vcol (m : HMM) (w : string) (obs : list string) (T : nat) (s : string)
  : list R :=
  (λ t, V m w obs t s) <$> seq 0 (S T).

Definition Bcol (m : HMM) (w : string) (obs : list string) (T : nat) (s : string)
  : list string :=
  (λ t, BP m w obs t s) <$> seq 0 (S T).

(** The object holds the trellis up to step [T]: one row per tag of
    [states], no other row. *)
Definition trellis (m : HMM) (w : string) (obs : list string) (T : nat)
    (self : HMM) : Prop :=
  ∃ dv db, self = set_tables m (Dict dv) (Dict db) ∧
    (∀ s, s ∈ states m →
       dv !! s = Some (Vcol m w obs T s) ∧ db !! s = Some (Bcol m w obs T s)) ∧
    (∀ s, s ∉ states m → dv !! s = None ∧ db !! s = None).

(** The termination step: the candidate of tag [s], the tag chosen for the
    last word, and the walk along the backpointers from step [T] down to
    step 0. *)
Definition final (m : HMM) (w : string) (obs : list string) (T : nat) (s : string)
  : R * string :=
  ((- tl m s "</s>" + V m w obs T s)%R, s).

Definition best_last (m : HMM) (w : string) (obs : list string) (T : nat) : string :=
  (first_min (0%R, "") (final m w obs T <$> states m)).2.

Fixpoint back (m : HMM) (w : string) (obs : list string) (T : nat) (s : string)
  : list string :=
  match T with
  | 0 => [s]
  | S T' => s :: back m w obs T' (BP m w obs T s)
  end.

(** ** The cost of a tag sequence *)

(** The specification's total cost of a tag sequence [path] for a sentence
    [obs]: [-log2 P(first tag | <s>)], plus the emission costs of all
    positions, plus the transition costs of all adjacent tags, plus
    [-log2 P(</s> | last tag)]. *)
Definition Rsum (l : list R) : R := foldr Rplus 0%R l.

(** Sum over the positions of [-log2 P(word | tag)]. *)
Definition emission_cost (m : HMM) (obs path : list string) : R :=
  Rsum ((λ op : string * string, - el m op.2 op.1)%R <$> zip obs path).

(** Sum over the adjacent tags of [-log2 P(next | previous)]. *)
Definition transition_cost (m : HMM) (path : list string) : R :=
  Rsum ((λ ab : string * string, - tl m ab.1 ab.2)%R <$> bigrams path).

(** The cost without the final transition to [</s>]. *)
Definition prefix_cost (m : HMM) (obs path : list string) : R :=
  (- tl m "<s>" (default "" (head path))
   + emission_cost m obs path + transition_cost m path)%R.

(** The total cost of tagging the sentence [obs] with [path]. *)
Definition path_cost (m : HMM) (obs path : list string) : R :=
  (prefix_cost m obs path + - tl m (default "" (last path)) "</s>")%R.

(** ** The recurrence of the decoding loop *)

(** [c] is the cost of reaching tag [s] at step [t] through the previous tag
    [p], read off the object: [viterbi[p][t-1] - log2 P(s|p) - log2 P(o|s)]. *)
Definition step_cost (self : HMM) (o : string) (t : nat) (s p : string) (c : R)
  : Prop :=
  ∃ vp lt le,
    get_viterbi_value self p (Z.of_nat t - 1) = Ok vp ∧
    tlprob self p s = Ok lt ∧
    elprob self s o = Ok le ∧
    c = (vp - lt - le)%R.

(** ** Probabilities behind the costs *)

(** The probability a conditional distribution gives to [v] under [c]. *)
Definition prob_of (pd : option (gmap string LidstoneProbDist)) (c v : string) : R :=
  match pd_getitem pd c with
  | Ok d => Lidstone.prob d v
  | Raise _ => 1%R
  end.

(** [P(b | a)] and [P(w | s)] of a model. *)
Definition tprob (m : HMM) (a b : string) : R := prob_of (transition_PD m) a b.
Definition eprob (m : HMM) (s w : string) : R := prob_of (emission_PD m) s w.

Definition Rprod (l : list R) : R := foldr Rmult 1%R l.

(** The probability of tagging the first words of [obs] with [path]. *)
Definition prefix_prob (m : HMM) (obs path : list string) : R :=
  (tprob m "<s>" (default "" (head path))
   * Rprod ((λ op : string * string, eprob m op.2 op.1) <$> zip obs path)
   * Rprod ((λ ab : string * string, tprob m ab.1 ab.2) <$> bigrams path))%R.

(** Probabilities lie in (0, 1] and the accessors return their [log2]. *)
Definition calibrated (m : HMM) : Prop :=
  (∀ a b, (0 < tprob m a b <= 1)%R ∧ tlprob m a b = Ok (ln (tprob m a b) / ln 2)%R) ∧
  (∀ s w, (0 < eprob m s w <= 1)%R ∧ elprob m s w = Ok (ln (eprob m s w) / ln 2)%R).

(** ** Further notions for the properties of the code *)

(** A training set with every word put in lower case. *)
Definition lowercased (corpus : list (list (string * string)))
  : list (list (string * string)) :=
  (λ s : list (string * string),
     (λ wt : string * string, (lower wt.1, wt.2)) <$> s) <$> corpus.

(** The probability a smoothed distribution gives to a value it never
    counted, from the raw events of the model. *)
Definition unseen_mass (data : list (string * string)) (c : string) : R :=
  ((1 / 100)
   / (INR (length (samples_of c data))
      + INR (length (remove_dups (samples_of c data)) + 1) * (1 / 100)))%R.

(** [c] is the cost of ending a sentence of [n] words in tag [p], read off
    the object: [- log2 P(</s>|p) + viterbi[p][n-1]]. *)
Definition final_cost (self : HMM) (n : nat) (p : string) (c : R) : Prop :=
  ∃ lt v,
    tlprob self p "</s>" = Ok lt ∧
    get_viterbi_value self p (Z.of_nat n - 1) = Ok v ∧
    c = (- lt + v)%R.

(** The joint probability of a tag sequence and a sentence under the two
    models, the final transition to [</s>] included. *)
Definition path_prob (m : HMM) (obs path : list string) : R :=
  (prefix_prob m obs path * tprob m (default "" (last path)) "</s>")%R.

(** A word that the emission model never counted, under any tag. *)
Definition unseen_word (corpus : list (list (string * string))) (w : string) : Prop :=
  w ∉ (emission_data corpus).*2.

(** The rows of the object start with the trellis up to step [T]; what
    follows in a row is arbitrary. *)
Definition trellis_prefix (m : HMM) (w : string) (obs : list string) (T : nat)
    (self : HMM) : Prop :=
  ∃ dv db, self = set_tables m (Dict dv) (Dict db) ∧
    ∀ s, s ∈ states m →
      ∃ ev eb, dv !! s = Some (Vcol m w obs T s ++ ev) ∧
               db !! s = Some (Bcol m w obs T s ++ eb).

(** * Properties *)

(** ** The embedding on small inputs *)

Example range_example : range 1 4 = [1; 2; 3]%Z.
Proof. reflexivity. Qed.

Example range_down_example : range_down 3 0 = [3; 2; 1]%Z.
Proof. reflexivity. Qed.

Example range_empty_sentence : range 1 0 = [] ∧ range_down (-1) 0 = [].
Proof. split; reflexivity. Qed.

Example list_getitem_negative : list_getitem [10; 20; 30] (-1) = Ok 30.
Proof. reflexivity. Qed.

Example list_getitem_out_of_range : list_getitem [10; 20; 30] 3 = Raise IndexError.
Proof. reflexivity. Qed.

Example lower_example : lower "The Dog" = "the dog".
Proof. reflexivity. Qed.

Example bigrams_example : bigrams ["a"; "b"; "c"] = [("a", "b"); ("b", "c")].
Proof. reflexivity. Qed.

Example unique_list_example :
  unique_list ["NOUN"; "VERB"; "NOUN"; "DET"; "VERB"] = ["NOUN"; "VERB"; "DET"].
Proof. vm_compute. reflexivity. Qed.

Example min_key_tie : min_key [(1%R, "a"); (0%R, "b"); (0%R, "c")] = Ok (0%R, "b").
Proof.
  unfold min_key. simpl. unfold min_step. simpl.
  destruct (Rlt_dec 0 1) as [_|H]; [|lra]. simpl.
  destruct (Rlt_dec 0 0) as [H|_]; [lra|]. done.
Qed.

Example min_key_empty : min_key (B := string) [] = Raise ValueError.
Proof. reflexivity. Qed.

Example transition_data_example :
  transition_data [[("dog", "NOUN")]; [("runs", "VERB")]]
  = [("<s>", "NOUN"); ("NOUN", "</s>"); ("</s>", "<s>");
     ("<s>", "VERB"); ("VERB", "</s>")].
Proof. reflexivity. Qed.

Example emission_counts_example :
  FreqDist.getitem (ConditionalFreqDist.getitem (emission_FD example_corpus) "NOUN") "dog"
  = 1
  ∧ FreqDist.N (ConditionalFreqDist.getitem (emission_FD example_corpus) "NOUN") = 3
  ∧ FreqDist.B (ConditionalFreqDist.getitem (emission_FD example_corpus) "NOUN") = 3.
Proof. repeat split; vm_compute; reflexivity. Qed.

Example states_example :
  unique_list (concat example_corpus).*2 = ["NOUN"; "VERB"].
Proof. vm_compute. reflexivity. Qed.

Example smoothed_example :
  smoothed (emission_data example_corpus) "NOUN" "dog"
  = ((1 + 1 / 100) / (3 + 4 * (1 / 100)))%R.
Proof.
  unfold smoothed.
  replace (count ("NOUN", "dog") (emission_data example_corpus)) with 1
    by (vm_compute; reflexivity).
  replace (length (samples_of "NOUN" (emission_data example_corpus))) with 3
    by (vm_compute; reflexivity).
  replace (length (remove_dups (samples_of "NOUN" (emission_data example_corpus)))
           + 1) with 4 by (vm_compute; reflexivity).
  simpl. f_equal; lra.
Qed.

(** ** The result monad, loops and comprehensions *)

Lemma bind_Ok {A B : Type} (f : A → result B) (a : A) : (Ok a ≫= f) = f a.
Proof. reflexivity. Qed.

Lemma bind_Ok_inv {A B : Type} (c : result A) (f : A → result B) (b : B) :
  (c ≫= f) = Ok b → ∃ a, c = Ok a ∧ f a = Ok b.
Proof. destruct c as [a|e]; [eauto | discriminate]. Qed.

Lemma comprehension_Ok {A B : Type} (f : A → result B) (g : A → B) (l : list A) :
  (∀ x, x ∈ l → f x = Ok (g x)) → comprehension f l = Ok (g <$> l).
Proof.
  induction l as [|x l IH]; intros Hf; [done|]. simpl.
  rewrite (Hf x) by apply list_elem_of_here. simpl.
  rewrite IH; [done|]. intros y Hy. apply Hf. by apply list_elem_of_further.
Qed.

Lemma comprehension_ext {A B : Type} (f g : A → result B) (l : list A) :
  (∀ x, f x = g x) → comprehension f l = comprehension g l.
Proof.
  intros Hfg. induction l as [|x l IH]; [done|]. simpl. by rewrite Hfg, IH.
Qed.

Lemma for_in_ext {S A : Type} (f g : S → A → result S) (l : list A) (s : S) :
  (∀ s' x, x ∈ l → f s' x = g s' x) → for_in l f s = for_in l g s.
Proof.
  revert s. induction l as [|x l IH]; intros s Hfg; [done|]. simpl.
  rewrite (Hfg s x) by apply list_elem_of_here.
  destruct (g s x) as [s'|e]; [|done]. simpl.
  apply IH. intros s'' y Hy. apply Hfg. by apply list_elem_of_further.
Qed.

(** ** Python built-ins *)

Lemma list_getitem_nat {A : Type} (l : list A) (i : nat) (x : A) :
  l !! i = Some x → list_getitem l (Z.of_nat i) = Ok x.
Proof.
  intros Hi. unfold list_getitem.
  assert (Hneg : (Z.of_nat i <? 0)%Z = false) by (apply Z.ltb_ge; lia).
  cbv zeta. rewrite !Hneg. by rewrite Nat2Z.id, Hi.
Qed.

Lemma list_getitem_last {A : Type} (l : list A) (x : A) :
  list_getitem (l ++ [x]) (-1) = Ok x.
Proof.
  unfold list_getitem. simpl. rewrite length_app. simpl.
  assert (Hneg : (-1 + Z.of_nat (length l + 1) <? 0)%Z = false)
    by (apply Z.ltb_ge; lia).
  rewrite Hneg.
  replace (Z.to_nat (-1 + Z.of_nat (length l + 1))) with (length l) by lia.
  by rewrite list_lookup_middle.
Qed.

Lemma list_getitem_inv {A : Type} (l : list A) (i : Z) (x : A) :
  list_getitem l i = Ok x → ∃ k, l !! k = Some x.
Proof.
  unfold list_getitem. cbv zeta.
  destruct (_ <? 0)%Z; [done|].
  destruct (l !! _) as [y|] eqn:Hy; [|done]. intros [= <-]. eauto.
Qed.

Lemma list_getitem_cons_tail {A : Type} (x y : A) (l : list A) (i : Z) :
  (1 <= i)%Z → list_getitem (x :: l) i = list_getitem (y :: l) i.
Proof.
  intros Hi. unfold list_getitem.
  assert (Hneg : (i <? 0)%Z = false) by (apply Z.ltb_ge; lia).
  cbv zeta. rewrite !Hneg.
  destruct (Z.to_nat i) as [|k] eqn:Hk; [lia|done].
Qed.

(** The loop over the steps [1 .. n-1]. *)
Lemma range_from_1 (n : nat) : range 1 (Z.of_nat n) = Z.of_nat <$> seq 1 (n - 1).
Proof.
  unfold range. replace (Z.to_nat (Z.of_nat n - 1)) with (n - 1) by lia.
  rewrite <- (fmap_S_seq 0), <- list_fmap_compose.
  apply list_fmap_ext. intros i x Hx. simpl. lia.
Qed.

Lemma range_down_to_0 (T : nat) :
  range_down (Z.of_nat T) 0 = (λ i : nat, (Z.of_nat T - Z.of_nat i)%Z) <$> seq 0 T.
Proof. unfold range_down. by replace (Z.to_nat (Z.of_nat T - 0)) with T by lia. Qed.

Lemma elem_of_range (start stop i : Z) : i ∈ range start stop → (start <= i)%Z.
Proof.
  unfold range. intros (k & -> & _)%list_elem_of_fmap. lia.
Qed.

Lemma math_log_Ok (x : R) : (0 < x)%R → math_log x 2 = Ok (ln x / ln 2)%R.
Proof. intros Hx. unfold math_log. by destruct (Rlt_dec 0 x). Qed.

Lemma ln_2_pos : (0 < ln 2)%R.
Proof. rewrite <- ln_1. apply ln_increasing; lra. Qed.

Lemma log2_one : (ln 1 / ln 2 = 0)%R.
Proof. rewrite ln_1. unfold Rdiv. apply Rmult_0_l. Qed.

Lemma log2_nonpos (p : R) : (0 < p <= 1)%R → (ln p / ln 2 <= 0)%R.
Proof.
  intros [Hp0 Hp1]. pose proof ln_2_pos as H2.
  assert (Hln : (ln p <= 0)%R).
  { destruct (Req_dec_T p 1) as [->|Hne]; [rewrite ln_1; lra|].
    rewrite <- ln_1. left. apply ln_increasing; lra. }
  unfold Rdiv. pose proof (Rinv_0_lt_compat _ H2) as Hinv. nra.
Qed.

Lemma log2_zero_iff (p : R) : (0 < p)%R → (ln p / ln 2 = 0)%R ↔ p = 1%R.
Proof.
  intros Hp. pose proof ln_2_pos as H2. split.
  - intros Hz. apply ln_inv; [done|lra|]. rewrite ln_1.
    unfold Rdiv in Hz. apply Rmult_integral in Hz as [Hz|Hz]; [done|].
    pose proof (Rinv_0_lt_compat _ H2). lra.
  - intros ->. apply log2_one.
Qed.

(** ** The first minimum of a list *)

Lemma min_key_first_min {B : Type} (d : R * B) (l : list (R * B)) :
  l ≠ [] → min_key l = Ok (first_min d l).
Proof. by destruct l. Qed.

Lemma foldl_min_step_spec {B : Type} (l : list (R * B)) (x : R * B) :
  ∃ pre post,
    x :: l = pre ++ foldl min_step x l :: post ∧
    (∀ y, y ∈ pre → ((foldl min_step x l).1 < y.1)%R) ∧
    (∀ y, y ∈ post → ((foldl min_step x l).1 <= y.1)%R).
Proof.
  induction l as [|y l IH] using rev_ind.
  { exists [], []. split; [done|]. split; intros y Hy; by apply not_elem_of_nil in Hy. }
  destruct IH as (pre & post & Heq & Hpre & Hpost).
  rewrite foldl_app. simpl.
  remember (foldl min_step x l) as r eqn:Hr. clear Hr.
  unfold min_step. destruct (Rlt_dec y.1 r.1) as [Hlt|Hge].
  - exists (x :: l), []. split; [done|]. split.
    + intros z Hz. rewrite Heq in Hz.
      apply elem_of_app in Hz as [Hz|Hz]; [specialize (Hpre z Hz); lra|].
      apply elem_of_cons in Hz as [->|Hz]; [done|].
      specialize (Hpost z Hz). lra.
    + intros z Hz. by apply not_elem_of_nil in Hz.
  - exists pre, (post ++ [y]). split.
    + rewrite app_comm_cons, Heq, <- app_assoc. done.
    + split; [done|]. intros z [Hz|Hz]%elem_of_app; [by apply Hpost|].
      apply list_elem_of_singleton in Hz as ->. lra.
Qed.

Lemma first_min_spec {B : Type} (d : R * B) (l : list (R * B)) :
  l ≠ [] →
  ∃ pre post,
    l = pre ++ first_min d l :: post ∧
    (∀ y, y ∈ pre → ((first_min d l).1 < y.1)%R) ∧
    (∀ y, y ∈ post → ((first_min d l).1 <= y.1)%R).
Proof. destruct l as [|x l]; [done|]. intros _. apply foldl_min_step_spec. Qed.

Lemma first_min_in {B : Type} (d : R * B) (l : list (R * B)) :
  l ≠ [] → first_min d l ∈ l.
Proof.
  intros Hl. destruct (first_min_spec d l Hl) as (pre & post & Heq & _).
  rewrite Heq at 2. apply elem_of_app. right. apply list_elem_of_here.
Qed.

Lemma first_min_le {B : Type} (d : R * B) (l : list (R * B)) (y : R * B) :
  y ∈ l → ((first_min d l).1 <= y.1)%R.
Proof.
  intros Hy. assert (Hl : l ≠ []) by (by intros ->; apply not_elem_of_nil in Hy).
  destruct (first_min_spec d l Hl) as (pre & post & Heq & Hpre & Hpost).
  rewrite Heq in Hy. apply elem_of_app in Hy as [Hy|Hy].
  - specialize (Hpre y Hy). lra.
  - apply elem_of_cons in Hy as [->|Hy]; [lra | by apply Hpost].
Qed.

(** ** Counting, adjacent pairs, sums and products *)

Lemma count_app {A : Type} `{EqDecision A} (x : A) (l1 l2 : list A) :
  count x (l1 ++ l2) = count x l1 + count x l2.
Proof. induction l1 as [|y l1 IH]; simpl; [done | rewrite IH; lia]. Qed.

Lemma count_cons {A : Type} `{EqDecision A} (x y : A) (l : list A) :
  count x (y :: l) = (if decide (x = y) then 1 else 0) + count x l.
Proof. done. Qed.

Lemma count_zero {A : Type} `{EqDecision A} (x : A) (l : list A) :
  x ∉ l → count x l = 0.
Proof.
  induction l as [|y l IH]; simpl; [done|].
  intros Hx. apply not_elem_of_cons in Hx as [Hne Hx].
  rewrite decide_False by done. by rewrite IH.
Qed.

Lemma bigrams_snoc_cons {A : Type} (l : list A) (x y : A) (r : list A) :
  bigrams (l ++ x :: y :: r) = bigrams (l ++ [x]) ++ (x, y) :: bigrams (y :: r).
Proof.
  induction l as [|z l IH]; [done|].
  destruct l as [|z' l]; simpl in *; [done | by f_equal].
Qed.

Lemma bigrams_snoc {A : Type} (q : list A) (p s : A) :
  last q = Some p → bigrams (q ++ [s]) = bigrams q ++ [(p, s)].
Proof.
  induction q as [|x q IH]; [done|]. intros Hlast.
  destruct q as [|y q]; simpl in *; [by injection Hlast as -> | by rewrite IH].
Qed.

Lemma zip_snoc {A B : Type} (l : list A) (q : list B) (o : A) (s : B) :
  l !! length q = Some o → zip l (q ++ [s]) = zip l q ++ [(o, s)].
Proof.
  revert l. induction q as [|p q IH]; intros [|x l] Hl; try done; simpl in *.
  - injection Hl as ->. by destruct l.
  - by rewrite IH.
Qed.

Lemma Rsum_app (l1 l2 : list R) : Rsum (l1 ++ l2) = (Rsum l1 + Rsum l2)%R.
Proof.
  induction l1 as [|x l1 IH]; simpl; [lra|]. rewrite IH. lra.
Qed.

Lemma Rsum_cons (x : R) (l : list R) : Rsum (x :: l) = (x + Rsum l)%R.
Proof. done. Qed.

Lemma Rprod_cons (x : R) (l : list R) : Rprod (x :: l) = (x * Rprod l)%R.
Proof. done. Qed.

Lemma Rprod_bounds {A : Type} (f : A → R) (l : list A) :
  (∀ x, (0 < f x <= 1)%R) → (0 < Rprod (f <$> l) <= 1)%R.
Proof.
  intros Hf. induction l as [|x l IH]; [simpl; lra|].
  rewrite fmap_cons, Rprod_cons. specialize (Hf x). nra.
Qed.

Lemma Rsum_neg_log2 {A : Type} (f : A → R) (l : list A) :
  (∀ x, (0 < f x <= 1)%R) →
  Rsum ((λ x, - (ln (f x) / ln 2))%R <$> l) = (- (ln (Rprod (f <$> l)) / ln 2))%R.
Proof.
  intros Hf. induction l as [|x l IH].
  { simpl. rewrite ln_1. unfold Rdiv. lra. }
  rewrite !fmap_cons, Rprod_cons, Rsum_cons.
  rewrite IH, ln_mult; [unfold Rdiv; lra|apply Hf|apply Rprod_bounds, Hf].
Qed.

(** ** Frequency distributions count *)

Lemma fd_of_snoc (l : list string) (x : string) :
  fd_of (l ++ [x]) = FreqDist.incr (fd_of l) x.
Proof. unfold fd_of. by rewrite foldl_app. Qed.

Lemma fd_getitem_incr (f : gmap string nat) (x y : string) :
  FreqDist.getitem (FreqDist.incr f x) y
  = (if decide (y = x) then 1 else 0) + FreqDist.getitem f y.
Proof.
  unfold FreqDist.incr, FreqDist.getitem.
  destruct (decide (y = x)) as [->|Hne].
  - by rewrite lookup_insert_eq.
  - by rewrite lookup_insert_ne.
Qed.

Lemma fd_of_getitem (l : list string) (y : string) :
  FreqDist.getitem (fd_of l) y = count y l.
Proof.
  induction l as [|x l IH] using rev_ind; [done|].
  rewrite fd_of_snoc, fd_getitem_incr, IH, count_app. simpl. lia.
Qed.

Lemma fd_N_insert (f : gmap string nat) (x : string) (c : nat) :
  FreqDist.N (<[x := c]> f) + FreqDist.getitem f x = c + FreqDist.N f.
Proof.
  unfold FreqDist.N, FreqDist.getitem.
  destruct (f !! x) as [c0|] eqn:Hx; simpl.
  - assert (Hf : f = <[x := c0]> (delete x f)) by (by rewrite insert_delete_id).
    rewrite <- (insert_delete_eq f x c).
    rewrite Hf at 2.
    rewrite !map_fold_insert_L; try (by rewrite lookup_delete_eq); [lia| |];
      intros; lia.
  - rewrite map_fold_insert_L; [lia | intros; lia | done].
Qed.

Lemma fd_N_incr (f : gmap string nat) (x : string) :
  FreqDist.N (FreqDist.incr f x) = S (FreqDist.N f).
Proof.
  unfold FreqDist.incr.
  pose proof (fd_N_insert f x (S (FreqDist.getitem f x))). lia.
Qed.

Lemma fd_of_N (l : list string) : FreqDist.N (fd_of l) = length l.
Proof.
  induction l as [|x l IH] using rev_ind; [done|].
  rewrite fd_of_snoc, fd_N_incr, IH, length_app. simpl. lia.
Qed.

Lemma fd_of_dom (l : list string) : dom (fd_of l) = list_to_set l.
Proof.
  induction l as [|x l IH] using rev_ind.
  { unfold fd_of. simpl. by rewrite dom_empty_L. }
  rewrite fd_of_snoc. unfold FreqDist.incr.
  rewrite dom_insert_L, IH, list_to_set_app_L. simpl.
  rewrite (right_id_L ∅ (∪)). apply (comm_L (∪)).
Qed.

Lemma fd_of_B (l : list string) : FreqDist.B (fd_of l) = length (remove_dups l).
Proof.
  unfold FreqDist.B. rewrite <- size_dom, fd_of_dom.
  assert (Hset : list_to_set (C := gset string) l = list_to_set (remove_dups l)).
  { apply set_eq. intros x. by rewrite !elem_of_list_to_set, elem_of_remove_dups. }
  rewrite Hset. apply size_list_to_set, NoDup_remove_dups.
Qed.

Lemma fd_getitem_le_N (f : gmap string nat) (x : string) :
  FreqDist.getitem f x ≤ FreqDist.N f.
Proof.
  destruct (f !! x) as [c|] eqn:Hx.
  - pose proof (fd_N_insert (delete x f) x c) as H.
    rewrite insert_delete_id in H by done.
    unfold FreqDist.getitem in *. rewrite lookup_delete_eq in H.
    rewrite Hx. simpl in *. lia.
  - unfold FreqDist.getitem. rewrite Hx. simpl. lia.
Qed.

Lemma fd_N_empty : FreqDist.N ∅ = 0.
Proof. done. Qed.

Lemma fd_B_empty : FreqDist.B ∅ = 0.
Proof. done. Qed.

Lemma cfd_init_snoc (data : list (string * string)) (x : string * string) :
  ConditionalFreqDist.init (data ++ [x])
  = ConditionalFreqDist.incr (ConditionalFreqDist.init data) x.
Proof. unfold ConditionalFreqDist.init. by rewrite foldl_app. Qed.

Lemma samples_of_snoc (c : string) (data : list (string * string)) (x : string * string) :
  samples_of c (data ++ [x])
  = samples_of c data ++ (if decide (x.1 = c) then [x.2] else []).
Proof.
  unfold samples_of. rewrite filter_app, fmap_app. f_equal.
  rewrite filter_cons, filter_nil. by destruct (decide (x.1 = c)).
Qed.

Lemma samples_of_nil (c : string) (data : list (string * string)) :
  c ∉ data.*1 → samples_of c data = [].
Proof.
  induction data as [|[c' s] data IH]; [done|].
  intros Hc. apply not_elem_of_cons in Hc as [Hne Hc].
  unfold samples_of in *. rewrite filter_cons. simpl in *.
  rewrite decide_False by done. by apply IH.
Qed.

Lemma cfd_lookup (data : list (string * string)) (c : string) :
  ConditionalFreqDist.init data !! c
  = if decide (c ∈ data.*1) then Some (fd_of (samples_of c data)) else None.
Proof.
  induction data as [|[c' s] data IH] using rev_ind.
  { rewrite decide_False by apply not_elem_of_nil. done. }
  rewrite cfd_init_snoc. unfold ConditionalFreqDist.incr. simpl.
  rewrite fmap_app, samples_of_snoc. simpl.
  destruct (decide (c' = c)) as [->|Hne].
  - rewrite lookup_insert_eq, decide_True by (apply elem_of_app; right; apply list_elem_of_singleton; done).
    f_equal. rewrite fd_of_snoc. f_equal.
    unfold ConditionalFreqDist.getitem. rewrite IH.
    destruct (decide (c ∈ data.*1)) as [Hin|Hnin]; [done|].
    by rewrite samples_of_nil.
  - rewrite lookup_insert_ne, IH, app_nil_r by done.
    destruct (decide (c ∈ data.*1)) as [Hin|Hnin].
    + by rewrite decide_True by (apply elem_of_app; by left).
    + rewrite decide_False; [done|].
      intros [?|Hc]%elem_of_app; [done|].
      by apply list_elem_of_singleton in Hc.
Qed.

Lemma cfd_getitem (data : list (string * string)) (c : string) :
  ConditionalFreqDist.getitem (ConditionalFreqDist.init data) c
  = fd_of (samples_of c data).
Proof.
  unfold ConditionalFreqDist.getitem. rewrite cfd_lookup.
  destruct (decide (c ∈ data.*1)); [done|]. by rewrite samples_of_nil.
Qed.

Lemma count_samples_of (c s : string) (data : list (string * string)) :
  count s (samples_of c data) = count (c, s) data.
Proof.
  induction data as [|[c' s'] data IH]; [done|].
  assert (Hcons : samples_of c ((c', s') :: data)
                  = (if decide (c' = c) then [s'] else []) ++ samples_of c data).
  { unfold samples_of. rewrite filter_cons. simpl. by destruct (decide (c' = c)). }
  rewrite Hcons, count_app, IH. simpl.
  destruct (decide (c' = c)) as [->|Hne]; simpl.
  - destruct (decide (s = s')) as [->|Hs].
    + by rewrite decide_True.
    + by rewrite decide_False by congruence.
  - by rewrite decide_False by congruence.
Qed.

(** ** [unique_list] *)

Lemma unique_list_from_spec (seen : gset string) (xs : list string) :
  NoDup (unique_list_from seen xs) ∧
  ∀ x, x ∈ unique_list_from seen xs ↔ x ∈ xs ∧ x ∉ seen.
Proof.
  revert seen. induction xs as [|y xs IH]; intros seen; simpl.
  { split; [constructor|]. intros x. split; [by intros ?%not_elem_of_nil|].
    by intros [?%not_elem_of_nil _]. }
  destruct (decide (y ∈ seen)) as [Hy|Hy].
  - destruct (IH seen) as [Hnd Hin]. split; [done|]. intros x.
    rewrite Hin, elem_of_cons. split.
    + intros [Hx Hn]. split; [by right | done].
    + intros [[->|Hx] Hn]; [done|]. done.
  - destruct (IH ({[y]} ∪ seen)) as [Hnd Hin]. split.
    + constructor; [|done]. rewrite Hin. intros [_ Hn]. apply Hn.
      apply elem_of_union. left. by apply elem_of_singleton.
    + intros x. rewrite !elem_of_cons, Hin, not_elem_of_union, not_elem_of_singleton.
      split.
      * intros [->|[Hx [Hne Hn]]]; [by split; [left|] | by split; [right|]].
      * intros [[->|Hx] Hn]; [by left|].
        destruct (decide (x = y)) as [->|Hne]; [by left | by right].
Qed.

Lemma unique_list_NoDup (xs : list string) : NoDup (unique_list xs).
Proof. apply unique_list_from_spec. Qed.

Lemma elem_of_unique_list (xs : list string) (x : string) :
  x ∈ unique_list xs ↔ x ∈ xs.
Proof.
  unfold unique_list. destruct (unique_list_from_spec ∅ xs) as [_ Hin].
  rewrite Hin. split; [by intros [? _]|]. intros Hx. split; [done|].
  apply not_elem_of_empty.
Qed.

(** ** The estimator never raises *)

Lemma lidstone_divisor_pos (n b : nat) : (0 < INR n + INR (b + 1) * (1 / 100))%R.
Proof.
  pose proof (pos_INR n). rewrite plus_INR. pose proof (pos_INR b).
  simpl. lra.
Qed.

Lemma lidstone_est_Ok (f : gmap string nat) : lidstone_est f = Ok (lidstone_dist f).
Proof.
  unfold lidstone_est, Lidstone.init.
  destruct (FreqDist.B f + 1 =? 0) eqn:H0; [apply Nat.eqb_eq in H0; lia|].
  destruct (FreqDist.B f + 1 <? FreqDist.B f) eqn:H1; [apply Nat.ltb_lt in H1; lia|].
  destruct (Req_dec_T _ 0) as [Hz|Hz]; [|done].
  pose proof (lidstone_divisor_pos (FreqDist.N f) (FreqDist.B f)). lra.
Qed.

Lemma prob_lidstone_dist (f : gmap string nat) (v : string) :
  Lidstone.prob (lidstone_dist f) v
  = ((INR (FreqDist.getitem f v) + 1 / 100)
     / (INR (FreqDist.N f) + INR (FreqDist.B f + 1) * (1 / 100)))%R.
Proof. done. Qed.

Lemma prob_lidstone_pos (f : gmap string nat) (v : string) :
  (0 < Lidstone.prob (lidstone_dist f) v)%R.
Proof.
  rewrite prob_lidstone_dist. apply Rdiv_lt_0_compat.
  - pose proof (pos_INR (FreqDist.getitem f v)). lra.
  - apply lidstone_divisor_pos.
Qed.

Lemma prob_lidstone_le_1 (f : gmap string nat) (v : string) :
  (Lidstone.prob (lidstone_dist f) v <= 1)%R.
Proof.
  rewrite prob_lidstone_dist.
  pose proof (lidstone_divisor_pos (FreqDist.N f) (FreqDist.B f)) as Hd.
  apply (Rmult_le_reg_r _ _ _ Hd).
  unfold Rdiv at 1. rewrite Rmult_assoc, Rinv_l, Rmult_1_r, Rmult_1_l by lra.
  pose proof (le_INR _ _ (fd_getitem_le_N f v)).
  rewrite plus_INR. pose proof (pos_INR (FreqDist.B f)). simpl. lra.
Qed.

Lemma prob_samples (data : list (string * string)) (c v : string) :
  Lidstone.prob (lidstone_dist (fd_of (samples_of c data))) v = smoothed data c v.
Proof.
  rewrite prob_lidstone_dist. unfold smoothed.
  by rewrite fd_of_getitem, fd_of_N, fd_of_B, count_samples_of.
Qed.

Lemma prob_unseen_condition (v : string) :
  Lidstone.prob (lidstone_dist (fd_of [])) v = 1%R.
Proof.
  rewrite prob_lidstone_dist.
  change (fd_of []) with (∅ : gmap string nat).
  rewrite fd_N_empty, fd_B_empty. unfold FreqDist.getitem.
  rewrite lookup_empty. simpl. lra.
Qed.

Lemma cpd_init_fold (l : list (string * gmap string nat)) :
  foldr ConditionalProbDist.init_step (Ok ∅) l
  = Ok (list_to_map (M := gmap string LidstoneProbDist)
          (prod_map Datatypes.id lidstone_dist <$> l)).
Proof.
  induction l as [|[c f] l IH]; [done|].
  simpl. rewrite IH. unfold ConditionalProbDist.init_step. simpl.
  by rewrite lidstone_est_Ok.
Qed.

Lemma cpd_init_Ok (cfd : gmap string (gmap string nat)) :
  ConditionalProbDist.init cfd = Ok (lidstone_dist <$> cfd).
Proof.
  unfold ConditionalProbDist.init. rewrite cpd_init_fold. f_equal.
  by rewrite list_to_map_fmap, list_to_map_to_list.
Qed.

(** A lookup in a trained conditional distribution always succeeds: an
    observed condition yields the smoothed counts recorded for it, any other
    one the smoothed empty frequency distribution. *)
Lemma cpd_getitem_trained (data : list (string * string)) (c : string) :
  ConditionalProbDist.getitem (lidstone_dist <$> ConditionalFreqDist.init data) c
  = Ok (lidstone_dist (fd_of (samples_of c data))).
Proof.
  unfold ConditionalProbDist.getitem. rewrite lookup_fmap, cfd_lookup.
  destruct (decide (c ∈ data.*1)) as [Hin|Hnin]; simpl; [done|].
  by rewrite lidstone_est_Ok, samples_of_nil.
Qed.

(** ** Training *)

Lemma train_Ok (self : HMM) :
  train self
  = Ok {| train_data := train_data self; test_data := test_data self;
          emission_PD := Some (lidstone_dist <$> emission_FD (train_data self));
          transition_PD := Some (lidstone_dist <$> transition_FD (train_data self));
          states := unique_list (snd <$> concat (train_data self));
          viterbi := viterbi self; backpointer := backpointer self |}.
Proof.
  unfold train, emission_model, transition_model.
  rewrite cpd_init_Ok. simpl. by rewrite cpd_init_Ok.
Qed.

Lemma trained_emission (self : HMM) (m : HMM) (c : string) :
  train self = Ok m →
  pd_getitem (emission_PD m) c
  = Ok (lidstone_dist (fd_of (samples_of c (emission_data (train_data self))))).
Proof.
  rewrite train_Ok. intros [= <-]. simpl. apply cpd_getitem_trained.
Qed.

Lemma trained_transition (self : HMM) (m : HMM) (c : string) :
  train self = Ok m →
  pd_getitem (transition_PD m) c
  = Ok (lidstone_dist (fd_of (samples_of c (transition_data (train_data self))))).
Proof.
  rewrite train_Ok. intros [= <-]. simpl. apply cpd_getitem_trained.
Qed.

Lemma emission_data_conditions (corpus : list (list (string * string))) :
  (emission_data corpus).*1 = (concat corpus).*2.
Proof. unfold emission_data. by rewrite <- list_fmap_compose. Qed.

Lemma elprob_unseen (self m : HMM) (state word : string) :
  train self = Ok m →
  state ∉ (concat (train_data self)).*2 →
  elprob m state word = Ok 0%R.
Proof.
  intros Hm Hstate. unfold elprob.
  rewrite (trained_emission _ _ state Hm). simpl.
  rewrite samples_of_nil by (by rewrite emission_data_conditions).
  rewrite prob_unseen_condition, math_log_Ok by lra. by rewrite log2_one.
Qed.

Lemma trained_estimated (self m : HMM) : train self = Ok m → estimated m.
Proof.
  intros Hm. split.
  - intros a b. unfold tl, tlprob.
    rewrite (trained_transition _ _ a Hm). simpl.
    by rewrite math_log_Ok by apply prob_lidstone_pos.
  - intros s w. unfold el, elprob.
    rewrite (trained_emission _ _ s Hm). simpl.
    by rewrite math_log_Ok by apply prob_lidstone_pos.
Qed.

Lemma trained_calibrated (self m : HMM) : train self = Ok m → calibrated m.
Proof.
  intros Hm. split.
  - intros a b. unfold tprob, prob_of, tlprob.
    rewrite (trained_transition _ _ a Hm). simpl.
    split; [split; [apply prob_lidstone_pos | apply prob_lidstone_le_1]|].
    by rewrite math_log_Ok by apply prob_lidstone_pos.
  - intros s w. unfold eprob, prob_of, elprob.
    rewrite (trained_emission _ _ s Hm). simpl.
    split; [split; [apply prob_lidstone_pos | apply prob_lidstone_le_1]|].
    by rewrite math_log_Ok by apply prob_lidstone_pos.
Qed.

Lemma calibrated_tl (m : HMM) (a b : string) :
  calibrated m → tl m a b = (ln (tprob m a b) / ln 2)%R.
Proof. intros [Ht _]. unfold tl. destruct (Ht a b) as [_ ->]. done. Qed.

Lemma calibrated_el (m : HMM) (s w : string) :
  calibrated m → el m s w = (ln (eprob m s w) / ln 2)%R.
Proof. intros [_ He]. unfold el. destruct (He s w) as [_ ->]. done. Qed.

Lemma trained_states (self m : HMM) :
  train self = Ok m → states m = unique_list (concat (train_data self)).*2.
Proof. rewrite train_Ok. by intros [= <-]. Qed.

Lemma trained_states_NoDup (self m : HMM) : train self = Ok m → NoDup (states m).
Proof. intros Hm. rewrite (trained_states _ _ Hm). apply unique_list_NoDup. Qed.

Lemma trained_states_nonempty (self m : HMM) :
  train self = Ok m → concat (train_data self) ≠ [] → states m ≠ [].
Proof.
  intros Hm Hne. rewrite (trained_states _ _ Hm).
  destruct (concat (train_data self)) as [|[x t] l]; [done|].
  intros Hnil. assert (Ht : t ∈ unique_list ((x, t) :: l).*2).
  { apply elem_of_unique_list. apply list_elem_of_here. }
  rewrite Hnil in Ht. by apply not_elem_of_nil in Ht.
Qed.

Lemma train_total (corpus test : list (list (string * string))) :
  ∃ m, train (HMM_init corpus test) = Ok m ∧
       estimated m ∧ NoDup (states m) ∧
       (concat corpus ≠ [] → states m ≠ []).
Proof.
  destruct (train (HMM_init corpus test)) as [m|e] eqn:Hm;
    [|by rewrite train_Ok in Hm].
  exists m. split; [done|]. split; [by eapply trained_estimated|].
  split; [by eapply trained_states_NoDup|].
  intros Hne. by apply (trained_states_nonempty _ _ Hm).
Qed.

(** ** The tag list of the transition model *)

Lemma tags_words_fold (acc : list (string * string))
    (train : list (list (string * string))) :
  (foldl tags_words_step acc train).*1
  = acc.*1 ++ concat (sentence_tags <$> train).
Proof.
  revert acc. induction train as [|s train IH]; intros acc; simpl.
  { by rewrite app_nil_r. }
  rewrite IH.
  assert (Hstep : (tags_words_step acc s).*1 = acc.*1 ++ sentence_tags s).
  { unfold tags_words_step, sentence_tags.
    rewrite !fmap_app, <- list_fmap_compose. simpl.
    by rewrite <- (app_assoc (acc.*1)). }
  rewrite Hstep. by rewrite <- (app_assoc (acc.*1)).
Qed.

Lemma tags_of_train (train : list (list (string * string))) :
  (tags_words_of train).*1 = concat (sentence_tags <$> train).
Proof. exact (tags_words_fold [] train). Qed.

Lemma sentence_tags_snoc (s : list (string * string)) :
  sentence_tags s = ("<s>" :: s.*2) ++ ["</s>"].
Proof. done. Qed.

Lemma concat_sentence_tags_cons (s : list (string * string))
    (train : list (list (string * string))) :
  ∃ r, concat (sentence_tags <$> (s :: train)) = "<s>" :: r.
Proof. by eexists. Qed.

(** The bigrams of the running tag list are the bigrams inside each sentence
    plus one pair ([</s>], [<s>]) between any two consecutive sentences. *)
Lemma count_transition_data (a b : string) (train : list (list (string * string))) :
  count (a, b) (transition_data train)
  = count (a, b) (sentence_bigrams train)
    + (if decide ((a, b) = ("</s>", "<s>")) then length train - 1 else 0).
Proof.
  unfold transition_data, sentence_bigrams. rewrite tags_of_train.
  induction train as [|s train IH].
  { simpl. by destruct (decide _). }
  rewrite !fmap_cons, !concat_cons, count_app.
  destruct train as [|s' train].
  { simpl concat. rewrite !app_nil_r. simpl. destruct (decide _); lia. }
  destruct (concat_sentence_tags_cons s' train) as [r Hr].
  rewrite Hr in *.
  rewrite sentence_tags_snoc at 1. rewrite <- app_assoc.
  change (["</s>"] ++ "<s>" :: r) with ("</s>" :: "<s>" :: r).
  rewrite bigrams_snoc_cons, count_app, <- sentence_tags_snoc.
  rewrite (count_cons (a, b)), IH. simpl length.
  destruct (decide ((a, b) = ("</s>", "<s>"))); lia.
Qed.

(** ** Tables and accessors *)

Lemma tlprob_inv (m : HMM) (a b : string) (x : R) :
  tlprob m a b = Ok x →
  ∃ d, pd_getitem (transition_PD m) a = Ok d ∧ math_log (Lidstone.prob d b) 2 = Ok x.
Proof. apply bind_Ok_inv. Qed.

Lemma elprob_inv (m : HMM) (s w : string) (x : R) :
  elprob m s w = Ok x →
  ∃ d, pd_getitem (emission_PD m) s = Ok d ∧ math_log (Lidstone.prob d w) 2 = Ok x.
Proof. apply bind_Ok_inv. Qed.

Lemma get_viterbi_value_tables (m : HMM) (dv : gmap string (list R))
    (db : gmap string (list string)) (s : string) (l : list R) (i : Z) :
  dv !! s = Some l →
  get_viterbi_value (set_tables m (Dict dv) (Dict db)) s i = list_getitem l i.
Proof. intros Hs. unfold get_viterbi_value. simpl. unfold dict_getitem. by rewrite Hs. Qed.

Lemma get_backpointer_value_tables (m : HMM) (dv : gmap string (list R))
    (db : gmap string (list string)) (s : string) (l : list string) (i : Z) :
  db !! s = Some l →
  get_backpointer_value (set_tables m (Dict dv) (Dict db)) s i = list_getitem l i.
Proof.
  intros Hs. unfold get_backpointer_value. simpl. unfold dict_getitem. by rewrite Hs.
Qed.

Lemma table_append_Dict {A : Type} (d : gmap string (list A)) (s : string)
    (l : list A) (x : A) :
  d !! s = Some l → table_append (Dict d) s x = Ok (Dict (<[s := l ++ [x]]> d)).
Proof. intros Hs. unfold table_append. simpl. unfold dict_getitem. by rewrite Hs. Qed.

Lemma Vcol_lookup (m : HMM) (w : string) (obs : list string) (T t : nat) (s : string) :
  t ≤ T → Vcol m w obs T s !! t = Some (V m w obs t s).
Proof.
  intros Ht. unfold Vcol. rewrite list_lookup_fmap, lookup_seq_lt by lia. done.
Qed.

Lemma Bcol_lookup (m : HMM) (w : string) (obs : list string) (T t : nat) (s : string) :
  t ≤ T → Bcol m w obs T s !! t = Some (BP m w obs t s).
Proof.
  intros Ht. unfold Bcol. rewrite list_lookup_fmap, lookup_seq_lt by lia. done.
Qed.

Lemma Vcol_S (m : HMM) (w : string) (obs : list string) (T : nat) (s : string) :
  Vcol m w obs (S T) s = Vcol m w obs T s ++ [V m w obs (S T) s].
Proof. unfold Vcol. by rewrite (seq_S (S T)), fmap_app. Qed.

Lemma Bcol_S (m : HMM) (w : string) (obs : list string) (T : nat) (s : string) :
  Bcol m w obs (S T) s = Bcol m w obs T s ++ [BP m w obs (S T) s].
Proof. unfold Bcol. by rewrite (seq_S (S T)), fmap_app. Qed.

Lemma Vcol_lookup_inv (m : HMM) (w : string) (obs : list string) (T k : nat)
    (s : string) (x : R) :
  Vcol m w obs T s !! k = Some x → k ≤ T ∧ x = V m w obs k s.
Proof.
  intros Hk. pose proof (lookup_lt_Some _ _ _ Hk) as Hlt.
  unfold Vcol in Hlt. rewrite length_fmap, length_seq in Hlt.
  rewrite Vcol_lookup in Hk by lia. injection Hk as <-. split; [lia|done].
Qed.

(** ** [initialise] *)

Lemma initialise_state_Ok (m : HMM) (w : string) (dv : gmap string (list R))
    (db : gmap string (list string)) (s : string) :
  estimated m →
  initialise_state w (set_tables m (Dict dv) (Dict db)) s
  = Ok (set_tables m (Dict (<[s := [V m w [] 0 s]]> dv))
                     (Dict (<[s := ["<s>"]]> db))).
Proof.
  intros [Htl Hel]. unfold initialise_state. simpl.
  destruct (tlprob_inv _ _ _ _ (Htl "<s>" s)) as (dt & Hdt & Hlt).
  destruct (elprob_inv _ _ _ _ (Hel s w)) as (de & Hde & Hle).
  rewrite Hdt. simpl. rewrite Hlt. simpl. rewrite Hde. simpl. rewrite Hle. simpl.
  rewrite (table_append_Dict _ _ []) by apply lookup_insert_eq. simpl.
  rewrite (table_append_Dict _ _ []) by apply lookup_insert_eq. simpl.
  by rewrite !insert_insert_eq.
Qed.

Lemma initialise_loop (m : HMM) (w : string) (l : list string)
    (dv : gmap string (list R)) (db : gmap string (list string)) :
  estimated m →
  ∃ dv' db',
    for_in l (initialise_state w) (set_tables m (Dict dv) (Dict db))
    = Ok (set_tables m (Dict dv') (Dict db')) ∧
    ∀ s, dv' !! s = (if decide (s ∈ l) then Some [V m w [] 0 s] else dv !! s) ∧
         db' !! s = (if decide (s ∈ l) then Some ["<s>"] else db !! s).
Proof.
  intros Hm. revert dv db. induction l as [|x l IH]; intros dv db.
  { exists dv, db. split; [done|]. intros s.
    by rewrite decide_False by apply not_elem_of_nil. }
  simpl. rewrite initialise_state_Ok by done. simpl.
  destruct (IH (<[x := [V m w [] 0 x]]> dv) (<[x := ["<s>"]]> db))
    as (dv' & db' & Hrun & Hlook).
  exists dv', db'. split; [done|]. intros s.
  destruct (Hlook s) as [Hv Hb]. rewrite Hv, Hb.
  destruct (decide (s ∈ l)) as [Hin|Hnin].
  { destruct (decide (s ∈ x :: l)) as [?|Hn]; [done|].
    destruct Hn. by apply list_elem_of_further. }
  destruct (decide (s = x)) as [->|Hne].
  - destruct (decide (x ∈ x :: l)) as [?|Hn].
    + by rewrite !lookup_insert_eq.
    + destruct Hn. apply list_elem_of_here.
  - destruct (decide (s ∈ x :: l)) as [[?|?]%elem_of_cons|?]; [done..|].
    by rewrite !lookup_insert_ne.
Qed.

(** After [initialise] the tables hold exactly one row per tag of [states]:
    the start cost and the backpointer [<s>]. *)
Lemma initialise_Ok (m : HMM) (w : string) :
  estimated m →
  ∃ dv db,
    initialise m w = Ok (set_tables m (Dict dv) (Dict db)) ∧
    ∀ s, dv !! s = (if decide (s ∈ states m) then Some [V m w [] 0 s] else None) ∧
         db !! s = (if decide (s ∈ states m) then Some ["<s>"] else None).
Proof.
  intros Hm. unfold initialise.
  destruct (initialise_loop m w (states m) ∅ ∅ Hm) as (dv & db & Hrun & Hlook).
  exists dv, db. split; [exact Hrun|]. intros s.
  destruct (Hlook s) as [Hv Hb]. by rewrite Hv, Hb, !lookup_empty.
Qed.

Lemma initialise_trellis (m : HMM) (w : string) (obs : list string) :
  estimated m →
  ∃ self, initialise m w = Ok self ∧ trellis m w obs 0 self.
Proof.
  intros Hm. destruct (initialise_Ok m w Hm) as (dv & db & Hrun & Hlook).
  eexists. split; [exact Hrun|]. exists dv, db. split; [done|].
  split; intros s Hs; destruct (Hlook s) as [Hv Hb].
  - by rewrite Hv, Hb, !decide_True.
  - by rewrite Hv, Hb, !decide_False.
Qed.

Lemma initialise_states (m : HMM) (w : string) (self0 : HMM) :
  estimated m → initialise m w = Ok self0 → states self0 = states m.
Proof.
  intros Hm Hinit. destruct (initialise_Ok m w Hm) as (dv & db & Hrun & _).
  rewrite Hrun in Hinit. by injection Hinit as <-.
Qed.

(** ** The decoding loop *)

Lemma states_fmap_nonempty {A : Type} (f : string → A) (l : list string) :
  l ≠ [] → f <$> l ≠ [].
Proof. by destruct l. Qed.

(** The chosen predecessor is a tag of [states] and attains the stored cost. *)
Lemma best_prev_in (m : HMM) (prev : string → R) (o s : string) :
  states m ≠ [] →
  (best_prev m prev o s).2 ∈ states m ∧
  best_prev m prev o s = cand m prev o s (best_prev m prev o s).2.
Proof.
  intros Hne. unfold best_prev.
  pose proof (first_min_in (0%R, "") (cand m prev o s <$> states m)
                (states_fmap_nonempty _ _ Hne)) as Hin.
  apply list_elem_of_fmap in Hin as (p & Hp & Hin). rewrite Hp. done.
Qed.

Lemma BP_in_states (m : HMM) (w : string) (obs : list string) (t : nat) (s : string) :
  states m ≠ [] → BP m w obs (S t) s ∈ states m.
Proof. intros Hne. simpl. by apply best_prev_in. Qed.

Lemma best_last_in (m : HMM) (w : string) (obs : list string) (T : nat) :
  states m ≠ [] → best_last m w obs T ∈ states m.
Proof.
  intros Hne. unfold best_last.
  pose proof (first_min_in (0%R, "") (final m w obs T <$> states m)
                (states_fmap_nonempty _ _ Hne)) as Hin.
  apply list_elem_of_fmap in Hin as (p & Hp & Hin). by rewrite Hp.
Qed.

Lemma best_last_final (m : HMM) (w : string) (obs : list string) (T : nat) :
  states m ≠ [] →
  first_min (0%R, "") (final m w obs T <$> states m)
  = final m w obs T (best_last m w obs T).
Proof.
  intros Hne. unfold best_last.
  pose proof (first_min_in (0%R, "") (final m w obs T <$> states m)
                (states_fmap_nonempty _ _ Hne)) as Hin.
  apply list_elem_of_fmap in Hin as (p & Hp & Hin). by rewrite Hp.
Qed.

Lemma back_length (m : HMM) (w : string) (obs : list string) (T : nat) (s : string) :
  length (back m w obs T s) = S T.
Proof. revert s. induction T as [|T IH]; intros s; simpl; [done | by rewrite IH]. Qed.

Lemma back_head (m : HMM) (w : string) (obs : list string) (T : nat) (s : string) :
  head (back m w obs T s) = Some s.
Proof. by destruct T. Qed.

Lemma back_in_states (m : HMM) (w : string) (obs : list string) (T : nat) (s : string) :
  states m ≠ [] → s ∈ states m → Forall (λ p, p ∈ states m) (back m w obs T s).
Proof.
  intros Hne. revert s. induction T as [|T IH]; intros s Hs; simpl.
  - by apply Forall_singleton.
  - constructor; [done|]. apply IH. by apply BP_in_states.
Qed.

Lemma reverse_back_length (m : HMM) (w : string) (obs : list string) (T : nat)
    (s : string) :
  length (reverse (back m w obs T s)) = S T.
Proof. by rewrite length_reverse, back_length. Qed.

Lemma reverse_back_in_states (m : HMM) (w : string) (obs : list string) (T : nat)
    (s : string) :
  states m ≠ [] → s ∈ states m →
  Forall (λ p, p ∈ states m) (reverse (back m w obs T s)).
Proof.
  intros Hne Hs. apply Forall_reverse. by apply back_in_states.
Qed.

Section Decoding.

(** A model whose accessors always answer, a first word [w] given to
    [initialise] and a sentence [obs] given to [tag]. *)
Variable m : HMM.
Hypothesis Hest : estimated m.
Hypothesis Hnd : NoDup (states m).
Hypothesis Hne : states m ≠ [].
Variables (w : string) (obs : list string).

Lemma candidate_Ok (dv : gmap string (list R)) (db : gmap string (list string))
    (T : nat) (s p o : string) (l : list R) :
  dv !! p = Some l →
  l !! T = Some (V m w obs T p) →
  obs !! S T = Some o →
  candidate (set_tables m (Dict dv) (Dict db)) obs (Z.of_nat (S T)) s p
  = Ok (cand m (V m w obs T) o s p).
Proof using Hest.
  destruct Hest as [Htl Hel]. intros Hp Hl Ho. unfold candidate.
  replace (Z.of_nat (S T) - 1)%Z with (Z.of_nat T) by lia.
  rewrite (get_viterbi_value_tables _ _ _ _ l) by done.
  rewrite (list_getitem_nat _ _ _ Hl). simpl.
  destruct (tlprob_inv _ _ _ _ (Htl p s)) as (dt & Hdt & Hlt).
  destruct (elprob_inv _ _ _ _ (Hel s o)) as (de & Hde & Hle).
  rewrite Hdt. simpl. rewrite Hlt. simpl. rewrite Hde. simpl.
  rewrite (list_getitem_nat _ _ _ Ho). simpl. rewrite Hle. done.
Qed.

Lemma tag_state_Ok (dv : gmap string (list R)) (db : gmap string (list string))
    (T : nat) (s : string) :
  S T < length obs →
  s ∈ states m →
  (∀ p, p ∈ states m → ∃ l, dv !! p = Some l ∧ l !! T = Some (V m w obs T p)) →
  dv !! s = Some (Vcol m w obs T s) →
  db !! s = Some (Bcol m w obs T s) →
  tag_state obs (Z.of_nat (S T)) (set_tables m (Dict dv) (Dict db)) s
  = Ok (set_tables m (Dict (<[s := Vcol m w obs (S T) s]> dv))
                     (Dict (<[s := Bcol m w obs (S T) s]> db))).
Proof using Hest.
  intros HT Hs Hread Hv Hb. unfold tag_state.
  destruct (lookup_lt_is_Some_2 obs (S T) HT) as [o Ho].
  assert (Hobs : obs_at obs (S T) = o) by (unfold obs_at; by rewrite Ho).
  rewrite (comprehension_Ok _ (cand m (V m w obs T) o s)); last first.
  { intros p Hp. destruct (Hread p Hp) as (l & Hl & HlT).
    by apply (candidate_Ok dv db T s p o l). }
  simpl.
  rewrite (min_key_first_min (0%R, "")); last first.
  { apply states_fmap_nonempty. intros Hnil. rewrite Hnil in Hs.
    by apply not_elem_of_nil in Hs. }
  simpl. rewrite (table_append_Dict _ _ _ _ Hv). simpl.
  rewrite (table_append_Dict _ _ _ _ Hb). simpl.
  rewrite Vcol_S, Bcol_S. simpl. unfold best_prev. by rewrite Hobs.
Qed.

(** The inner loop, with the tags [done] already advanced to step [S T] and
    the tags [todo] still at step [T]. *)
Lemma tag_step_loop (T : nat) (todo done : list string)
    (dv : gmap string (list R)) (db : gmap string (list string)) :
  S T < length obs →
  states m = done ++ todo →
  (∀ s, s ∈ done →
     dv !! s = Some (Vcol m w obs (S T) s) ∧ db !! s = Some (Bcol m w obs (S T) s)) →
  (∀ s, s ∈ todo →
     dv !! s = Some (Vcol m w obs T s) ∧ db !! s = Some (Bcol m w obs T s)) →
  (∀ s, s ∉ states m → dv !! s = None ∧ db !! s = None) →
  ∃ dv' db',
    for_in todo (tag_state obs (Z.of_nat (S T))) (set_tables m (Dict dv) (Dict db))
    = Ok (set_tables m (Dict dv') (Dict db')) ∧
    (∀ s, s ∈ states m →
       dv' !! s = Some (Vcol m w obs (S T) s) ∧ db' !! s = Some (Bcol m w obs (S T) s)) ∧
    (∀ s, s ∉ states m → dv' !! s = None ∧ db' !! s = None).
Proof using Hest Hnd.
  intros HT. revert done dv db.
  induction todo as [|x todo IH]; intros done dv db Hst Hdone Htodo Hout.
  { exists dv, db. split; [done|]. split; [|done]. intros s Hs. apply Hdone.
    by rewrite Hst, app_nil_r in Hs. }
  assert (Hx : x ∈ states m).
  { rewrite Hst. apply elem_of_app. right. apply list_elem_of_here. }
  pose proof Hnd as Hnd'.
  rewrite Hst in Hnd'. apply NoDup_app in Hnd' as (Hnd1 & Hnd2 & Hnd3).
  apply NoDup_cons in Hnd3 as [Hx3 Hnd3].
  destruct (Htodo x) as [Hxv Hxb]; [apply list_elem_of_here|].
  simpl. rewrite (tag_state_Ok dv db T x HT Hx); [|  |done|done].
  2:{ intros p Hp. rewrite Hst in Hp. apply elem_of_app in Hp as [Hp|Hp].
      - destruct (Hdone p Hp) as [Hpv _]. eexists. split; [exact Hpv|].
        apply Vcol_lookup. lia.
      - destruct (Htodo p Hp) as [Hpv _]. eexists. split; [exact Hpv|].
        by apply Vcol_lookup. }
  simpl. apply (IH (done ++ [x])).
  - by rewrite <- app_assoc.
  - intros s [Hs|Hs]%elem_of_app.
    + assert (s ≠ x).
      { intros ->. apply (Hnd2 x Hs). apply list_elem_of_here. }
      rewrite !lookup_insert_ne by done. by apply Hdone.
    + apply list_elem_of_singleton in Hs as ->. by rewrite !lookup_insert_eq.
  - intros s Hs.
    assert (s ≠ x) by (by intros ->).
    rewrite !lookup_insert_ne by done. apply Htodo. by apply list_elem_of_further.
  - intros s Hs.
    assert (s ≠ x) by (by intros ->).
    rewrite !lookup_insert_ne by done. by apply Hout.
Qed.

Lemma tag_step_trellis (T : nat) (self : HMM) :
  S T < length obs →
  trellis m w obs T self →
  ∃ self', tag_step obs self (Z.of_nat (S T)) = Ok self' ∧
           trellis m w obs (S T) self'.
Proof using Hest Hnd.
  intros HT (dv & db & -> & Hlook & Hout). unfold tag_step. simpl.
  destruct (tag_step_loop T (states m) [] dv db HT)
    as (dv' & db' & Hrun & Hlook'); [done| |done|done|].
  { intros s Hs. by apply not_elem_of_nil in Hs. }
  eexists. split; [exact Hrun|]. by exists dv', db'.
Qed.

(** The outer loop over [k] further steps. *)
Lemma tag_steps_trellis (k T : nat) (self : HMM) :
  T + k < length obs →
  trellis m w obs T self →
  ∃ self', for_in (Z.of_nat <$> seq (S T) k) (tag_step obs) self = Ok self' ∧
           trellis m w obs (T + k) self'.
Proof using Hest Hnd.
  revert T self. induction k as [|k IH]; intros T self HT Htr.
  { exists self. split; [done|]. by rewrite Nat.add_0_r. }
  simpl. destruct (tag_step_trellis T self) as (self1 & Hrun & Htr1); [lia|done|].
  rewrite Hrun. simpl.
  destruct (IH (S T) self1) as (self' & Hrun' & Htr'); [lia|done|].
  exists self'. split; [done|]. by replace (T + S k) with (S T + k) by lia.
Qed.

Lemma final_candidate_Ok (dv : gmap string (list R)) (db : gmap string (list string))
    (T : nat) (s : string) :
  dv !! s = Some (Vcol m w obs T s) →
  list_getitem (Vcol m w obs T s) (Z.of_nat (length obs) - 1) = Ok (V m w obs T s) →
  final_candidate (set_tables m (Dict dv) (Dict db)) obs s = Ok (final m w obs T s).
Proof using Hest.
  destruct Hest as [Htl Hel]. intros Hv Hget. unfold final_candidate.
  destruct (tlprob_inv _ _ _ _ (Htl s "</s>")) as (dt & Hdt & Hlt).
  simpl. rewrite Hdt. simpl. rewrite Hlt. simpl.
  rewrite (get_viterbi_value_tables _ _ _ _ _ _ Hv), Hget. done.
Qed.

Lemma backtrace_step_Ok (dv : gmap string (list R)) (db : gmap string (list string))
    (T k : nat) (acc : list string) (s : string) :
  db !! s = Some (Bcol m w obs T s) →
  length obs = S T →
  length acc + S k = T →
  backtrace_step (set_tables m (Dict dv) (Dict db)) obs (acc ++ [s])
                 (Z.of_nat (S k) - Z.of_nat 0)
  = Ok ((acc ++ [s]) ++ [BP m w obs (S k) s]).
Proof using Type.
  intros Hdb Hlen Hk. unfold backtrace_step.
  replace (Z.of_nat (length obs) - 1 - (Z.of_nat (S k) - Z.of_nat 0))%Z
    with (Z.of_nat (length acc)) by lia.
  replace (Z.of_nat (S k) - Z.of_nat 0)%Z with (Z.of_nat (S k)) by lia.
  rewrite (list_getitem_nat _ _ s) by (by apply list_lookup_middle).
  rewrite bind_Ok.
  rewrite (get_backpointer_value_tables _ _ _ _ _ _ Hdb).
  rewrite (list_getitem_nat _ _ (BP m w obs (S k) s))
    by (apply Bcol_lookup; lia).
  done.
Qed.

(** The reconstruction loop from step [k] down to step 1, with the tags of
    the later steps already collected in [acc]. *)
Lemma backtrace_loop (dv : gmap string (list R)) (db : gmap string (list string))
    (T k : nat) (acc : list string) (s : string) :
  (∀ s, s ∈ states m → db !! s = Some (Bcol m w obs T s)) →
  length obs = S T →
  length acc + k = T →
  s ∈ states m →
  for_in ((λ i : nat, (Z.of_nat k - Z.of_nat i)%Z) <$> seq 0 k)
         (backtrace_step (set_tables m (Dict dv) (Dict db)) obs) (acc ++ [s])
  = Ok (acc ++ back m w obs k s).
Proof using Hne.
  intros Hdb Hlen. revert acc s.
  induction k as [|k IH]; intros acc s Hk Hs; [done|].
  simpl seq. rewrite fmap_cons. simpl for_in.
  rewrite (backtrace_step_Ok dv db T k acc s (Hdb s Hs) Hlen Hk). simpl.
  rewrite <- fmap_S_seq, <- list_fmap_compose.
  erewrite (list_fmap_ext _ (λ i : nat, (Z.of_nat k - Z.of_nat i)%Z)); last first.
  { intros i x _. simpl. lia. }
  rewrite (IH (acc ++ [s])).
  - by rewrite <- app_assoc.
  - rewrite length_app. simpl. lia.
  - by apply BP_in_states.
Qed.

(** [tag] on an initialised object and a sentence of at least one word:
    the trellis is completed and the walk from the best last tag returned. *)
Lemma tag_Ok (self : HMM) (T : nat) :
  length obs = S T →
  trellis m w obs 0 self →
  ∃ self',
    tag self obs
    = Ok (self', reverse (back m w obs T (best_last m w obs T))) ∧
    trellis m w obs T self'.
Proof using Hest Hnd Hne.
  intros Hlen Htr. unfold tag.
  rewrite range_from_1, Hlen. simpl Nat.sub. rewrite Nat.sub_0_r.
  destruct (tag_steps_trellis T 0 self) as (self' & Hrun & Htr'); [lia|done|].
  rewrite Hrun. simpl. destruct Htr' as (dv & db & -> & Hlook & Hout).
  exists (set_tables m (Dict dv) (Dict db)). split; [|by exists dv, db].
  simpl states.
  rewrite (comprehension_Ok _ (final m w obs T)); last first.
  { intros s Hs. destruct (Hlook s Hs) as [Hv _].
    apply final_candidate_Ok; [done|]. rewrite Hlen.
    replace (Z.of_nat (S T) - 1)%Z with (Z.of_nat T) by lia.
    apply list_getitem_nat, Vcol_lookup. lia. }
  simpl.
  rewrite (min_key_first_min (0%R, "")) by (by apply states_fmap_nonempty).
  simpl.
  replace (Z.of_nat (S T) - 1)%Z with (Z.of_nat T) by lia.
  rewrite range_down_to_0.
  assert (Hdb : ∀ s, s ∈ states m → db !! s = Some (Bcol m w obs T s)).
  { intros s Hs. by destruct (Hlook s Hs). }
  pose proof (backtrace_loop dv db T T [] (best_last m w obs T)
                Hdb Hlen eq_refl (best_last_in m w obs T Hne)) as Hbt.
  simpl app in Hbt.
  change (first_min (0%R, "") (final m w obs T <$> states m)).2
    with (best_last m w obs T).
  rewrite Hbt. done.
Qed.

End Decoding.

(** [tag] on an initialised object and the empty sentence: index [-1] reads
    the step-0 row, so the termination step still selects a tag. *)
Lemma tag_empty_Ok (m : HMM) (w : string) (self : HMM) :
  estimated m →
  states m ≠ [] →
  trellis m w [] 0 self →
  tag self [] = Ok (self, [best_last m w [] 0]).
Proof.
  intros Hm Hne (dv & db & -> & Hlook & Hout). unfold tag. simpl.
  rewrite (comprehension_Ok _ (final m w [] 0)); last first.
  { intros s Hs. destruct (Hlook s Hs) as [Hv _].
    by apply (final_candidate_Ok m Hm w []). }
  simpl.
  rewrite (min_key_first_min (0%R, "")) by (by apply states_fmap_nonempty).
  done.
Qed.

(** A one-word sentence runs no step of the loop either. *)
Lemma tag_one_word_Ok (m : HMM) (w o : string) (self : HMM) :
  estimated m →
  states m ≠ [] →
  trellis m w [] 0 self →
  tag self [o] = Ok (self, [best_last m w [] 0]).
Proof.
  intros Hm Hne (dv & db & -> & Hlook & Hout). unfold tag. simpl.
  rewrite (comprehension_Ok _ (final m w [] 0)); last first.
  { intros s Hs. destruct (Hlook s Hs) as [Hv _].
    unfold final_candidate. destruct Hm as [Htl _].
    destruct (tlprob_inv _ _ _ _ (Htl s "</s>")) as (dt & Hdt & Hlt).
    simpl. rewrite Hdt. simpl. rewrite Hlt. simpl.
    by rewrite (get_viterbi_value_tables _ _ _ _ _ _ Hv). }
  simpl.
  rewrite (min_key_first_min (0%R, "")) by (by apply states_fmap_nonempty).
  done.
Qed.

(** Without tags the termination step has nothing to choose from. *)
Lemma tag_no_states (self : HMM) (obs : list string) :
  states self = [] → tag self obs = Raise ValueError.
Proof.
  intros Hst. unfold tag.
  assert (Hstep : ∀ t, tag_step obs self t = Ok self).
  { intros t. unfold tag_step. by rewrite Hst. }
  assert (Hloop : ∀ l, for_in l (tag_step obs) self = Ok self).
  { induction l as [|t l IH]; [done|]. simpl. rewrite Hstep. exact IH. }
  rewrite Hloop. simpl. by rewrite Hst.
Qed.

Lemma trellis_accessors (m : HMM) (w : string) (obs : list string) (T t : nat)
    (self : HMM) (s : string) :
  trellis m w obs T self → t ≤ T → s ∈ states m →
  get_viterbi_value self s (Z.of_nat t) = Ok (V m w obs t s) ∧
  get_backpointer_value self s (Z.of_nat t) = Ok (BP m w obs t s).
Proof.
  intros (dv & db & -> & Hlook & Hout) Ht Hs. destruct (Hlook s Hs) as [Hv Hb]. split.
  - rewrite (get_viterbi_value_tables _ _ _ _ _ _ Hv).
    by apply list_getitem_nat, Vcol_lookup.
  - rewrite (get_backpointer_value_tables _ _ _ _ _ _ Hb).
    by apply list_getitem_nat, Bcol_lookup.
Qed.

Lemma trellis_step_cost (m : HMM) (w : string) (obs : list string) (T t : nat)
    (self : HMM) (o s p : string) :
  estimated m → trellis m w obs T self → t ≤ T → p ∈ states m →
  step_cost self o (S t) s p (cand m (V m w obs t) o s p).1.
Proof.
  intros [Htl Hel] Htr Ht Hp.
  destruct (trellis_accessors m w obs T t self p Htr Ht Hp) as [Hv _].
  destruct Htr as (dv & db & -> & Hlook & Hout).
  exists (V m w obs t p), (tl m p s), (el m s o).
  replace (Z.of_nat (S t) - 1)%Z with (Z.of_nat t) by lia.
  split; [done|]. split; [apply Htl|]. split; [apply Hel|done].
Qed.

Lemma trellis_lookup_inv (m : HMM) (w : string) (obs : list string) (T : nat)
    (self : HMM) (s : string) (step : Z) (x : R) :
  trellis m w obs T self →
  get_viterbi_value self s step = Ok x →
  s ∈ states m ∧ ∃ t, t ≤ T ∧ x = V m w obs t s.
Proof.
  intros (dv & db & -> & Hlook & Hout) Hget.
  destruct (decide (s ∈ states m)) as [Hs|Hs].
  - split; [done|]. destruct (Hlook s Hs) as [Hv _].
    rewrite (get_viterbi_value_tables _ _ _ _ _ _ Hv) in Hget.
    apply list_getitem_inv in Hget as [k Hk].
    exists k. by apply Vcol_lookup_inv in Hk.
  - destruct (Hout s Hs) as [Hv _].
    unfold get_viterbi_value in Hget. simpl in Hget.
    unfold dict_getitem in Hget. by rewrite Hv in Hget.
Qed.

(** ** The first observation is not read *)

Lemma candidate_cons_tail (self : HMM) (o1 o2 : string) (rest : list string)
    (t : Z) (s state : string) :
  (1 <= t)%Z →
  candidate self (o1 :: rest) t s state = candidate self (o2 :: rest) t s state.
Proof.
  intros Ht. unfold candidate.
  by rewrite (list_getitem_cons_tail o1 o2 rest t Ht).
Qed.

Lemma tag_state_cons_tail (self : HMM) (o1 o2 : string) (rest : list string)
    (t : Z) (s : string) :
  (1 <= t)%Z →
  tag_state (o1 :: rest) t self s = tag_state (o2 :: rest) t self s.
Proof.
  intros Ht. unfold tag_state.
  rewrite (comprehension_ext _ (candidate self (o2 :: rest) t s)); [done|].
  intros state. by apply candidate_cons_tail.
Qed.

Lemma tag_cons_tail (self : HMM) (o1 o2 : string) (rest : list string) :
  tag self (o1 :: rest) = tag self (o2 :: rest).
Proof.
  unfold tag. simpl length.
  rewrite (for_in_ext _ (tag_step (o2 :: rest))); [done|].
  intros self' t Ht%elem_of_range. unfold tag_step.
  apply for_in_ext. intros self'' s _. by apply tag_state_cons_tail.
Qed.

(** The objects before and after a successful [tag] hold the trellis of the
    sentence that starts with the word given to [initialise]. *)
Lemma decode_trellis (m : HMM) (w : string) (obs : list string)
    (self0 self' : HMM) (tags : list string) :
  estimated m → NoDup (states m) →
  initialise m w = Ok self0 →
  tag self0 obs = Ok (self', tags) →
  states m ≠ [] ∧
  trellis m w (w :: tail obs) 0 self0 ∧
  trellis m w (w :: tail obs) (length (tail obs)) self'.
Proof.
  intros Hm Hnd Hinit Htag.
  assert (Hne : states m ≠ []).
  { intros Hnil. rewrite tag_no_states in Htag; [done|].
    by rewrite (initialise_states m w self0 Hm Hinit). }
  destruct (initialise_trellis m w (w :: tail obs) Hm) as (self0' & Hinit' & Htr0).
  rewrite Hinit in Hinit'. injection Hinit' as <-.
  split; [done|]. split; [done|].
  destruct obs as [|o rest].
  - destruct (initialise_trellis m w [] Hm) as (self0' & Hinit' & Htr0').
    rewrite Hinit in Hinit'. injection Hinit' as <-.
    rewrite (tag_empty_Ok m w self0 Hm Hne Htr0') in Htag.
    by injection Htag as <- _.
  - rewrite (tag_cons_tail self0 o w rest) in Htag. simpl tail in *.
    destruct (tag_Ok m Hm Hnd Hne w (w :: rest) self0 (length rest) eq_refl Htr0)
      as (self'' & Htag' & Htr').
    rewrite Htag in Htag'. by injection Htag' as <- _.
Qed.

(** ** The cost of a tag sequence *)

Lemma prefix_cost_snoc (m : HMM) (obs q : list string) (o p s : string) :
  obs !! length q = Some o →
  last q = Some p →
  prefix_cost m obs (q ++ [s])
  = (prefix_cost m obs q - tl m p s - el m s o)%R.
Proof.
  intros Ho Hp. unfold prefix_cost, emission_cost, transition_cost.
  rewrite (zip_snoc _ _ _ _ Ho), (bigrams_snoc _ _ _ Hp), !fmap_app, !Rsum_app.
  destruct q as [|x q]; [done|]. simpl. lra.
Qed.

Lemma prefix_cost_singleton (m : HMM) (w : string) (rest : list string) (s : string) :
  prefix_cost m (w :: rest) [s] = (- tl m "<s>" s - el m s w)%R.
Proof.
  unfold prefix_cost, emission_cost, transition_cost.
  destruct rest; simpl; lra.
Qed.

Lemma prefix_prob_bounds (m : HMM) (obs path : list string) :
  calibrated m → (0 < prefix_prob m obs path <= 1)%R.
Proof.
  intros [Ht He]. unfold prefix_prob.
  pose proof (proj1 (Ht "<s>" (default "" (head path)))) as H1.
  pose proof (Rprod_bounds (λ op : string * string, eprob m op.2 op.1)
                (zip obs path) (λ op, proj1 (He op.2 op.1))) as H2.
  pose proof (Rprod_bounds (λ ab : string * string, tprob m ab.1 ab.2)
                (bigrams path) (λ ab, proj1 (Ht ab.1 ab.2))) as H3.
  revert H1 H2 H3. generalize (tprob m "<s>" (default "" (head path))).
  generalize (Rprod ((λ op : string * string, eprob m op.2 op.1) <$> zip obs path)).
  generalize (Rprod ((λ ab : string * string, tprob m ab.1 ab.2) <$> bigrams path)).
  intros c b a Ha Hb Hc.
  assert (0 < a * b <= 1)%R by nra. nra.
Qed.

(** The cost of a tag sequence is [-log2] of its probability. *)
Lemma prefix_cost_prob (m : HMM) (obs path : list string) :
  calibrated m →
  prefix_cost m obs path = (- (ln (prefix_prob m obs path) / ln 2))%R.
Proof.
  intros Hm. pose proof Hm as [Ht He].
  unfold prefix_cost, prefix_prob, emission_cost, transition_cost.
  pose proof (proj1 (Ht "<s>" (default "" (head path)))) as H1.
  pose proof (Rprod_bounds (λ op : string * string, eprob m op.2 op.1)
                (zip obs path) (λ op, proj1 (He op.2 op.1))) as H2.
  pose proof (Rprod_bounds (λ ab : string * string, tprob m ab.1 ab.2)
                (bigrams path) (λ ab, proj1 (Ht ab.1 ab.2))) as H3.
  assert (Hs1 : Rsum ((λ op : string * string, - el m op.2 op.1)%R <$> zip obs path)
           = (- (ln (Rprod ((λ op : string * string, eprob m op.2 op.1)
                              <$> zip obs path)) / ln 2))%R).
  { rewrite <- Rsum_neg_log2 by (intros op; apply He). f_equal.
    apply list_fmap_ext. intros i op _. by rewrite calibrated_el. }
  assert (Hs2 : Rsum ((λ ab : string * string, - tl m ab.1 ab.2)%R <$> bigrams path)
           = (- (ln (Rprod ((λ ab : string * string, tprob m ab.1 ab.2)
                              <$> bigrams path)) / ln 2))%R).
  { rewrite <- Rsum_neg_log2 by (intros ab; apply Ht). f_equal.
    apply list_fmap_ext. intros i ab _. by rewrite calibrated_tl. }
  rewrite Hs1, Hs2, calibrated_tl by done.
  rewrite !ln_mult; [|lra|lra| |lra]; [|apply Rmult_lt_0_compat; lra].
  unfold Rdiv. lra.
Qed.

(** ** Optimality of the trellis *)

(** No tag sequence ending in [s] costs less than the stored value. *)
Lemma V_le_prefix_cost (m : HMM) (w : string) (rest q : list string) (s : string) :
  Forall (λ p, p ∈ states m) (q ++ [s]) →
  length q < length (w :: rest) →
  (V m w (w :: rest) (length q) s <= prefix_cost m (w :: rest) (q ++ [s]))%R.
Proof.
  revert s. induction q as [|p q IH] using rev_ind; intros s Hst Hlen.
  { simpl. rewrite prefix_cost_singleton. lra. }
  rewrite length_app in *. simpl length in *.
  rewrite Forall_app, Forall_singleton in Hst. destruct Hst as [Hq Hs].
  assert (Hp : p ∈ states m).
  { pose proof Hq as Hq'. rewrite Forall_app, Forall_singleton in Hq'.
    by destruct Hq'. }
  destruct (lookup_lt_is_Some_2 (w :: rest) (length q + 1)) as [o Ho]; [simpl; lia|].
  rewrite (prefix_cost_snoc m _ (q ++ [p]) o p s);
    [|rewrite length_app; exact Ho|by rewrite last_snoc].
  specialize (IH p Hq ltac:(lia)).
  replace (length q + 1) with (S (length q)) in * by lia.
  simpl V.
  assert (Hobs : obs_at (w :: rest) (S (length q)) = o)
    by (unfold obs_at; by rewrite Ho).
  rewrite Hobs. unfold best_prev.
  pose proof (first_min_le (0%R, "")
                (cand m (V m w (w :: rest) (length q)) o s <$> states m)
                (cand m (V m w (w :: rest) (length q)) o s p)) as Hmin.
  simpl in Hmin. specialize (Hmin ltac:(by apply list_elem_of_fmap_2)).
  lra.
Qed.

(** The walk along the backpointers costs exactly the stored value. *)
Lemma prefix_cost_back (m : HMM) (w : string) (rest : list string) (T : nat)
    (s : string) :
  states m ≠ [] →
  T < length (w :: rest) →
  prefix_cost m (w :: rest) (reverse (back m w (w :: rest) T s))
  = V m w (w :: rest) T s.
Proof.
  intros Hne. revert s. induction T as [|T IH]; intros s HT.
  { change (reverse (back m w (w :: rest) 0 s)) with [s].
    by rewrite prefix_cost_singleton. }
  simpl back. rewrite reverse_cons.
  destruct (lookup_lt_is_Some_2 (w :: rest) (S T) HT) as [o Ho].
  rewrite (prefix_cost_snoc m _ _ o (BP m w (w :: rest) (S T) s) s).
  - rewrite IH by lia. simpl.
    assert (Hobs : obs_at (w :: rest) (S T) = o) by (unfold obs_at; by rewrite Ho).
    rewrite Hobs.
    destruct (best_prev_in m (V m w (w :: rest) T) o s Hne) as [_ Hbest].
    rewrite Hbest at 3. simpl. lra.
  - by rewrite length_reverse, back_length.
  - by rewrite last_reverse, back_head.
Qed.

(** The returned sequence is a cheapest one. *)
Lemma viterbi_optimal (m : HMM) (w : string) (rest : list string) (path : list string) :
  states m ≠ [] →
  length path = length (w :: rest) →
  Forall (λ p, p ∈ states m) path →
  let T := length rest in
  (path_cost m (w :: rest)
     (reverse (back m w (w :: rest) T (best_last m w (w :: rest) T)))
   <= path_cost m (w :: rest) path)%R.
Proof.
  intros Hne Hlen Hst T. unfold path_cost.
  rewrite prefix_cost_back by (done || simpl; lia).
  rewrite last_reverse, back_head. simpl default.
  destruct path as [|s q _] using rev_ind; [done|].
  rewrite length_app in Hlen. simpl in Hlen.
  assert (Hq : length q = T) by lia.
  rewrite last_snoc. simpl default.
  pose proof (V_le_prefix_cost m w rest q s Hst ltac:(simpl; lia)) as HV.
  rewrite Hq in HV.
  assert (Hs : s ∈ states m).
  { rewrite Forall_app, Forall_singleton in Hst. by destruct Hst. }
  pose proof (first_min_le (0%R, "") (final m w (w :: rest) T <$> states m)
                (final m w (w :: rest) T s)) as Hmin.
  specialize (Hmin ltac:(by apply list_elem_of_fmap_2)).
  rewrite best_last_final in Hmin by done. simpl in Hmin. lra.
Qed.

Lemma stored_cost_sign (m : HMM) (w : string) (rest : list string) (T : nat)
    (self : HMM) (s : string) (step : Z) (x : R) :
  calibrated m → states m ≠ [] →
  T < length (w :: rest) →
  trellis m w (w :: rest) T self →
  get_viterbi_value self s step = Ok x →
  (0 <= x)%R ∧
  ∃ path,
    last path = Some s ∧ Forall (λ p, p ∈ states m) path ∧
    x = (- (ln (prefix_prob m (w :: rest) path) / ln 2))%R ∧
    (0 < prefix_prob m (w :: rest) path <= 1)%R ∧
    (x = 0%R ↔ prefix_prob m (w :: rest) path = 1%R).
Proof.
  intros Hm Hne HT Htr Hget.
  destruct (trellis_lookup_inv m w _ T self s step x Htr Hget) as (Hs & t & Ht & ->).
  set (path := reverse (back m w (w :: rest) t s)).
  pose proof (prefix_prob_bounds m (w :: rest) path Hm) as Hb.
  assert (Hx : V m w (w :: rest) t s
               = (- (ln (prefix_prob m (w :: rest) path) / ln 2))%R).
  { rewrite <- prefix_cost_prob by done. symmetry.
    apply prefix_cost_back; [done|lia]. }
  pose proof (log2_nonpos _ Hb) as Hle.
  pose proof (log2_zero_iff (prefix_prob m (w :: rest) path) (proj1 Hb)) as Hz.
  split; [rewrite Hx; lra|].
  exists path. split; [unfold path; by rewrite last_reverse, back_head|].
  split; [by apply reverse_back_in_states|].
  split; [done|]. split; [done|].
  rewrite Hx, <- Hz. split; intros H0; lra.
Qed.

(** ** The worked example: decoding "dog runs" *)

Lemma trained_tl (self m : HMM) (a b : string) :
  train self = Ok m →
  tl m a b = (ln (smoothed (transition_data (train_data self)) a b) / ln 2)%R.
Proof.
  intros Hm. rewrite (calibrated_tl m a b (trained_calibrated _ _ Hm)).
  unfold tprob, prob_of. by rewrite (trained_transition _ _ a Hm), prob_samples.
Qed.

Lemma trained_el (self m : HMM) (s w : string) :
  train self = Ok m →
  el m s w = (ln (smoothed (emission_data (train_data self)) s w) / ln 2)%R.
Proof.
  intros Hm. rewrite (calibrated_el m s w (trained_calibrated _ _ Hm)).
  unfold eprob, prob_of. by rewrite (trained_emission _ _ s Hm), prob_samples.
Qed.

Lemma log2_lt (p q : R) : (0 < p < q)%R → (ln p / ln 2 < ln q / ln 2)%R.
Proof.
  intros [Hp Hq]. pose proof ln_2_pos as H2.
  pose proof (ln_increasing p q Hp Hq) as Hln.
  unfold Rdiv. apply Rmult_lt_compat_r; [by apply Rinv_0_lt_compat | done].
Qed.

(** Evaluate the counts inside [smoothed] on concrete data. *)
Ltac smoothed_counts :=
  unfold smoothed;
  repeat match goal with
  | |- context [count ?x ?l] =>
      let v := eval vm_compute in (count x l) in change (count x l) with v
  | |- context [length ?l] =>
      let v := eval vm_compute in (length l) in change (length l) with v
  end;
  simpl INR.

Lemma example_transition_high :
  smoothed (transition_data example_corpus) "<s>" "NOUN" = (301 / 302)%R ∧
  smoothed (transition_data example_corpus) "NOUN" "VERB" = (301 / 302)%R ∧
  smoothed (transition_data example_corpus) "VERB" "</s>" = (301 / 302)%R.
Proof. repeat split; smoothed_counts; lra. Qed.

Lemma example_transition_low :
  smoothed (transition_data example_corpus) "<s>" "VERB" = (1 / 302)%R ∧
  smoothed (transition_data example_corpus) "NOUN" "NOUN" = (1 / 302)%R ∧
  smoothed (transition_data example_corpus) "VERB" "NOUN" = (1 / 302)%R ∧
  smoothed (transition_data example_corpus) "VERB" "VERB" = (1 / 302)%R ∧
  smoothed (transition_data example_corpus) "NOUN" "</s>" = (1 / 302)%R.
Proof. repeat split; smoothed_counts; lra. Qed.

Lemma example_emission :
  smoothed (emission_data example_corpus) "NOUN" "dog" = (101 / 304)%R ∧
  smoothed (emission_data example_corpus) "VERB" "runs" = (101 / 304)%R ∧
  smoothed (emission_data example_corpus) "VERB" "dog" = (1 / 304)%R ∧
  smoothed (emission_data example_corpus) "NOUN" "runs" = (1 / 304)%R.
Proof. repeat split; smoothed_counts; lra. Qed.

Lemma V_S (m : HMM) (w : string) (obs : list string) (t : nat) (s : string) :
  V m w obs (S t) s = (best_prev m (V m w obs t) (obs_at obs (S t)) s).1.
Proof. done. Qed.

Lemma BP_S (m : HMM) (w : string) (obs : list string) (t : nat) (s : string) :
  BP m w obs (S t) s = (best_prev m (V m w obs t) (obs_at obs (S t)) s).2.
Proof. done. Qed.

(** Decide the comparisons of [min_step] by linear arithmetic. *)
Ltac decide_min :=
  simpl; unfold min_step; simpl;
  repeat match goal with
  | |- context [Rlt_dec ?a ?b] => destruct (Rlt_dec a b); simpl; try lra
  end;
  try reflexivity.

(** With two tags, a likely and an unlikely transition ([A] and [B]) and a
    likely and an unlikely emission ([C] and [D]), the decoder follows the
    likely ones. *)
Lemma decode_two_tags (m : HMM) (A B C D : R) :
  states m = ["NOUN"; "VERB"] →
  (B < A <= 0)%R → (D < C <= 0)%R →
  tl m "<s>" "NOUN" = A → tl m "NOUN" "VERB" = A → tl m "VERB" "</s>" = A →
  tl m "<s>" "VERB" = B → tl m "NOUN" "NOUN" = B → tl m "VERB" "NOUN" = B →
  tl m "VERB" "VERB" = B → tl m "NOUN" "</s>" = B →
  el m "NOUN" "dog" = C → el m "VERB" "runs" = C →
  el m "VERB" "dog" = D → el m "NOUN" "runs" = D →
  reverse (back m "dog" ["dog"; "runs"] 1 (best_last m "dog" ["dog"; "runs"] 1))
  = ["NOUN"; "VERB"].
Proof.
  intros Hst HA HC T1 T2 T3 T4 T5 T6 T7 T8 E1 E2 E3 E4.
  assert (HN : best_prev m (V m "dog" ["dog"; "runs"] 0) "runs" "NOUN"
               = ((- A - C - B - D)%R, "NOUN")).
  { unfold best_prev, cand. rewrite Hst. simpl.
    rewrite T1, T4, T5, T6, E1, E3, E4. decide_min. }
  assert (HV : best_prev m (V m "dog" ["dog"; "runs"] 0) "runs" "VERB"
               = ((- A - C - A - C)%R, "NOUN")).
  { unfold best_prev, cand. rewrite Hst. simpl.
    rewrite T1, T2, T4, T7, E1, E2, E3. decide_min. }
  assert (Hlast : best_last m "dog" ["dog"; "runs"] 1 = "VERB").
  { unfold best_last, final. rewrite Hst, !fmap_cons, !V_S.
    change (obs_at ["dog"; "runs"] 1) with "runs".
    rewrite HN, HV, T3, T8. decide_min. }
  rewrite Hlast. unfold back. rewrite BP_S.
  change (obs_at ["dog"; "runs"] 1) with "runs". by rewrite HV.
Qed.

Example decode_dog_runs :
  ∃ m self0 self',
    train (HMM_init example_corpus []) = Ok m ∧
    initialise m "dog" = Ok self0 ∧
    tag self0 ["dog"; "runs"] = Ok (self', ["NOUN"; "VERB"]).
Proof.
  destruct (train_total example_corpus []) as (m & Hm & Hest & Hnd & Hne).
  specialize (Hne ltac:(simpl; discriminate)).
  destruct (initialise_trellis m "dog" ["dog"; "runs"] Hest) as (self0 & Hinit & Htr).
  destruct (tag_Ok m Hest Hnd Hne "dog" ["dog"; "runs"] self0 1 eq_refl Htr)
    as (self' & Htag & _).
  exists m, self0, self'. split; [done|]. split; [done|].
  rewrite Htag. do 2 f_equal.
  destruct example_transition_high as (H1 & H2 & H3).
  destruct example_transition_low as (L1 & L2 & L3 & L4 & L5).
  destruct example_emission as (E1 & E2 & E3 & E4).
  apply (decode_two_tags m (ln (301 / 302) / ln 2) (ln (1 / 302) / ln 2)
           (ln (101 / 304) / ln 2) (ln (1 / 304) / ln 2)).
  - rewrite (trained_states _ _ Hm). vm_compute. reflexivity.
  - split; [apply log2_lt; lra | apply log2_nonpos; lra].
  - split; [apply log2_lt; lra | apply log2_nonpos; lra].
  - by rewrite (trained_tl _ _ _ _ Hm), <- H1.
  - by rewrite (trained_tl _ _ _ _ Hm), <- H2.
  - by rewrite (trained_tl _ _ _ _ Hm), <- H3.
  - by rewrite (trained_tl _ _ _ _ Hm), <- L1.
  - by rewrite (trained_tl _ _ _ _ Hm), <- L2.
  - by rewrite (trained_tl _ _ _ _ Hm), <- L3.
  - by rewrite (trained_tl _ _ _ _ Hm), <- L4.
  - by rewrite (trained_tl _ _ _ _ Hm), <- L5.
  - by rewrite (trained_el _ _ _ _ Hm), <- E1.
  - by rewrite (trained_el _ _ _ _ Hm), <- E2.
  - by rewrite (trained_el _ _ _ _ Hm), <- E3.
  - by rewrite (trained_el _ _ _ _ Hm), <- E4.
Qed.

(** * The claims of the specification *)

(** Train the model of a corpus and name what training guarantees. *)
Ltac train_model corpus test :=
  let m := fresh "m" in
  destruct (train_total corpus test) as (m & Hm & Hest & Hnd & Hne).

(** C1 (Viterbi optimality).  After training on a corpus with at least one
    tagged word, for every sentence [w :: rest] whose first word [w] was
    passed to [initialise], [tag] returns a tag sequence whose total cost
    ([-log2 P(first tag | <s>)], plus [-log2] of every emission, plus [-log2]
    of every adjacent transition, plus [-log2 P(</s> | last tag)]) is at most
    the total cost of every tag sequence of the same length over [states].
    The accessors answer for all arguments ([estimated]), so the costs are the
    values [tlprob] and [elprob] return. *)
Theorem viterbi_optimality (corpus test : list (list (string * string)))
    (w : string) (rest : list string) :
  concat corpus ≠ [] →
  ∃ m self0 self' tags,
    train (HMM_init corpus test) = Ok m ∧
    estimated m ∧
    initialise m w = Ok self0 ∧
    tag self0 (w :: rest) = Ok (self', tags) ∧
    ∀ path,
      length path = length (w :: rest) →
      Forall (λ t, t ∈ states m) path →
      (path_cost m (w :: rest) tags <= path_cost m (w :: rest) path)%R.
Proof.
  intros Hcorpus. train_model corpus test. specialize (Hne Hcorpus).
  destruct (initialise_trellis m w (w :: rest) Hest) as (self0 & Hinit & Htr).
  destruct (tag_Ok m Hest Hnd Hne w (w :: rest) self0 (length rest) eq_refl Htr)
    as (self' & Htag & _).
  exists m, self0, self'. eexists. split; [done|]. split; [done|].
  split; [done|]. split; [exact Htag|].
  intros path Hlen Hpath. by apply viterbi_optimal.
Qed.

Lemma viterbi_optimality_witness :
  concat example_corpus ≠ [] ∧
  ∃ m self0 self' tags,
    train (HMM_init example_corpus []) = Ok m ∧
    estimated m ∧
    initialise m "dog" = Ok self0 ∧
    tag self0 ["dog"; "runs"] = Ok (self', tags) ∧
    ∀ path,
      length path = 2 →
      Forall (λ t, t ∈ states m) path →
      (path_cost m ["dog"; "runs"] tags <= path_cost m ["dog"; "runs"] path)%R.
Proof.
  assert (H : concat example_corpus ≠ []) by (simpl; discriminate).
  split; [exact H | exact (viterbi_optimality example_corpus [] "dog" ["runs"] H)].
Defined.

(** C2 (smoothed estimator contract).  In both trained models, for every
    condition [c] and every value [v], seen or not, the estimated probability
    is [(count + 1/100) / (N + (B + 1) * 1/100)], where [count] is the number
    of events ([c], [v]), [N] the number of events under [c] and [B] the
    number of distinct values under [c]; it is strictly positive, and the
    accessor returns its [log2] instead of raising. *)
Theorem lidstone_estimator_contract (corpus test : list (list (string * string))) :
  ∃ m, train (HMM_init corpus test) = Ok m ∧
    ∀ c v : string,
      (∃ d, pd_getitem (emission_PD m) c = Ok d ∧
            Lidstone.prob d v = smoothed (emission_data corpus) c v ∧
            (0 < Lidstone.prob d v)%R ∧
            elprob m c v = Ok (ln (Lidstone.prob d v) / ln 2)%R) ∧
      (∃ d, pd_getitem (transition_PD m) c = Ok d ∧
            Lidstone.prob d v = smoothed (transition_data corpus) c v ∧
            (0 < Lidstone.prob d v)%R ∧
            tlprob m c v = Ok (ln (Lidstone.prob d v) / ln 2)%R).
Proof.
  train_model corpus test.
  exists m. split; [done|]. intros c v. split.
  - eexists. pose proof (trained_emission _ _ c Hm) as Hd. simpl in Hd.
    split; [exact Hd|]. split; [apply prob_samples|].
    split; [apply prob_lidstone_pos|].
    unfold elprob. rewrite Hd. simpl. apply math_log_Ok, prob_lidstone_pos.
  - eexists. pose proof (trained_transition _ _ c Hm) as Hd. simpl in Hd.
    split; [exact Hd|]. split; [apply prob_samples|].
    split; [apply prob_lidstone_pos|].
    unfold tlprob. rewrite Hd. simpl. apply math_log_Ok, prob_lidstone_pos.
Qed.

(** C3, as amended (transition counting runs over one running tag list).
    The frequency counts under the transition model are, for every pair of
    tags ([a], [b]), the number of adjacent occurrences of the pair inside the
    per-sentence sequences [<s>, tag_1, ..., tag_n, </s>], plus, for the pair
    ([</s>], [<s>]) only, one occurrence for every two consecutive training
    sentences. *)
Theorem transition_counts_flat (corpus test : list (list (string * string)))
    (a b : string) :
  ∃ m d, train (HMM_init corpus test) = Ok m ∧
    pd_getitem (transition_PD m) a = Ok d ∧
    FreqDist.getitem (lp_freqdist d) b
    = count (a, b) (sentence_bigrams corpus)
      + (if decide ((a, b) = ("</s>", "<s>")) then length corpus - 1 else 0).
Proof.
  train_model corpus test.
  exists m. eexists. split; [done|].
  pose proof (trained_transition _ _ a Hm) as Hd. simpl in Hd.
  split; [exact Hd|]. simpl.
  by rewrite fd_of_getitem, count_samples_of, count_transition_data.
Qed.

(** C3 as stated fails: with the three sentences of [example_corpus] the
    transition model has counted the pair ([</s>], [<s>]) twice, and no
    per-sentence sequence contains that pair. *)
Lemma transition_counts_cross_sentence :
  ∃ m d, train (HMM_init example_corpus []) = Ok m ∧
    pd_getitem (transition_PD m) "</s>" = Ok d ∧
    FreqDist.getitem (lp_freqdist d) "<s>" = 2 ∧
    count ("</s>", "<s>") (sentence_bigrams example_corpus) = 0.
Proof.
  train_model example_corpus (@nil (list (string * string))).
  exists m. eexists. split; [done|].
  pose proof (trained_transition _ _ "</s>" Hm) as Hd. simpl in Hd.
  split; [exact Hd|]. simpl. rewrite fd_of_getitem, count_samples_of.
  split; vm_compute; reflexivity.
Qed.

(** C4 (postcondition of [initialise] and reset).  On a trained model and
    whatever the two tables held before ([v0], [b0]), [initialise w] leaves
    two dictionaries with exactly one row per tag [s] of [states]: the cost
    list [[- tlprob("<s>", s) - elprob(s, w)]] and the backpointer list
    [["<s>"]]; every other key is absent. *)
Theorem initialise_postcondition (corpus test : list (list (string * string)))
    (w : string) (v0 : table R) (b0 : table string) :
  ∃ m dv db,
    train (HMM_init corpus test) = Ok m ∧
    initialise (set_tables m v0 b0) w = Ok (set_tables m (Dict dv) (Dict db)) ∧
    ∀ s,
      if decide (s ∈ states m)
      then ∃ lt le, tlprob m "<s>" s = Ok lt ∧ elprob m s w = Ok le ∧
                    dv !! s = Some [(- lt - le)%R] ∧ db !! s = Some ["<s>"]
      else dv !! s = None ∧ db !! s = None.
Proof.
  train_model corpus test.
  destruct (initialise_Ok (set_tables m v0 b0) w Hest) as (dv & db & Hrun & Hlook).
  exists m, dv, db. split; [done|]. split; [exact Hrun|].
  intros s. destruct (Hlook s) as [Hv Hb]. simpl in Hv, Hb.
  destruct (decide (s ∈ states m)) as [Hs|Hs]; [|done].
  exists (tl m "<s>" s), (el m s w). destruct Hest as [Htl Hel].
  by rewrite Htl, Hel.
Qed.

(** C5 (recurrence of the decoding loop, first minimum wins).  After
    [initialise] and [tag] on a non-empty sentence, for every step [t >= 1]
    with word [o] and every tag [s] of [states]: the stored cost [v] is the
    cost [viterbi[bp][t-1] - log2 P(s|bp) - log2 P(o|s)] through the stored
    backpointer [bp]; every tag that precedes [bp] in [states] gives a
    strictly larger cost and every tag that follows it a cost at least [v]. *)
Theorem advance_recurrence (corpus test : list (list (string * string)))
    (w : string) (obs : list string) :
  concat corpus ≠ [] →
  obs ≠ [] →
  ∃ m self0 self' tags,
    train (HMM_init corpus test) = Ok m ∧
    initialise m w = Ok self0 ∧
    tag self0 obs = Ok (self', tags) ∧
    ∀ t s o,
      1 ≤ t → obs !! t = Some o → s ∈ states m →
      ∃ v bp pre post,
        get_viterbi_value self' s (Z.of_nat t) = Ok v ∧
        get_backpointer_value self' s (Z.of_nat t) = Ok bp ∧
        states m = pre ++ bp :: post ∧
        step_cost self' o t s bp v ∧
        (∀ p, p ∈ pre → ∃ c, step_cost self' o t s p c ∧ (v < c)%R) ∧
        (∀ p, p ∈ post → ∃ c, step_cost self' o t s p c ∧ (v <= c)%R).
Proof.
  intros Hcorpus Hobs. train_model corpus test. specialize (Hne Hcorpus).
  destruct (initialise_trellis m w obs Hest) as (self0 & Hinit & Htr).
  destruct obs as [|o0 rest]; [done|].
  destruct (tag_Ok m Hest Hnd Hne w (o0 :: rest) self0 (length rest) eq_refl Htr)
    as (self' & Htag & Htr').
  exists m, self0, self'. eexists. split; [done|]. split; [done|].
  split; [exact Htag|].
  intros [|t] s o Ht Ho Hs; [lia|].
  assert (HtT : S t ≤ length rest).
  { apply lookup_lt_Some in Ho. simpl in Ho. lia. }
  destruct (trellis_accessors m w _ _ (S t) self' s Htr' HtT Hs) as [Hv Hb].
  assert (Hobs_at : obs_at (o0 :: rest) (S t) = o) by (unfold obs_at; by rewrite Ho).
  destruct (first_min_spec (0%R, "")
              (cand m (V m w (o0 :: rest) t) o s <$> states m)
              (states_fmap_nonempty _ _ Hne)) as (pre' & post' & Heq & Hpre & Hpost).
  destruct (best_prev_in m (V m w (o0 :: rest) t) o s Hne) as [Hbin Hbest].
  fold (best_prev m (V m w (o0 :: rest) t) o s) in Heq, Hpre, Hpost.
  apply fmap_app_inv in Heq as (pre & post0 & -> & Hpost0 & Hst).
  symmetry in Hpost0.
  apply fmap_cons_inv in Hpost0 as (bp & post & Hbp & -> & ->).
  assert (Hbp2 : bp = BP m w (o0 :: rest) (S t) s).
  { simpl. rewrite Hobs_at, Hbp. done. }
  assert (Hv1 : V m w (o0 :: rest) (S t) s
                = (cand m (V m w (o0 :: rest) t) o s bp).1).
  { simpl V. rewrite Hobs_at, Hbp. done. }
  exists (V m w (o0 :: rest) (S t) s), bp, pre, post.
  split; [done|]. split; [by rewrite Hbp2|]. split; [done|].
  assert (Hin : ∀ p, p ∈ states m →
            step_cost self' o (S t) s p (cand m (V m w (o0 :: rest) t) o s p).1).
  { intros p Hp. apply (trellis_step_cost m w (o0 :: rest) (length rest));
      [done|done|lia|done]. }
  split.
  { rewrite Hv1. apply Hin. rewrite Hst. apply elem_of_app. right.
    apply list_elem_of_here. }
  split.
  - intros p Hp. eexists. split.
    + apply Hin. rewrite Hst. apply elem_of_app. by left.
    + simpl V. rewrite Hobs_at.
      apply (Hpre (cand m (V m w (o0 :: rest) t) o s p)).
      by apply list_elem_of_fmap_2.
  - intros p Hp. eexists. split.
    + apply Hin. rewrite Hst. apply elem_of_app. right. by apply list_elem_of_further.
    + simpl V. rewrite Hobs_at.
      apply (Hpost (cand m (V m w (o0 :: rest) t) o s p)).
      by apply list_elem_of_fmap_2.
Qed.

Lemma advance_recurrence_witness :
  concat example_corpus ≠ [] ∧ ["dog"; "runs"] ≠ [] ∧
  ∃ m self0 self' tags,
    train (HMM_init example_corpus []) = Ok m ∧
    initialise m "dog" = Ok self0 ∧
    tag self0 ["dog"; "runs"] = Ok (self', tags) ∧
    ∀ t s o,
      1 ≤ t → ["dog"; "runs"] !! t = Some o → s ∈ states m →
      ∃ v bp pre post,
        get_viterbi_value self' s (Z.of_nat t) = Ok v ∧
        get_backpointer_value self' s (Z.of_nat t) = Ok bp ∧
        states m = pre ++ bp :: post ∧
        step_cost self' o t s bp v ∧
        (∀ p, p ∈ pre → ∃ c, step_cost self' o t s p c ∧ (v < c)%R) ∧
        (∀ p, p ∈ post → ∃ c, step_cost self' o t s p c ∧ (v <= c)%R).
Proof.
  assert (H : concat example_corpus ≠ []) by (simpl; discriminate).
  assert (H' : ["dog"; "runs"] ≠ []) by discriminate.
  split; [exact H|]. split; [exact H'|].
  exact (advance_recurrence example_corpus [] "dog" ["dog"; "runs"] H H').
Defined.

(** C6 (output shape).  For a model trained on a corpus with at least one
    tagged word and a sentence [w :: rest] of length [n >= 1], [initialise w]
    followed by [tag] returns exactly [n] tags, all of them in [states]. *)
Theorem tag_output_shape (corpus test : list (list (string * string)))
    (w : string) (rest : list string) :
  concat corpus ≠ [] →
  ∃ m self0 self' tags,
    train (HMM_init corpus test) = Ok m ∧
    initialise m w = Ok self0 ∧
    tag self0 (w :: rest) = Ok (self', tags) ∧
    length tags = length (w :: rest) ∧
    Forall (λ t, t ∈ states m) tags.
Proof.
  intros Hcorpus. train_model corpus test. specialize (Hne Hcorpus).
  destruct (initialise_trellis m w (w :: rest) Hest) as (self0 & Hinit & Htr).
  destruct (tag_Ok m Hest Hnd Hne w (w :: rest) self0 (length rest) eq_refl Htr)
    as (self' & Htag & _).
  exists m, self0, self'. eexists. split; [done|]. split; [done|].
  split; [exact Htag|]. split.
  - by rewrite reverse_back_length.
  - apply reverse_back_in_states; [done|]. by apply best_last_in.
Qed.

Lemma tag_output_shape_witness :
  concat example_corpus ≠ [] ∧
  ∃ m self0 self' tags,
    train (HMM_init example_corpus []) = Ok m ∧
    initialise m "dog" = Ok self0 ∧
    tag self0 ["dog"; "runs"] = Ok (self', tags) ∧
    length tags = 2 ∧
    Forall (λ t, t ∈ states m) tags.
Proof.
  assert (H : concat example_corpus ≠ []) by (simpl; discriminate).
  split; [exact H | exact (tag_output_shape example_corpus [] "dog" ["runs"] H)].
Defined.

(** C7, as amended (the emission lookup of an unseen tag succeeds).  For a
    tag that never occurs in the training data and every word, [elprob]
    returns 0, the [log2] of the probability 1 that the estimator gives under
    the empty frequency distribution. *)
Theorem elprob_unseen_tag_is_zero (corpus test : list (list (string * string)))
    (state word : string) :
  state ∉ (concat corpus).*2 →
  ∃ m, train (HMM_init corpus test) = Ok m ∧ elprob m state word = Ok 0%R.
Proof.
  intros Hstate. train_model corpus test.
  exists m. split; [done|]. by apply (elprob_unseen _ _ _ _ Hm).
Qed.

Lemma elprob_unseen_tag_is_zero_witness :
  ("ADJ" ∉ (concat example_corpus).*2) ∧
  (∃ m, train (HMM_init example_corpus []) = Ok m ∧ elprob m "ADJ" "dog" = Ok 0%R).
Proof.
  assert (H : "ADJ" ∉ (concat example_corpus).*2).
  { apply (bool_decide_unpack _). vm_compute. exact I. }
  split; [exact H | exact (elprob_unseen_tag_is_zero example_corpus [] "ADJ" "dog" H)].
Defined.

(** C7 as stated fails: trained on [example_corpus], whose tags are NOUN and
    VERB, [elprob "ADJ" "dog"] returns 0 and raises nothing. *)
Lemma elprob_unseen_tag_returns :
  ∃ m, train (HMM_init example_corpus []) = Ok m ∧
       elprob m "ADJ" "dog" = Ok 0%R ∧
       ∀ e, elprob m "ADJ" "dog" ≠ Raise e.
Proof.
  train_model example_corpus (@nil (list (string * string))).
  exists m. split; [done|].
  assert (H : elprob m "ADJ" "dog" = Ok 0%R).
  { apply (elprob_unseen _ _ _ _ Hm).
    apply (bool_decide_unpack _). vm_compute. exact I. }
  split; [done|]. intros e. by rewrite H.
Qed.

(** C8, as amended (decoding the empty sentence does not fail).  For a model
    trained on a corpus with at least one tagged word and initialised with
    [w], [tag []] raises nothing: it leaves the object unchanged and returns
    one tag of [states], the same result as [tag [w]]. *)
Theorem tag_empty_sentence_returns (corpus test : list (list (string * string)))
    (w : string) :
  concat corpus ≠ [] →
  ∃ m self0 s,
    train (HMM_init corpus test) = Ok m ∧
    initialise m w = Ok self0 ∧
    s ∈ states m ∧
    tag self0 [] = Ok (self0, [s]) ∧
    tag self0 [w] = Ok (self0, [s]).
Proof.
  intros Hcorpus. train_model corpus test. specialize (Hne Hcorpus).
  destruct (initialise_trellis m w [] Hest) as (self0 & Hinit & Htr).
  exists m, self0, (best_last m w [] 0).
  split; [done|]. split; [done|]. split; [by apply best_last_in|].
  split; [by apply tag_empty_Ok | by apply tag_one_word_Ok].
Qed.

Lemma tag_empty_sentence_returns_witness :
  concat example_corpus ≠ [] ∧
  ∃ m self0 s,
    train (HMM_init example_corpus []) = Ok m ∧
    initialise m "dog" = Ok self0 ∧
    s ∈ states m ∧
    tag self0 [] = Ok (self0, [s]) ∧
    tag self0 ["dog"] = Ok (self0, [s]).
Proof.
  assert (H : concat example_corpus ≠ []) by (simpl; discriminate).
  split; [exact H | exact (tag_empty_sentence_returns example_corpus [] "dog" H)].
Defined.

(** C8 as stated fails: trained on [example_corpus] and initialised with
    "dog", [tag []] returns a one-element list and raises nothing. *)
Lemma tag_empty_sentence_no_error :
  ∃ m self0 s,
    train (HMM_init example_corpus []) = Ok m ∧
    initialise m "dog" = Ok self0 ∧
    tag self0 [] = Ok (self0, [s]) ∧
    ∀ e, tag self0 [] ≠ Raise e.
Proof.
  train_model example_corpus (@nil (list (string * string))).
  specialize (Hne ltac:(simpl; discriminate)).
  destruct (initialise_trellis m "dog" [] Hest) as (self0 & Hinit & Htr).
  pose proof (tag_empty_Ok m "dog" self0 Hest Hne Htr) as Htag.
  exists m, self0, (best_last m "dog" [] 0).
  split; [done|]. split; [done|]. split; [done|].
  intros e. by rewrite Htag.
Qed.

(** C9 (sign invariants).  In a trained model every emission and transition
    probability lies in (0, 1]; [elprob] and [tlprob] return values [<= 0]
    that are 0 exactly when the probability is 1.  For every decode
    ([initialise w], then a [tag] that returns), every value that
    [get_viterbi_value] can return from the object before or after [tag] is
    [>= 0]: it is [-log2] of the probability, in (0, 1], of a tag sequence
    over [states] for the sentence that starts with [w], and it is 0 exactly
    when that probability is 1. *)
Theorem sign_invariants (corpus test : list (list (string * string))) :
  ∃ m, train (HMM_init corpus test) = Ok m ∧
    (∀ c v, ∃ de dt le lt,
        pd_getitem (emission_PD m) c = Ok de ∧
        pd_getitem (transition_PD m) c = Ok dt ∧
        (0 < Lidstone.prob de v <= 1)%R ∧
        (0 < Lidstone.prob dt v <= 1)%R ∧
        elprob m c v = Ok le ∧ tlprob m c v = Ok lt ∧
        (le <= 0)%R ∧ (lt <= 0)%R ∧
        (le = 0%R ↔ Lidstone.prob de v = 1%R) ∧
        (lt = 0%R ↔ Lidstone.prob dt v = 1%R)) ∧
    (∀ w obs self0 self' tags,
        initialise m w = Ok self0 →
        tag self0 obs = Ok (self', tags) →
        ∀ self s step x,
          self = self0 ∨ self = self' →
          get_viterbi_value self s step = Ok x →
          (0 <= x)%R ∧
          ∃ path,
            last path = Some s ∧ Forall (λ p, p ∈ states m) path ∧
            x = (- (ln (prefix_prob m (w :: tail obs) path) / ln 2))%R ∧
            (0 < prefix_prob m (w :: tail obs) path <= 1)%R ∧
            (x = 0%R ↔ prefix_prob m (w :: tail obs) path = 1%R)).
Proof.
  train_model corpus test. clear Hne.
  pose proof (trained_calibrated _ _ Hm) as Hcal.
  exists m. split; [done|]. split.
  - intros c v.
    pose proof (trained_emission _ _ c Hm) as Hde.
    pose proof (trained_transition _ _ c Hm) as Hdt.
    do 2 eexists. exists (el m c v), (tl m c v).
    split; [exact Hde|]. split; [exact Hdt|].
    assert (He : (0 < eprob m c v <= 1)%R) by apply Hcal.
    assert (Ht : (0 < tprob m c v <= 1)%R) by apply Hcal.
    unfold eprob, tprob, prob_of in He, Ht. rewrite Hde in He. rewrite Hdt in Ht.
    split; [done|]. split; [done|].
    destruct Hest as [Htl Hel]. split; [done|]. split; [done|].
    pose proof (calibrated_el m c v Hcal) as Hle.
    pose proof (calibrated_tl m c v Hcal) as Hlt.
    unfold eprob, tprob, prob_of in Hle, Hlt. rewrite Hde in Hle. rewrite Hdt in Hlt.
    rewrite Hle, Hlt.
    split; [by apply log2_nonpos|]. split; [by apply log2_nonpos|].
    split; apply log2_zero_iff; lra.
  - intros w obs self0 self' tags Hinit Htag self s step x Hself Hget.
    destruct (decode_trellis m w obs self0 self' tags Hest Hnd Hinit Htag)
      as (Hne & Htr0 & Htr').
    destruct Hself as [->| ->].
    + apply (stored_cost_sign m w (tail obs) 0 self0 s step x); try done.
      simpl. lia.
    + apply (stored_cost_sign m w (tail obs) (length (tail obs)) self' s step x);
        try done.
      simpl. lia.
Qed.

(** C10 ([tag] never reads the first observation).  On any object [tag] gives
    the same result (the same exception, or the same tables and the same
    tags) for two sentences of the same length that differ only in their
    first word; in particular on every model that was trained and then
    initialised with any word [w]. *)
Theorem tag_ignores_first_observation (corpus test : list (list (string * string)))
    (w o1 o2 : string) (rest : list string) :
  (∀ self, tag self (o1 :: rest) = tag self (o2 :: rest)) ∧
  ∃ m self0,
    train (HMM_init corpus test) = Ok m ∧
    initialise m w = Ok self0 ∧
    tag self0 (o1 :: rest) = tag self0 (o2 :: rest).
Proof.
  split; [intros self; apply tag_cons_tail|].
  train_model corpus test.
  destruct (initialise_trellis m w [] Hest) as (self0 & Hinit & _).
  exists m, self0. split; [done|]. split; [done|]. apply tag_cons_tail.
Qed.

(** * Further properties of the code *)

(** ** The tags of the model *)

Lemma unique_list_from_union (A B : gset string) (xs : list string) :
  unique_list_from (A ∪ B) xs = filter (λ x, x ∉ A) (unique_list_from B xs).
Proof.
  revert B. induction xs as [|y xs IH]; intros B; [done|]. simpl.
  destruct (decide (y ∈ B)) as [HB|HB].
  - rewrite decide_True by (apply elem_of_union; by right). apply IH.
  - destruct (decide (y ∈ A)) as [HA|HA].
    + rewrite decide_True by (apply elem_of_union; by left).
      rewrite filter_cons_False by (intros Hn; by apply Hn).
      rewrite <- IH. f_equal. apply set_eq. intros z.
      rewrite !elem_of_union, elem_of_singleton. split; [tauto|].
      intros [?|[->|?]]; tauto.
    + rewrite decide_False by (intros [?|?]%elem_of_union; done).
      rewrite filter_cons_True by done. f_equal.
      rewrite <- IH. f_equal. apply set_eq. intros z.
      rewrite !elem_of_union, elem_of_singleton. tauto.
Qed.

Lemma unique_list_from_app (seen : gset string) (xs ys : list string) :
  unique_list_from seen (xs ++ ys)
  = unique_list_from seen xs ++ unique_list_from (list_to_set xs ∪ seen) ys.
Proof.
  revert seen. induction xs as [|x xs IH]; intros seen; simpl.
  { f_equal. apply set_eq. intros z. rewrite elem_of_union, elem_of_empty. tauto. }
  destruct (decide (x ∈ seen)) as [Hx|Hx].
  - rewrite IH. do 2 f_equal. apply set_eq. intros z.
    rewrite !elem_of_union, elem_of_singleton. split; [tauto|].
    intros [[->|?]|?]; tauto.
  - simpl. rewrite IH. do 3 f_equal. apply set_eq. intros z.
    rewrite !elem_of_union, elem_of_singleton. tauto.
Qed.

Lemma unique_list_app (xs ys : list string) :
  unique_list (xs ++ ys)
  = unique_list xs ++ filter (λ y, y ∉ xs) (unique_list ys).
Proof.
  unfold unique_list. rewrite unique_list_from_app, unique_list_from_union.
  f_equal. apply list_filter_iff. intros y. by rewrite elem_of_list_to_set.
Qed.

Lemma elem_of_concat {A : Type} (x : A) (ls : list (list A)) :
  x ∈ concat ls ↔ ∃ l, l ∈ ls ∧ x ∈ l.
Proof.
  induction ls as [|l ls IH]; simpl.
  { split; [by intros ?%not_elem_of_nil|]. by intros (l & ?%not_elem_of_nil & _). }
  rewrite elem_of_app, IH. split.
  - intros [Hx|(l' & Hl' & Hx)].
    + exists l. split; [apply list_elem_of_here | done].
    + exists l'. split; [by apply list_elem_of_further | done].
  - intros (l' & [->|Hl']%elem_of_cons & Hx); [by left|]. right. by exists l'.
Qed.

Lemma elem_of_concat_snd (corpus : list (list (string * string))) (t : string) :
  t ∈ (concat corpus).*2 ↔
  ∃ sentence word, sentence ∈ corpus ∧ (word, t) ∈ sentence.
Proof.
  rewrite list_elem_of_fmap. split.
  - intros ([word t'] & -> & Hin). apply elem_of_concat in Hin as (s & Hs & Hc).
    by exists s, word.
  - intros (s & word & Hs & Hw). exists (word, t). split; [done|].
    apply elem_of_concat. by exists s.
Qed.

(** X1.  [states] after training lists every tag of the training data once
    and nothing else. *)
Theorem states_are_the_training_tags (corpus test : list (list (string * string))) :
  ∃ m, train (HMM_init corpus test) = Ok m ∧
    NoDup (states m) ∧
    ∀ t, t ∈ states m ↔
         ∃ sentence word, sentence ∈ corpus ∧ (word, t) ∈ sentence.
Proof.
  destruct (train_total corpus test) as (m & Hm & _ & Hnd & _).
  exists m. split; [done|]. split; [done|]. intros t.
  rewrite (trained_states _ _ Hm). simpl.
  by rewrite elem_of_unique_list, elem_of_concat_snd.
Qed.

(** X2.  Tags are listed in the order of their first occurrence: training on
    a corpus extended at its end keeps the old [states] as a prefix and
    appends the tags that are new, each once, in the order they appear. *)
Theorem states_prefix_stable (corpus more test : list (list (string * string))) :
  ∃ m1 m2,
    train (HMM_init corpus test) = Ok m1 ∧
    train (HMM_init (corpus ++ more) test) = Ok m2 ∧
    states m2
    = states m1
      ++ filter (λ t, t ∉ states m1) (unique_list (concat more).*2).
Proof.
  destruct (train_total corpus test) as (m1 & Hm1 & _).
  destruct (train_total (corpus ++ more) test) as (m2 & Hm2 & _).
  exists m1, m2. split; [done|]. split; [done|].
  rewrite (trained_states _ _ Hm1), (trained_states _ _ Hm2). simpl.
  rewrite concat_app, fmap_app, unique_list_app. f_equal.
  apply list_filter_iff. intros t. by rewrite elem_of_unique_list.
Qed.

(** ** The smoothed distributions *)

Lemma sum_list_with_indicator (x : string) (l : list string) :
  NoDup l →
  sum_list_with (λ v, if decide (v = x) then 1 else 0) l
  = if decide (x ∈ l) then 1 else 0.
Proof.
  induction 1 as [|y l Hy Hnd IH]; cbn [sum_list_with].
  { destruct (decide (x ∈ [])) as [Hx%elem_of_nil|]; done. }
  rewrite IH.
  destruct (decide (y = x)) as [Heq|Hne], (decide (x ∈ l)) as [Hx|Hx],
    (decide (x ∈ y :: l)) as [Hc|Hc]; subst; try done.
  - exfalso. apply Hc, list_elem_of_here.
  - exfalso. by apply Hc, list_elem_of_further.
  - apply elem_of_cons in Hc as [->|?]; done.
Qed.

(** The counts of the distinct values add up to the number of events. *)
Lemma sum_counts (l : list string) :
  sum_list_with (λ v, count v l) (remove_dups l) = length l.
Proof.
  induction l as [|x l IH]; [done|].
  assert (Hsplit : ∀ D : list string,
            sum_list_with (λ v, count v (x :: l)) D
            = sum_list_with (λ v, if decide (v = x) then 1 else 0) D
              + sum_list_with (λ v, count v l) D).
  { intros D. induction D as [|d D IHD]; [done|].
    cbn [sum_list_with]. rewrite IHD, count_cons. lia. }
  pose proof (NoDup_remove_dups l) as Hnd.
  pose proof (sum_list_with_indicator x _ Hnd) as Hind.
  cbn [remove_dups length]. destruct (decide_rel elem_of x l) as [Hx|Hx].
  - rewrite Hsplit, IH, Hind.
    destruct (decide (x ∈ remove_dups l)) as [_|Hn]; [lia|].
    exfalso. by apply Hn, elem_of_remove_dups.
  - cbn [sum_list_with]. rewrite Hsplit, IH, Hind, count_cons, (count_zero x l Hx).
    destruct (decide (x ∈ remove_dups l)) as [Hn|_]; [exfalso; apply Hx; revert Hn; apply elem_of_remove_dups|].
    destruct (decide (x = x)); [lia | done].
Qed.

Lemma Rsum_smoothing (f : string → nat) (g D : R) (l : list string) :
  Rsum ((λ v, (INR (f v) + g) / D)%R <$> l)
  = ((INR (sum_list_with f l) + INR (length l) * g) / D)%R.
Proof.
  induction l as [|x l IH].
  { simpl. unfold Rdiv. lra. }
  rewrite !fmap_cons, Rsum_cons, IH.
  simpl sum_list_with. simpl length. rewrite plus_INR, S_INR. unfold Rdiv. lra.
Qed.

(** The observed values and one unseen value share the whole mass. *)
Lemma lidstone_sums_to_one (l : list string) (u : string) :
  u ∉ l →
  (Rsum (Lidstone.prob (lidstone_dist (fd_of l)) <$> remove_dups l)
   + Lidstone.prob (lidstone_dist (fd_of l)) u = 1)%R.
Proof.
  intros Hu.
  pose proof (lidstone_divisor_pos (length l) (length (remove_dups l))) as HD.
  erewrite (list_fmap_ext (Lidstone.prob (lidstone_dist (fd_of l)))
              (λ v, (INR (count v l) + 1 / 100)
                    / (INR (length l)
                       + INR (length (remove_dups l) + 1) * (1 / 100)))%R);
    [|intros i v _; by rewrite prob_lidstone_dist, fd_of_getitem, fd_of_N, fd_of_B].
  rewrite Rsum_smoothing, sum_counts.
  rewrite prob_lidstone_dist, fd_of_getitem, fd_of_N, fd_of_B, (count_zero u l Hu).
  rewrite plus_INR in *. simpl INR in *. field. lra.
Qed.

(** X3.  Each conditional distribution of a trained model is normalised: the
    probabilities of the distinct values seen under a condition, plus the
    probability of one value never seen under it, add up to 1. *)
Theorem distributions_sum_to_one (corpus test : list (list (string * string)))
    (c u : string) :
  ∃ m de dt,
    train (HMM_init corpus test) = Ok m ∧
    pd_getitem (emission_PD m) c = Ok de ∧
    pd_getitem (transition_PD m) c = Ok dt ∧
    (u ∉ samples_of c (emission_data corpus) →
     (Rsum (Lidstone.prob de <$> remove_dups (samples_of c (emission_data corpus)))
      + Lidstone.prob de u = 1)%R) ∧
    (u ∉ samples_of c (transition_data corpus) →
     (Rsum (Lidstone.prob dt <$> remove_dups (samples_of c (transition_data corpus)))
      + Lidstone.prob dt u = 1)%R).
Proof.
  destruct (train_total corpus test) as (m & Hm & _).
  exists m. do 2 eexists. split; [done|].
  split; [exact (trained_emission _ _ c Hm)|].
  split; [exact (trained_transition _ _ c Hm)|].
  simpl. split; apply lidstone_sums_to_one.
Qed.

Lemma lidstone_prob_lt (l : list string) (v1 v2 : string) :
  (Lidstone.prob (lidstone_dist (fd_of l)) v1
   < Lidstone.prob (lidstone_dist (fd_of l)) v2)%R
  ↔ count v1 l < count v2 l.
Proof.
  rewrite !prob_lidstone_dist, !fd_of_getitem.
  pose proof (lidstone_divisor_pos (FreqDist.N (fd_of l)) (FreqDist.B (fd_of l))) as HD.
  set (D := (INR (FreqDist.N (fd_of l))
             + INR (FreqDist.B (fd_of l) + 1) * (1 / 100))%R) in *.
  pose proof (Rinv_0_lt_compat _ HD) as Hinv. unfold Rdiv. split.
  - intros Hlt. apply INR_lt.
    apply (Rmult_lt_reg_r (/ D)) in Hlt; [lra | done].
  - intros Hlt%lt_INR. apply Rmult_lt_compat_r; [done | lra].
Qed.

(** X4.  Smoothing keeps the ranking of the counts: under any condition, a
    value has a smaller probability than another exactly when it was counted
    fewer times. *)
Theorem smoothing_preserves_count_order (corpus test : list (list (string * string)))
    (c v1 v2 : string) :
  ∃ m de dt,
    train (HMM_init corpus test) = Ok m ∧
    pd_getitem (emission_PD m) c = Ok de ∧
    pd_getitem (transition_PD m) c = Ok dt ∧
    ((Lidstone.prob de v1 < Lidstone.prob de v2)%R
     ↔ count (c, v1) (emission_data corpus) < count (c, v2) (emission_data corpus)) ∧
    ((Lidstone.prob dt v1 < Lidstone.prob dt v2)%R
     ↔ count (c, v1) (transition_data corpus) < count (c, v2) (transition_data corpus)).
Proof.
  destruct (train_total corpus test) as (m & Hm & _).
  exists m. do 2 eexists. split; [done|].
  split; [exact (trained_emission _ _ c Hm)|].
  split; [exact (trained_transition _ _ c Hm)|].
  simpl. rewrite <- !count_samples_of. split; apply lidstone_prob_lt.
Qed.

(** ** Upper and lower case *)

Lemma lower_ascii_idemp (c : Ascii.ascii) :
  lower_ascii (lower_ascii c) = lower_ascii c.
Proof. destruct c as [[] [] [] [] [] [] [] []]; reflexivity. Qed.

Lemma lower_idemp (s : string) : lower (lower s) = lower s.
Proof. induction s as [|c s IH]; simpl; [done|]. by rewrite lower_ascii_idemp, IH. Qed.

Lemma concat_lowercased (corpus : list (list (string * string))) :
  concat (lowercased corpus)
  = (λ wt : string * string, (lower wt.1, wt.2)) <$> concat corpus.
Proof.
  unfold lowercased. induction corpus as [|s corpus IH]; [done|].
  rewrite fmap_cons. simpl concat. by rewrite fmap_app, IH.
Qed.

Lemma emission_data_lowercased (corpus : list (list (string * string))) :
  emission_data (lowercased corpus) = emission_data corpus.
Proof.
  unfold emission_data. rewrite concat_lowercased, <- list_fmap_compose.
  apply list_fmap_ext. intros i [w t] _. simpl. by rewrite lower_idemp.
Qed.

Lemma tags_lowercased (corpus : list (list (string * string))) :
  (concat (lowercased corpus)).*2 = (concat corpus).*2.
Proof. rewrite concat_lowercased, <- list_fmap_compose. by apply list_fmap_ext. Qed.

Lemma transition_data_lowercased (corpus : list (list (string * string))) :
  transition_data (lowercased corpus) = transition_data corpus.
Proof.
  unfold transition_data. rewrite !tags_of_train. do 2 f_equal.
  unfold lowercased. rewrite <- list_fmap_compose.
  apply list_fmap_ext. intros i s _. simpl. unfold sentence_tags.
  do 2 f_equal. rewrite <- list_fmap_compose. by apply list_fmap_ext.
Qed.

(** X5.  Training does not depend on the case of the training words: the
    corpus and its lower-cased copy give the same emission model, the same
    transition model and the same list of tags. *)
Theorem training_ignores_case (corpus test : list (list (string * string))) :
  ∃ m1 m2,
    train (HMM_init corpus test) = Ok m1 ∧
    train (HMM_init (lowercased corpus) test) = Ok m2 ∧
    emission_PD m2 = emission_PD m1 ∧
    transition_PD m2 = transition_PD m1 ∧
    states m2 = states m1.
Proof.
  do 2 eexists. split; [apply train_Ok|]. split; [apply train_Ok|].
  simpl. unfold emission_FD, transition_FD.
  by rewrite emission_data_lowercased, transition_data_lowercased, tags_lowercased.
Qed.

Lemma emission_data_lower (corpus : list (list (string * string)))
    (s w : string) :
  (s, w) ∈ emission_data corpus → lower w = w.
Proof.
  unfold emission_data. intros ([w' t] & [= -> ->] & _)%list_elem_of_fmap.
  apply lower_idemp.
Qed.

(** X6.  [elprob] looks the word up as it is given: a word that is not in
    lower case never matches the lower-cased training words, so under every
    tag it gets the probability of an unseen word, even when it occurs in
    the training data. *)
Theorem elprob_is_case_sensitive (corpus test : list (list (string * string)))
    (s w : string) :
  lower w ≠ w →
  ∃ m, train (HMM_init corpus test) = Ok m ∧
       elprob m s w = Ok (ln (unseen_mass (emission_data corpus) s) / ln 2)%R.
Proof.
  intros Hw. destruct (train_total corpus test) as (m & Hm & Hest & _).
  exists m. split; [done|].
  destruct Hest as [_ Hel]. rewrite Hel, (trained_el _ _ s w Hm). simpl train_data.
  do 3 f_equal. unfold smoothed, unseen_mass.
  rewrite (count_zero (s, w)); [simpl INR; by rewrite Rplus_0_l|].
  intros Hin. by apply Hw, (emission_data_lower corpus s).
Qed.

Lemma elprob_is_case_sensitive_witness :
  lower "Dog" ≠ "Dog" ∧
  (∃ m, train (HMM_init [[("Dog", "NOUN")]] []) = Ok m ∧
        elprob m "NOUN" "Dog"
        = Ok (ln (unseen_mass (emission_data [[("Dog", "NOUN")]]) "NOUN") / ln 2)%R).
Proof.
  assert (H : lower "Dog" ≠ "Dog") by (vm_compute; discriminate).
  split; [exact H | exact (elprob_is_case_sensitive [[("Dog", "NOUN")]] [] "NOUN" "Dog" H)].
Defined.

(** ** Conditions the transition model never saw *)

Lemma bigrams_fst {A : Type} (x : A) (l : list A) : x ∈ (bigrams l).*1 → x ∈ l.
Proof.
  induction l as [|a [|b l] IH]; simpl.
  - by intros ?%not_elem_of_nil.
  - by intros ?%not_elem_of_nil.
  - intros [->|Hx]%elem_of_cons; [apply list_elem_of_here|].
    apply list_elem_of_further. by apply IH.
Qed.

Lemma elem_of_sentence_tags (corpus : list (list (string * string))) (a : string) :
  a ∈ concat (sentence_tags <$> corpus) →
  a = "<s>" ∨ a = "</s>" ∨ a ∈ (concat corpus).*2.
Proof.
  intros (l & (s & -> & Hs)%list_elem_of_fmap & Ha)%elem_of_concat.
  unfold sentence_tags in Ha.
  apply elem_of_cons in Ha as [->|Ha]; [by left|].
  apply elem_of_app in Ha as [Ha|Ha%list_elem_of_singleton]; [|by right; left].
  right; right. apply list_elem_of_fmap in Ha as ([w t] & -> & Hwt).
  apply elem_of_concat_snd. by exists s, w.
Qed.

(** X7.  [tlprob] with a first tag that is neither a boundary symbol nor a
    tag of the training data raises nothing and returns 0, whatever the
    second tag. *)
Theorem tlprob_unseen_condition (corpus test : list (list (string * string)))
    (a b : string) :
  a ≠ "<s>" → a ≠ "</s>" → a ∉ (concat corpus).*2 →
  ∃ m, train (HMM_init corpus test) = Ok m ∧ tlprob m a b = Ok 0%R.
Proof.
  intros Hs He Ha. destruct (train_total corpus test) as (m & Hm & _).
  exists m. split; [done|]. unfold tlprob.
  rewrite (trained_transition _ _ a Hm). simpl.
  rewrite samples_of_nil.
  { rewrite prob_unseen_condition, math_log_Ok by lra. by rewrite log2_one. }
  intros Hin%bigrams_fst. rewrite tags_of_train in Hin.
  apply elem_of_sentence_tags in Hin as [?|[?|?]]; done.
Qed.

Lemma tlprob_unseen_condition_witness :
  "ADJ" ≠ "<s>" ∧ "ADJ" ≠ "</s>" ∧ ("ADJ" ∉ (concat example_corpus).*2) ∧
  (∃ m, train (HMM_init example_corpus []) = Ok m ∧ tlprob m "ADJ" "NOUN" = Ok 0%R).
Proof.
  assert (H1 : "ADJ" ≠ "<s>") by discriminate.
  assert (H2 : "ADJ" ≠ "</s>") by discriminate.
  assert (H3 : "ADJ" ∉ (concat example_corpus).*2).
  { apply (bool_decide_unpack _). vm_compute. exact I. }
  split; [exact H1|]. split; [exact H2|]. split; [exact H3|].
  exact (tlprob_unseen_condition example_corpus [] "ADJ" "NOUN" H1 H2 H3).
Defined.

(** ** The life cycle of the object *)

(** The first candidate of the termination step fails when the cost table
    is still the empty list. *)
Lemma final_candidate_uninitialised (self : HMM) (obs : list string) (s : string) :
  estimated self → viterbi self = EmptyList →
  final_candidate self obs s = Raise TypeError.
Proof.
  intros [Htl _] Hv. unfold final_candidate.
  destruct (tlprob_inv _ _ _ _ (Htl s "</s>")) as (dt & Hdt & Hlt).
  rewrite Hdt. simpl. rewrite Hlt. simpl.
  unfold get_viterbi_value. by rewrite Hv.
Qed.

Lemma tag_uninitialised (self : HMM) (obs : list string) :
  estimated self → viterbi self = EmptyList → states self ≠ [] →
  tag self obs = Raise TypeError.
Proof.
  intros Hest Hv Hne. destruct (states self) as [|s0 l] eqn:Hst; [done|].
  unfold tag. rewrite range_from_1.
  destruct obs as [|o1 [|o2 rest]].
  - simpl. rewrite Hst. simpl.
    by rewrite final_candidate_uninitialised.
  - simpl. rewrite Hst. simpl.
    by rewrite final_candidate_uninitialised.
  - replace (length (o1 :: o2 :: rest) - 1) with (S (length rest)) by (simpl; lia).
    simpl. unfold tag_step. rewrite Hst. simpl.
    unfold tag_state. rewrite Hst. simpl.
    unfold candidate, get_viterbi_value. by rewrite Hv.
Qed.

(** X8.  A trained object on which [initialise] was never called cannot
    decode: with at least one tagged word in the corpus, [tag] raises
    [TypeError] for every sentence, and so do both table accessors for all
    arguments (the tables are still the empty lists of the constructor). *)
Theorem tag_before_initialise (corpus test : list (list (string * string))) :
  concat corpus ≠ [] →
  ∃ m, train (HMM_init corpus test) = Ok m ∧
    (∀ obs, tag m obs = Raise TypeError) ∧
    (∀ s i, get_viterbi_value m s i = Raise TypeError) ∧
    (∀ s i, get_backpointer_value m s i = Raise TypeError).
Proof.
  intros Hcorpus. destruct (train_total corpus test) as (m & Hm & Hest & _ & Hne).
  exists m. split; [done|].
  assert (Htab : viterbi m = EmptyList ∧ backpointer m = EmptyList).
  { rewrite train_Ok in Hm. by injection Hm as <-. }
  destruct Htab as [Hv Hb]. split; [|split].
  - intros obs. apply tag_uninitialised; auto.
  - intros s i. unfold get_viterbi_value. by rewrite Hv.
  - intros s i. unfold get_backpointer_value. by rewrite Hb.
Qed.

Lemma tag_before_initialise_witness :
  concat example_corpus ≠ [] ∧
  ∃ m, train (HMM_init example_corpus []) = Ok m ∧
    (∀ obs, tag m obs = Raise TypeError) ∧
    (∀ s i, get_viterbi_value m s i = Raise TypeError) ∧
    (∀ s i, get_backpointer_value m s i = Raise TypeError).
Proof.
  assert (H : concat example_corpus ≠ []) by (simpl; discriminate).
  split; [exact H | exact (tag_before_initialise example_corpus [] H)].
Defined.

(** X9.  An object that was constructed but not trained has no model and no
    tag: [elprob] and [tlprob] raise [TypeError] for all arguments,
    [initialise] succeeds and leaves two empty dictionaries, and [tag]
    raises [ValueError] for every sentence, before and after
    [initialise]. *)
Theorem untrained_object (corpus test : list (list (string * string))) :
  let self := HMM_init corpus test in
  (∀ s w, elprob self s w = Raise TypeError) ∧
  (∀ a b, tlprob self a b = Raise TypeError) ∧
  (∀ obs, tag self obs = Raise ValueError) ∧
  (∀ w, initialise self w = Ok (set_tables self (Dict ∅) (Dict ∅))) ∧
  (∀ obs, tag (set_tables self (Dict ∅) (Dict ∅)) obs = Raise ValueError).
Proof.
  simpl. repeat split; try done; intros obs; by apply tag_no_states.
Qed.

(** X10.  Training again changes nothing: [train] on a trained object
    returns the same object, whatever its tables hold. *)
Theorem train_idempotent (self m : HMM) :
  train self = Ok m → train m = Ok m.
Proof.
  rewrite train_Ok. intros [= <-]. by rewrite train_Ok.
Qed.

Lemma train_idempotent_witness :
  ∃ m, train (HMM_init example_corpus []) = Ok m ∧ train m = Ok m.
Proof.
  eexists. split; [apply train_Ok|].
  apply (train_idempotent (HMM_init example_corpus [])). apply train_Ok.
Defined.

(** ** The tables after decoding *)

(** Training, [initialise] and [tag] on a non-empty sentence, in one step. *)
Lemma decode_Ok (m : HMM) (w : string) (rest : list string) :
  estimated m → NoDup (states m) → states m ≠ [] →
  ∃ self0 self',
    initialise m w = Ok self0 ∧
    trellis m w (w :: rest) 0 self0 ∧
    tag self0 (w :: rest)
    = Ok (self', reverse (back m w (w :: rest) (length rest)
                            (best_last m w (w :: rest) (length rest)))) ∧
    trellis m w (w :: rest) (length rest) self'.
Proof.
  intros Hest Hnd Hne.
  destruct (initialise_trellis m w (w :: rest) Hest) as (self0 & Hinit & Htr).
  destruct (tag_Ok m Hest Hnd Hne w (w :: rest) self0 (length rest) eq_refl Htr)
    as (self' & Htag & Htr').
  by exists self0, self'.
Qed.

(** Subscripting a list answers exactly for the indices from [-len] to
    [len - 1]. *)
Lemma list_getitem_in_range {A : Type} (l : list A) (i : Z) :
  (- Z.of_nat (length l) <= i < Z.of_nat (length l))%Z →
  ∃ x, list_getitem l i = Ok x.
Proof.
  intros Hi. unfold list_getitem. cbv zeta.
  destruct (i <? 0)%Z eqn:Hneg.
  - apply Z.ltb_lt in Hneg.
    assert (Hj : (i + Z.of_nat (length l) <? 0)%Z = false) by (apply Z.ltb_ge; lia).
    rewrite Hj.
    destruct (lookup_lt_is_Some_2 l (Z.to_nat (i + Z.of_nat (length l)))) as [x Hx];
      [lia|]. rewrite Hx. by exists x.
  - rewrite Hneg. apply Z.ltb_ge in Hneg.
    destruct (lookup_lt_is_Some_2 l (Z.to_nat i)) as [x Hx]; [lia|].
    rewrite Hx. by exists x.
Qed.

Lemma list_getitem_outside {A : Type} (l : list A) (i : Z) :
  ¬ (- Z.of_nat (length l) <= i < Z.of_nat (length l))%Z →
  list_getitem l i = Raise IndexError.
Proof.
  intros Hi. unfold list_getitem. cbv zeta.
  destruct (i <? 0)%Z eqn:Hneg.
  - apply Z.ltb_lt in Hneg.
    assert (Hj : (i + Z.of_nat (length l) <? 0)%Z = true) by (apply Z.ltb_lt; lia).
    by rewrite Hj.
  - rewrite Hneg. apply Z.ltb_ge in Hneg.
    rewrite lookup_ge_None_2; [done | lia].
Qed.

Lemma list_getitem_from_end {A : Type} (l : list A) (i : Z) :
  (- Z.of_nat (length l) <= i < 0)%Z →
  list_getitem l i = list_getitem l (i + Z.of_nat (length l)).
Proof.
  intros Hi. unfold list_getitem. cbv zeta.
  assert (H1 : (i <? 0)%Z = true) by (apply Z.ltb_lt; lia).
  assert (H2 : (i + Z.of_nat (length l) <? 0)%Z = false) by (apply Z.ltb_ge; lia).
  by rewrite H1, !H2.
Qed.

Lemma Vcol_length (m : HMM) (w : string) (obs : list string) (T : nat) (s : string) :
  length (Vcol m w obs T s) = S T.
Proof. unfold Vcol. by rewrite length_fmap, length_seq. Qed.

Lemma Bcol_length (m : HMM) (w : string) (obs : list string) (T : nat) (s : string) :
  length (Bcol m w obs T s) = S T.
Proof. unfold Bcol. by rewrite length_fmap, length_seq. Qed.

(** What the two accessors do on an object that holds a trellis. *)
Lemma trellis_getitem (m : HMM) (w : string) (obs : list string) (T : nat)
    (self : HMM) (s : string) (i : Z) :
  trellis m w obs T self →
  (s ∈ states m →
   get_viterbi_value self s i = list_getitem (Vcol m w obs T s) i ∧
   get_backpointer_value self s i = list_getitem (Bcol m w obs T s) i) ∧
  (s ∉ states m →
   get_viterbi_value self s i = Raise KeyError ∧
   get_backpointer_value self s i = Raise KeyError).
Proof.
  intros (dv & db & -> & Hin & Hout). split; intros Hs.
  - destruct (Hin s Hs) as [Hv Hb].
    by rewrite (get_viterbi_value_tables _ _ _ _ _ _ Hv),
               (get_backpointer_value_tables _ _ _ _ _ _ Hb).
  - destruct (Hout s Hs) as [Hv Hb].
    unfold get_viterbi_value, get_backpointer_value. simpl.
    unfold dict_getitem. by rewrite Hv, Hb.
Qed.

(** X11.  After decoding a sentence of [n >= 1] words, both tables have one
    row of exactly [n] entries per tag: the accessors answer for a tag of
    [states] and a step from [-n] to [n - 1], raise [IndexError] for a tag
    of [states] and any other step, and raise [KeyError] for every other
    tag. *)
Theorem accessor_domain (corpus test : list (list (string * string)))
    (w : string) (rest : list string) :
  concat corpus ≠ [] →
  ∃ m self0 self' tags,
    train (HMM_init corpus test) = Ok m ∧
    initialise m w = Ok self0 ∧
    tag self0 (w :: rest) = Ok (self', tags) ∧
    ∀ (s : string) (i : Z),
      let n := Z.of_nat (length (w :: rest)) in
      (s ∈ states m → (- n <= i < n)%Z →
       ∃ v bp, get_viterbi_value self' s i = Ok v ∧
               get_backpointer_value self' s i = Ok bp) ∧
      (s ∈ states m → ¬ (- n <= i < n)%Z →
       get_viterbi_value self' s i = Raise IndexError ∧
       get_backpointer_value self' s i = Raise IndexError) ∧
      (s ∉ states m →
       get_viterbi_value self' s i = Raise KeyError ∧
       get_backpointer_value self' s i = Raise KeyError).
Proof.
  intros Hcorpus.
  destruct (train_total corpus test) as (m & Hm & Hest & Hnd & Hne).
  specialize (Hne Hcorpus).
  destruct (decode_Ok m w rest Hest Hnd Hne) as (self0 & self' & Hinit & _ & Htag & Htr).
  exists m, self0, self'. eexists. split; [done|]. split; [done|].
  split; [exact Htag|]. intros s i n.
  destruct (trellis_getitem m w _ _ self' s i Htr) as [Hin Hout].
  assert (Hlv : Z.of_nat (length (Vcol m w (w :: rest) (length rest) s)) = n)
    by (by rewrite Vcol_length).
  assert (Hlb : Z.of_nat (length (Bcol m w (w :: rest) (length rest) s)) = n)
    by (by rewrite Bcol_length).
  split; [|split].
  - intros Hs Hi. destruct (Hin Hs) as [-> ->].
    destruct (list_getitem_in_range (Vcol m w (w :: rest) (length rest) s) i)
      as [v Hv]; [by rewrite Hlv|].
    destruct (list_getitem_in_range (Bcol m w (w :: rest) (length rest) s) i)
      as [bp Hbp]; [by rewrite Hlb|].
    by exists v, bp.
  - intros Hs Hi. destruct (Hin Hs) as [-> ->].
    split; apply list_getitem_outside; by rewrite ?Hlv, ?Hlb.
  - exact Hout.
Qed.

Lemma accessor_domain_witness :
  concat example_corpus ≠ [] ∧
  ∃ m self0 self' tags,
    train (HMM_init example_corpus []) = Ok m ∧
    initialise m "dog" = Ok self0 ∧
    tag self0 ["dog"; "runs"] = Ok (self', tags) ∧
    ∀ (s : string) (i : Z),
      let n := Z.of_nat (length ["dog"; "runs"]) in
      (s ∈ states m → (- n <= i < n)%Z →
       ∃ v bp, get_viterbi_value self' s i = Ok v ∧
               get_backpointer_value self' s i = Ok bp) ∧
      (s ∈ states m → ¬ (- n <= i < n)%Z →
       get_viterbi_value self' s i = Raise IndexError ∧
       get_backpointer_value self' s i = Raise IndexError) ∧
      (s ∉ states m →
       get_viterbi_value self' s i = Raise KeyError ∧
       get_backpointer_value self' s i = Raise KeyError).
Proof.
  assert (H : concat example_corpus ≠ []) by (simpl; discriminate).
  split; [exact H | exact (accessor_domain example_corpus [] "dog" ["runs"] H)].
Defined.

(** X12.  A negative step counts back from the last word: after decoding
    [n >= 1] words, step [-k] reads the same entry as step [n - k] in both
    tables, so step [-1] is the step of the last word. *)
Theorem negative_step_counts_from_the_end (corpus test : list (list (string * string)))
    (w : string) (rest : list string) :
  concat corpus ≠ [] →
  ∃ m self0 self' tags,
    train (HMM_init corpus test) = Ok m ∧
    initialise m w = Ok self0 ∧
    tag self0 (w :: rest) = Ok (self', tags) ∧
    ∀ (s : string) (i : Z),
      let n := Z.of_nat (length (w :: rest)) in
      (- n <= i < 0)%Z →
      get_viterbi_value self' s i = get_viterbi_value self' s (i + n) ∧
      get_backpointer_value self' s i = get_backpointer_value self' s (i + n).
Proof.
  intros Hcorpus.
  destruct (train_total corpus test) as (m & Hm & Hest & Hnd & Hne).
  specialize (Hne Hcorpus).
  destruct (decode_Ok m w rest Hest Hnd Hne) as (self0 & self' & Hinit & _ & Htag & Htr).
  exists m, self0, self'. eexists. split; [done|]. split; [done|].
  split; [exact Htag|]. intros s i n Hi.
  destruct (trellis_getitem m w _ _ self' s i Htr) as [Hin Hout].
  destruct (trellis_getitem m w _ _ self' s (i + n) Htr) as [Hin' Hout'].
  destruct (decide (s ∈ states m)) as [Hs|Hs].
  - destruct (Hin Hs) as [-> ->]. destruct (Hin' Hs) as [-> ->].
    split.
    + rewrite list_getitem_from_end; rewrite Vcol_length; [done|exact Hi].
    + rewrite list_getitem_from_end; rewrite Bcol_length; [done|exact Hi].
  - destruct (Hout Hs) as [-> ->]. by destruct (Hout' Hs) as [-> ->].
Qed.

Lemma negative_step_counts_from_the_end_witness :
  concat example_corpus ≠ [] ∧
  ∃ m self0 self' tags,
    train (HMM_init example_corpus []) = Ok m ∧
    initialise m "dog" = Ok self0 ∧
    tag self0 ["dog"; "runs"] = Ok (self', tags) ∧
    ∀ (s : string) (i : Z),
      let n := Z.of_nat (length ["dog"; "runs"]) in
      (- n <= i < 0)%Z →
      get_viterbi_value self' s i = get_viterbi_value self' s (i + n) ∧
      get_backpointer_value self' s i = get_backpointer_value self' s (i + n).
Proof.
  assert (H : concat example_corpus ≠ []) by (simpl; discriminate).
  split; [exact H |
          exact (negative_step_counts_from_the_end example_corpus [] "dog" ["runs"] H)].
Defined.

(** ** The returned tags and the stored backpointers *)

Lemma reverse_back_S (m : HMM) (w : string) (obs : list string) (T : nat) (s : string) :
  reverse (back m w obs (S T) s)
  = reverse (back m w obs T (BP m w obs (S T) s)) ++ [s].
Proof. simpl back. by rewrite reverse_cons. Qed.

Lemma reverse_back_last (m : HMM) (w : string) (obs : list string) (T : nat)
    (s : string) :
  reverse (back m w obs T s) !! T = Some s.
Proof.
  destruct T as [|T]; [done|].
  rewrite reverse_back_S, lookup_app_r; rewrite reverse_back_length; [|lia].
  by replace (S T - S T) with 0 by lia.
Qed.

(** Each tag of the walk is the backpointer stored for its successor. *)
Lemma reverse_back_step (m : HMM) (w : string) (obs : list string) (T t : nat)
    (s : string) :
  t < T →
  ∃ cur, reverse (back m w obs T s) !! S t = Some cur ∧
         reverse (back m w obs T s) !! t = Some (BP m w obs (S t) cur).
Proof.
  revert s. induction T as [|T IH]; intros s Ht; [lia|].
  rewrite reverse_back_S.
  destruct (decide (t = T)) as [->|Hne].
  - exists s. split.
    + rewrite lookup_app_r; rewrite reverse_back_length; [|lia].
      by replace (S T - S T) with 0 by lia.
    + rewrite lookup_app_l by (rewrite reverse_back_length; lia).
      apply reverse_back_last.
  - destruct (IH (BP m w obs (S T) s)) as (cur & Hcur & Hprev); [lia|].
    exists cur. split.
    + rewrite lookup_app_l by (rewrite reverse_back_length; lia). exact Hcur.
    + rewrite lookup_app_l by (rewrite reverse_back_length; lia). exact Hprev.
Qed.

(** X13.  The returned tags are linked by the stored backpointers: for every
    position [t >= 1] of the sentence, the tag returned for word [t - 1] is
    the backpointer stored for the tag of word [t] at step [t]. *)
Theorem tags_follow_backpointers (corpus test : list (list (string * string)))
    (w : string) (rest : list string) :
  concat corpus ≠ [] →
  ∃ m self0 self' tags,
    train (HMM_init corpus test) = Ok m ∧
    initialise m w = Ok self0 ∧
    tag self0 (w :: rest) = Ok (self', tags) ∧
    ∀ t, 1 ≤ t < length (w :: rest) →
      ∃ cur prev,
        tags !! t = Some cur ∧ tags !! (t - 1) = Some prev ∧
        get_backpointer_value self' cur (Z.of_nat t) = Ok prev.
Proof.
  intros Hcorpus.
  destruct (train_total corpus test) as (m & Hm & Hest & Hnd & Hne).
  specialize (Hne Hcorpus).
  destruct (decode_Ok m w rest Hest Hnd Hne) as (self0 & self' & Hinit & _ & Htag & Htr).
  exists m, self0, self'. eexists. split; [done|]. split; [done|].
  split; [exact Htag|]. intros [|t] Ht; [lia|]. simpl in Ht.
  destruct (reverse_back_step m w (w :: rest) (length rest) t
              (best_last m w (w :: rest) (length rest))) as (cur & Hcur & Hprev);
    [lia|].
  exists cur, (BP m w (w :: rest) (S t) cur).
  split; [exact Hcur|]. split.
  { by replace (S t - 1) with t by lia. }
  assert (Hin : cur ∈ states m).
  { pose proof (reverse_back_in_states m w (w :: rest) (length rest) _ Hne
                  (best_last_in m w (w :: rest) (length rest) Hne)) as Hall.
    rewrite Forall_forall in Hall. apply Hall.
    by apply list_elem_of_lookup_2 in Hcur. }
  apply (trellis_accessors m w (w :: rest) (length rest) (S t) self' cur Htr);
    [lia | done].
Qed.

Lemma tags_follow_backpointers_witness :
  concat example_corpus ≠ [] ∧
  ∃ m self0 self' tags,
    train (HMM_init example_corpus []) = Ok m ∧
    initialise m "dog" = Ok self0 ∧
    tag self0 ["dog"; "runs"] = Ok (self', tags) ∧
    ∀ t, 1 ≤ t < length ["dog"; "runs"] →
      ∃ cur prev,
        tags !! t = Some cur ∧ tags !! (t - 1) = Some prev ∧
        get_backpointer_value self' cur (Z.of_nat t) = Ok prev.
Proof.
  assert (H : concat example_corpus ≠ []) by (simpl; discriminate).
  split; [exact H | exact (tags_follow_backpointers example_corpus [] "dog" ["runs"] H)].
Defined.

(** ** The termination step *)

Lemma trellis_final_cost (m : HMM) (w : string) (obs : list string) (T : nat)
    (self : HMM) (p : string) :
  estimated m → trellis m w obs T self → p ∈ states m →
  final_cost self (S T) p (final m w obs T p).1.
Proof.
  intros [Htl _] Htr Hp.
  destruct (trellis_accessors m w obs T T self p Htr (le_n T) Hp) as [Hv _].
  destruct Htr as (dv & db & -> & _).
  exists (tl m p "</s>"), (V m w obs T p).
  replace (Z.of_nat (S T) - 1)%Z with (Z.of_nat T) by lia.
  split; [apply Htl|]. split; [exact Hv | done].
Qed.

Lemma last_reverse_back (m : HMM) (w : string) (obs : list string) (T : nat)
    (s : string) :
  last (reverse (back m w obs T s)) = Some s.
Proof. by rewrite last_reverse, back_head. Qed.

(** X14.  The tag returned for the last word is chosen by the termination
    step alone: among the tags of [states] it minimises
    [- log2 P(</s>|p) + viterbi[p][n-1]], and on a tie the tag that comes
    first in [states] wins (every earlier tag is strictly more expensive). *)
Theorem last_tag_is_first_minimum (corpus test : list (list (string * string)))
    (w : string) (rest : list string) :
  concat corpus ≠ [] →
  ∃ m self0 self' tags s c pre post,
    train (HMM_init corpus test) = Ok m ∧
    initialise m w = Ok self0 ∧
    tag self0 (w :: rest) = Ok (self', tags) ∧
    last tags = Some s ∧
    states m = pre ++ s :: post ∧
    final_cost self' (length (w :: rest)) s c ∧
    (∀ p, p ∈ pre → ∃ c', final_cost self' (length (w :: rest)) p c' ∧ (c < c')%R) ∧
    (∀ p, p ∈ post → ∃ c', final_cost self' (length (w :: rest)) p c' ∧ (c <= c')%R).
Proof.
  intros Hcorpus.
  destruct (train_total corpus test) as (m & Hm & Hest & Hnd & Hne).
  specialize (Hne Hcorpus).
  destruct (decode_Ok m w rest Hest Hnd Hne) as (self0 & self' & Hinit & _ & Htag & Htr).
  set (obs := w :: rest) in *. set (T := length rest) in *.
  destruct (first_min_spec (0%R, "") (final m w obs T <$> states m)
              (states_fmap_nonempty _ _ Hne)) as (pre' & post' & Heq & Hpre & Hpost).
  rewrite (best_last_final m w obs T Hne) in Heq, Hpre, Hpost.
  apply fmap_app_inv in Heq as (pre & post0 & -> & Hpost0 & Hst).
  symmetry in Hpost0.
  apply fmap_cons_inv in Hpost0 as (s & post & Hs & -> & ->).
  assert (Hs' : s = best_last m w obs T) by (by injection Hs).
  assert (Hin : ∀ p, p ∈ states m → final_cost self' (S T) p (final m w obs T p).1).
  { intros p Hp. by apply trellis_final_cost. }
  exists m, self0, self'. eexists. exists s, (final m w obs T s).1, pre, post.
  split; [done|]. split; [done|]. split; [exact Htag|].
  split; [rewrite Hs'; apply last_reverse_back|]. split; [done|].
  split; [|split].
  - apply Hin. rewrite Hst. apply elem_of_app. right. apply list_elem_of_here.
  - intros p Hp. exists (final m w obs T p).1. split.
    + apply Hin. rewrite Hst. apply elem_of_app. by left.
    + rewrite Hs'. apply (Hpre (final m w obs T p)). by apply list_elem_of_fmap_2.
  - intros p Hp. exists (final m w obs T p).1. split.
    + apply Hin. rewrite Hst. apply elem_of_app. right. by apply list_elem_of_further.
    + rewrite Hs'. apply (Hpost (final m w obs T p)). by apply list_elem_of_fmap_2.
Qed.

Lemma last_tag_is_first_minimum_witness :
  concat example_corpus ≠ [] ∧
  ∃ m self0 self' tags s c pre post,
    train (HMM_init example_corpus []) = Ok m ∧
    initialise m "dog" = Ok self0 ∧
    tag self0 ["dog"; "runs"] = Ok (self', tags) ∧
    last tags = Some s ∧
    states m = pre ++ s :: post ∧
    final_cost self' (length ["dog"; "runs"]) s c ∧
    (∀ p, p ∈ pre → ∃ c', final_cost self' (length ["dog"; "runs"]) p c' ∧ (c < c')%R) ∧
    (∀ p, p ∈ post → ∃ c', final_cost self' (length ["dog"; "runs"]) p c' ∧ (c <= c')%R).
Proof.
  assert (H : concat example_corpus ≠ []) by (simpl; discriminate).
  split; [exact H | exact (last_tag_is_first_minimum example_corpus [] "dog" ["runs"] H)].
Defined.

(** X15.  The cost the termination step computes for the returned last tag
    is the total cost of the returned tag sequence: the stored cost of that
    tag at the last step accounts for the start transition, every emission
    and every transition along the returned path. *)
Theorem final_cost_is_path_cost (corpus test : list (list (string * string)))
    (w : string) (rest : list string) :
  concat corpus ≠ [] →
  ∃ m self0 self' tags s,
    train (HMM_init corpus test) = Ok m ∧
    initialise m w = Ok self0 ∧
    tag self0 (w :: rest) = Ok (self', tags) ∧
    last tags = Some s ∧
    final_cost self' (length (w :: rest)) s (path_cost m (w :: rest) tags).
Proof.
  intros Hcorpus.
  destruct (train_total corpus test) as (m & Hm & Hest & Hnd & Hne).
  specialize (Hne Hcorpus).
  destruct (decode_Ok m w rest Hest Hnd Hne) as (self0 & self' & Hinit & _ & Htag & Htr).
  exists m, self0, self'. eexists. exists (best_last m w (w :: rest) (length rest)).
  split; [done|]. split; [done|]. split; [exact Htag|].
  split; [apply last_reverse_back|].
  unfold path_cost. rewrite last_reverse_back, prefix_cost_back by (simpl; done || lia).
  simpl default.
  pose proof (trellis_final_cost m w (w :: rest) (length rest) self'
                (best_last m w (w :: rest) (length rest)) Hest Htr
                (best_last_in m w _ _ Hne)) as Hfc.
  simpl in Hfc |- *.
  replace (V m w (w :: rest) (length rest) (best_last m w (w :: rest) (length rest))
           + - tl m (best_last m w (w :: rest) (length rest)) "</s>")%R
    with (- tl m (best_last m w (w :: rest) (length rest)) "</s>"
          + V m w (w :: rest) (length rest) (best_last m w (w :: rest) (length rest)))%R
    by lra.
  exact Hfc.
Qed.

Lemma final_cost_is_path_cost_witness :
  concat example_corpus ≠ [] ∧
  ∃ m self0 self' tags s,
    train (HMM_init example_corpus []) = Ok m ∧
    initialise m "dog" = Ok self0 ∧
    tag self0 ["dog"; "runs"] = Ok (self', tags) ∧
    last tags = Some s ∧
    final_cost self' (length ["dog"; "runs"]) s (path_cost m ["dog"; "runs"] tags).
Proof.
  assert (H : concat example_corpus ≠ []) by (simpl; discriminate).
  split; [exact H | exact (final_cost_is_path_cost example_corpus [] "dog" ["runs"] H)].
Defined.

(** ** Every stored cost is positive *)

Lemma count_le_length {A : Type} `{EqDecision A} (x : A) (l : list A) :
  count x l ≤ length l.
Proof.
  induction l as [|y l IH]; [done|]. rewrite count_cons. simpl length.
  destruct (decide (x = y)); lia.
Qed.

Lemma samples_of_nonempty (data : list (string * string)) (c : string) :
  c ∈ data.*1 → samples_of c data ≠ [].
Proof.
  intros ([c' v] & Hc & Hin)%list_elem_of_fmap Hnil. simpl in Hc. subst c'.
  assert (Hv : v ∈ samples_of c data).
  { unfold samples_of. apply list_elem_of_fmap. exists (c, v). split; [done|].
    by apply list_elem_of_filter. }
  rewrite Hnil in Hv. by apply not_elem_of_nil in Hv.
Qed.

(** Under a condition that was seen, no value has probability 1. *)
Lemma smoothed_lt_1 (data : list (string * string)) (c v : string) :
  c ∈ data.*1 → (0 < smoothed data c v < 1)%R.
Proof.
  intros Hc%samples_of_nonempty. unfold smoothed.
  rewrite <- count_samples_of.
  set (l := samples_of c data) in *.
  pose proof (lidstone_divisor_pos (length l) (length (remove_dups l))) as HD.
  pose proof (count_le_length v l) as Hle%le_INR.
  pose proof (pos_INR (count v l)) as Hpos.
  assert (HB : (2 <= INR (length (remove_dups l) + 1))%R).
  { destruct l as [|x l'] eqn:Hl; [done|].
    assert (Hx : x ∈ remove_dups (x :: l'))
      by apply elem_of_remove_dups, list_elem_of_here.
    destruct (remove_dups (x :: l')) as [|y r]; [by apply not_elem_of_nil in Hx|].
    rewrite plus_INR. simpl length. rewrite S_INR. simpl INR.
    pose proof (pos_INR (length r)). lra. }
  split.
  - apply Rdiv_lt_0_compat; lra.
  - apply (Rmult_lt_reg_r (INR (length l)
                           + INR (length (remove_dups l) + 1) * (1 / 100))); [done|].
    unfold Rdiv at 1. rewrite Rmult_assoc, Rinv_l by lra. lra.
Qed.

Lemma trained_el_negative (self m : HMM) (s w : string) :
  train self = Ok m → s ∈ states m → (el m s w < 0)%R.
Proof.
  intros Hm Hs. rewrite (trained_el _ _ s w Hm), <- log2_one.
  apply log2_lt.
  rewrite (trained_states _ _ Hm), elem_of_unique_list,
    <- emission_data_conditions in Hs.
  pose proof (smoothed_lt_1 _ s w Hs). lra.
Qed.

Lemma trained_tl_nonpositive (self m : HMM) (a b : string) :
  train self = Ok m → (tl m a b <= 0)%R.
Proof.
  intros Hm. pose proof (trained_calibrated _ _ Hm) as Hcal.
  rewrite (calibrated_tl _ _ _ Hcal). apply log2_nonpos.
  destruct Hcal as [Ht _]. apply Ht.
Qed.

Lemma V_positive (self m : HMM) (w : string) (obs : list string) (t : nat)
    (s : string) :
  train self = Ok m → s ∈ states m → (0 < V m w obs t s)%R.
Proof.
  intros Hm. revert s. induction t as [|t IH]; intros s Hs.
  - simpl. pose proof (trained_tl_nonpositive _ _ "<s>" s Hm).
    pose proof (trained_el_negative _ _ s w Hm Hs). lra.
  - assert (Hne : states m ≠ []).
    { intros Hnil. rewrite Hnil in Hs. by apply not_elem_of_nil in Hs. }
    simpl V.
    destruct (best_prev_in m (V m w obs t) (obs_at obs (S t)) s Hne) as [Hin ->].
    simpl.
    pose proof (IH _ Hin).
    pose proof (trained_tl_nonpositive _ _
                  (best_prev m (V m w obs t) (obs_at obs (S t)) s).2 s Hm).
    pose proof (trained_el_negative _ _ s (obs_at obs (S t)) Hm Hs). lra.
Qed.

(** X16.  No entry of the cost table is zero: every value
    [get_viterbi_value] returns, after [initialise] or after [tag], is
    strictly positive, because a tag of the training data never emits a word
    with probability 1. *)
Theorem stored_costs_are_positive (corpus test : list (list (string * string)))
    (w : string) (rest : list string) :
  concat corpus ≠ [] →
  ∃ m self0 self' tags,
    train (HMM_init corpus test) = Ok m ∧
    initialise m w = Ok self0 ∧
    tag self0 (w :: rest) = Ok (self', tags) ∧
    (∀ s w', s ∈ states m → ∃ le, elprob m s w' = Ok le ∧ (le < 0)%R) ∧
    (∀ s i x, get_viterbi_value self0 s i = Ok x → (0 < x)%R) ∧
    (∀ s i x, get_viterbi_value self' s i = Ok x → (0 < x)%R).
Proof.
  intros Hcorpus.
  destruct (train_total corpus test) as (m & Hm & Hest & Hnd & Hne).
  specialize (Hne Hcorpus).
  destruct (decode_Ok m w rest Hest Hnd Hne)
    as (self0 & self' & Hinit & Htr0 & Htag & Htr).
  exists m, self0, self'. eexists. split; [done|]. split; [done|].
  split; [exact Htag|]. split; [|split].
  - intros s w' Hs. exists (el m s w'). split; [apply Hest|].
    by apply (trained_el_negative _ _ s w' Hm).
  - intros s i x Hx.
    apply (trellis_lookup_inv _ _ _ _ _ _ _ _ Htr0) in Hx as (Hs & t & _ & ->).
    by apply (V_positive _ _ _ _ _ _ Hm).
  - intros s i x Hx.
    apply (trellis_lookup_inv _ _ _ _ _ _ _ _ Htr) in Hx as (Hs & t & _ & ->).
    by apply (V_positive _ _ _ _ _ _ Hm).
Qed.

Lemma stored_costs_are_positive_witness :
  concat example_corpus ≠ [] ∧
  ∃ m self0 self' tags,
    train (HMM_init example_corpus []) = Ok m ∧
    initialise m "dog" = Ok self0 ∧
    tag self0 ["dog"; "runs"] = Ok (self', tags) ∧
    (∀ s w', s ∈ states m → ∃ le, elprob m s w' = Ok le ∧ (le < 0)%R) ∧
    (∀ s i x, get_viterbi_value self0 s i = Ok x → (0 < x)%R) ∧
    (∀ s i x, get_viterbi_value self' s i = Ok x → (0 < x)%R).
Proof.
  assert (H : concat example_corpus ≠ []) by (simpl; discriminate).
  split; [exact H | exact (stored_costs_are_positive example_corpus [] "dog" ["runs"] H)].
Defined.

(** ** What [tag] leaves untouched *)

(** X17.  [tag] only appends to the rows of the two tables: the training and
    test data, both models and [states] are those of the trained object,
    and every entry that [initialise] stored is still read at the same
    non-negative step after [tag]. *)
Theorem tag_only_appends (corpus test : list (list (string * string)))
    (w : string) (rest : list string) :
  concat corpus ≠ [] →
  ∃ m self0 self' tags,
    train (HMM_init corpus test) = Ok m ∧
    initialise m w = Ok self0 ∧
    tag self0 (w :: rest) = Ok (self', tags) ∧
    train_data self' = corpus ∧ test_data self' = test ∧
    emission_PD self' = emission_PD m ∧
    transition_PD self' = transition_PD m ∧
    states self' = states m ∧
    (∀ s i x, (0 <= i)%Z → get_viterbi_value self0 s i = Ok x →
              get_viterbi_value self' s i = Ok x) ∧
    (∀ s i bp, (0 <= i)%Z → get_backpointer_value self0 s i = Ok bp →
               get_backpointer_value self' s i = Ok bp).
Proof.
  intros Hcorpus.
  destruct (train_total corpus test) as (m & Hm & Hest & Hnd & Hne).
  specialize (Hne Hcorpus).
  destruct (decode_Ok m w rest Hest Hnd Hne)
    as (self0 & self' & Hinit & Htr0 & Htag & Htr).
  exists m, self0, self'. eexists. split; [done|]. split; [done|].
  split; [exact Htag|].
  assert (Hdata : train_data m = corpus ∧ test_data m = test).
  { rewrite train_Ok in Hm. by injection Hm as <-. }
  assert (Hfields : train_data self' = train_data m ∧ test_data self' = test_data m ∧
                    emission_PD self' = emission_PD m ∧
                    transition_PD self' = transition_PD m ∧
                    states self' = states m).
  { by destruct Htr as (dv & db & -> & _). }
  destruct Hdata as [<- <-]. destruct Hfields as (-> & -> & -> & -> & ->).
  do 5 (split; [done|]).
  assert (Hstep0 : ∀ {A : Type} (x0 x : A) (i : Z),
            (0 <= i)%Z → list_getitem [x0] i = Ok x → i = 0%Z ∧ x = x0).
  { intros A x0 x i Hi. unfold list_getitem. cbv zeta.
    assert (Hneg : (i <? 0)%Z = false) by (apply Z.ltb_ge; lia).
    rewrite !Hneg. destruct (Z.to_nat i) as [|k] eqn:Hk.
    - intros [= <-]. split; [lia | done].
    - change ([x0] !! S k) with (@nil A !! k). by rewrite lookup_nil. }
  split.
  - intros s i x Hi Hx.
    destruct (trellis_getitem m w _ _ self0 s i Htr0) as [Hin Hout].
    destruct (decide (s ∈ states m)) as [Hs|Hs].
    + destruct (Hin Hs) as [Hv _]. rewrite Hv in Hx.
      apply Hstep0 in Hx as [-> ->]; [|done].
      apply (trellis_accessors m w (w :: rest) (length rest) 0 self' s Htr);
        [lia | done].
    + destruct (Hout Hs) as [Hv _]. by rewrite Hv in Hx.
  - intros s i bp Hi Hx.
    destruct (trellis_getitem m w _ _ self0 s i Htr0) as [Hin Hout].
    destruct (decide (s ∈ states m)) as [Hs|Hs].
    + destruct (Hin Hs) as [_ Hb]. rewrite Hb in Hx.
      apply Hstep0 in Hx as [-> ->]; [|done].
      apply (trellis_accessors m w (w :: rest) (length rest) 0 self' s Htr);
        [lia | done].
    + destruct (Hout Hs) as [_ Hb]. by rewrite Hb in Hx.
Qed.

Lemma tag_only_appends_witness :
  concat example_corpus ≠ [] ∧
  ∃ m self0 self' tags,
    train (HMM_init example_corpus []) = Ok m ∧
    initialise m "dog" = Ok self0 ∧
    tag self0 ["dog"; "runs"] = Ok (self', tags) ∧
    train_data self' = example_corpus ∧ test_data self' = [] ∧
    emission_PD self' = emission_PD m ∧
    transition_PD self' = transition_PD m ∧
    states self' = states m ∧
    (∀ s i x, (0 <= i)%Z → get_viterbi_value self0 s i = Ok x →
              get_viterbi_value self' s i = Ok x) ∧
    (∀ s i bp, (0 <= i)%Z → get_backpointer_value self0 s i = Ok bp →
               get_backpointer_value self' s i = Ok bp).
Proof.
  assert (H : concat example_corpus ≠ []) by (simpl; discriminate).
  split; [exact H | exact (tag_only_appends example_corpus [] "dog" ["runs"] H)].
Defined.

(** ** The driver: splitting the corpus *)

(** X18.  With at least 500 sentences, the split of [answers] is a
    partition: the training part followed by the test part is the corpus,
    and the test part holds the last 500 sentences. *)
Theorem split_corpus_partition {A : Type} (sents : list A) :
  500 ≤ length sents →
  (split_corpus sents).1 ++ (split_corpus sents).2 = sents ∧
  length (split_corpus sents).2 = 500 ∧
  length (split_corpus sents).1 = length sents - 500.
Proof.
  intros Hlen. unfold split_corpus, slice_to, slice_from, slice_index, test_size.
  cbv zeta. simpl fst. simpl snd. cbn [Z.opp].
  assert (H1 : (Z.of_nat (length sents) - 500 <? 0)%Z = false)
    by (apply Z.ltb_ge; lia).
  rewrite H1.
  replace (Z.to_nat (Z.min (Z.of_nat (length sents) - 500) (Z.of_nat (length sents))))
    with (length sents - 500) by lia.
  replace (Z.to_nat (Z.max (- (500) + Z.of_nat (length sents)) 0))
    with (length sents - 500) by lia.
  split; [apply take_drop|]. rewrite length_drop, length_take. lia.
Qed.

Lemma split_corpus_partition_witness :
  500 ≤ length (replicate 501 "s") ∧
  (split_corpus (replicate 501 "s")).1 ++ (split_corpus (replicate 501 "s")).2
  = replicate 501 "s" ∧
  length (split_corpus (replicate 501 "s")).2 = 500 ∧
  length (split_corpus (replicate 501 "s")).1 = length (replicate 501 "s") - 500.
Proof.
  assert (H : 500 ≤ length (replicate 501 "s")) by (rewrite length_replicate; lia).
  split; [exact H | exact (split_corpus_partition (replicate 501 "s") H)].
Defined.

(** X19.  With fewer than 500 sentences the split overlaps: the test part
    is the whole corpus, and the training part is a prefix of it (its first
    [2 * len - 500] sentences, none when [len <= 250]), so every training
    sentence is also a test sentence. *)
Theorem split_corpus_overlap {A : Type} (sents : list A) :
  length sents < 500 →
  (split_corpus sents).2 = sents ∧
  (split_corpus sents).1 = take (2 * length sents - 500) sents.
Proof.
  intros Hlen. unfold split_corpus, slice_to, slice_from, slice_index, test_size.
  cbv zeta. simpl fst. simpl snd. cbn [Z.opp].
  assert (H1 : (Z.of_nat (length sents) - 500 <? 0)%Z = true)
    by (apply Z.ltb_lt; lia).
  rewrite H1.
  replace (Z.to_nat (Z.max (- (500) + Z.of_nat (length sents)) 0)) with 0 by lia.
  replace (Z.to_nat (Z.max (Z.of_nat (length sents) - 500 + Z.of_nat (length sents)) 0))
    with (2 * length sents - 500) by lia.
  done.
Qed.

Lemma split_corpus_overlap_witness :
  length (replicate 300 "s") < 500 ∧
  (split_corpus (replicate 300 "s")).2 = replicate 300 "s" ∧
  (split_corpus (replicate 300 "s")).1
  = take (2 * length (replicate 300 "s") - 500) (replicate 300 "s").
Proof.
  assert (H : length (replicate 300 "s") < 500) by (rewrite length_replicate; lia).
  split; [exact H | exact (split_corpus_overlap (replicate 300 "s") H)].
Defined.

(** ** The helper [isclose] *)

(** X20.  [isclose] does not depend on the order of the two numbers. *)
Theorem isclose_symmetric (a b rel_tol abs_tol : R) :
  isclose a b rel_tol abs_tol = isclose b a rel_tol abs_tol.
Proof.
  unfold isclose. by rewrite (Rabs_minus_sym a b), (Rmax_comm (Rabs a) (Rabs b)).
Qed.


(** ** The driver: the accuracy check *)

Lemma for_in_app {S A : Type} (l1 l2 : list A) (body : S → A → result S) (s : S) :
  for_in (l1 ++ l2) body s = (s' ← for_in l1 body s; for_in l2 body s').
Proof.
  revert s. induction l1 as [|x l1 IH]; intros s; [done|]. simpl.
  destruct (body s x) as [s'|e]; [|done]. simpl. apply IH.
Qed.

(** The inner loop counts every compared pair once, and sets the flag
    exactly when it counts a wrong tag. *)
Lemma score_spec (l : list ((string * string) * string)) (acc : nat * nat * bool) :
  (foldl score_step acc l).1.1 + (foldl score_step acc l).1.2
  = acc.1.1 + acc.1.2 + length l ∧
  acc.1.2 ≤ (foldl score_step acc l).1.2 ∧
  ((foldl score_step acc l).2 = true
   ↔ acc.2 = true ∨ acc.1.2 < (foldl score_step acc l).1.2).
Proof.
  revert acc. induction l as [|x l IH]; intros acc.
  { simpl. split; [lia|]. split; [lia|]. split; [by left | intros [?|?]; [done|lia]]. }
  simpl foldl. destruct (IH (score_step acc x)) as (Hsum & Hmon & Hflag).
  rewrite Hsum, Hflag. clear IH Hsum Hflag. simpl length.
  unfold score_step in *. destruct (decide (x.2 = x.1.2)); simpl in *.
  - split; [lia|]. split; [lia|]. done.
  - split; [lia|]. split; [lia|]. split; [intros _; right; lia | by left].
Qed.

(** One round of the accuracy check on a model trained with at least one
    tag, whatever its tables hold. *)
Lemma evaluate_sentence_Ok (m : HMM) (st : tally)
    (wt : string * string) (rest : list (string * string)) :
  estimated m → NoDup (states m) → states m ≠ [] →
  (∃ v b, model st = set_tables m v b) →
  ∃ st',
    evaluate_sentence st (wt :: rest) = Ok st' ∧
    (∃ v b, model st' = set_tables m v b) ∧
    correct st' + incorrect st' = correct st + incorrect st + length (wt :: rest) ∧
    incorrect st ≤ incorrect st' ∧
    (incorrent_sent st' = incorrent_sent st ∧
     (incorrect st' = incorrect st ∨ 10 ≤ length (incorrent_sent st))
     ∨ (∃ tags, incorrent_sent st' = incorrent_sent st ++ [(wt :: rest, tags)]) ∧
       incorrect st < incorrect st' ∧ length (incorrent_sent st) < 10).
Proof.
  intros Hest Hnd Hne (v & b & Hmodel).
  set (rest' := (λ wt : string * string, lower wt.1) <$> rest).
  destruct (decode_Ok m (lower wt.1) rest' Hest Hnd Hne)
    as (self0 & self' & Hinit & _ & Htag & Htr).
  unfold evaluate_sentence. rewrite fmap_cons. fold rest'.
  change (list_getitem (lower wt.1 :: rest') 0) with (Ok (A := string) (lower wt.1)).
  rewrite bind_Ok, Hmodel.
  change (initialise (set_tables m v b) (lower wt.1)) with (initialise m (lower wt.1)).
  rewrite Hinit, bind_Ok, Htag, bind_Ok. cbv zeta. simpl fst. simpl snd.
  set (tags := reverse (back m (lower wt.1) (lower wt.1 :: rest') (length rest')
                          (best_last m (lower wt.1) (lower wt.1 :: rest')
                             (length rest')))).
  assert (Hlen : length (zip (wt :: rest) tags) = length (wt :: rest)).
  { rewrite length_zip_with. unfold tags. rewrite reverse_back_length.
    unfold rest'. rewrite length_fmap. simpl. lia. }
  destruct (score_spec (zip (wt :: rest) tags) (correct st, incorrect st, false))
    as (Hsum & Hmon & Hflag).
  rewrite Hlen in Hsum.
  fold (score (wt :: rest) tags (correct st, incorrect st, false)) in Hsum, Hmon, Hflag.
  set (sc := score (wt :: rest) tags (correct st, incorrect st, false)) in *.
  cbn [fst snd] in Hsum, Hmon, Hflag.
  eexists. split; [reflexivity|]. cbn [model correct incorrect incorrent_sent].
  split. { destruct Htr as (dv & db & -> & _). by exists (Dict dv), (Dict db). }
  split; [exact Hsum|]. split; [exact Hmon|].
  destruct (sc.2) eqn:Hinc; simpl.
  - assert (Hlt : incorrect st < sc.1.2).
    { destruct Hflag as [Hflag _]. destruct (Hflag eq_refl); [done|lia]. }
    destruct (length (incorrent_sent st) <? 10) eqn:Hten.
    + apply Nat.ltb_lt in Hten. right. split; [by exists tags|]. lia.
    + apply Nat.ltb_ge in Hten. left. split; [done|]. by right.
  - left. split; [done|]. left.
    destruct (decide (incorrect st < sc.1.2)) as [Hlt|Hge]; [|lia].
    destruct Hflag as [_ Hflag]. discriminate Hflag. by right.
Qed.

(** The tally of the accuracy check: what holds after every round. *)
Lemma evaluate_loop (m : HMM) (test : list (list (string * string))) (st : tally) :
  estimated m → NoDup (states m) → states m ≠ [] →
  Forall (λ sentence, sentence ≠ []) test →
  (∃ v b, model st = set_tables m v b) →
  length (incorrent_sent st) ≤ 10 →
  (incorrect st = 0 ↔ incorrent_sent st = []) →
  ∃ st',
    for_in test evaluate_sentence st = Ok st' ∧
    (∃ v b, model st' = set_tables m v b) ∧
    correct st' + incorrect st' = correct st + incorrect st + length (concat test) ∧
    length (incorrent_sent st') ≤ 10 ∧
    (incorrect st' = 0 ↔ incorrent_sent st' = []).
Proof.
  intros Hest Hnd Hne Htest. revert st.
  induction Htest as [|sentence test Hs Htest IH]; intros st Hmodel Hten Hzero.
  { exists st. simpl. repeat split; try done; try lia; apply Hzero. }
  destruct sentence as [|wt rest]; [done|].
  destruct (evaluate_sentence_Ok m st wt rest Hest Hnd Hne Hmodel)
    as (st1 & Hrun & Hmodel1 & Hsum1 & Hmon1 & Hrec).
  assert (Hten1 : length (incorrent_sent st1) ≤ 10).
  { destruct Hrec as [[-> _]|[[tags ->] [_ Hlt]]]; [done|].
    rewrite length_app. simpl. lia. }
  assert (Hzero1 : incorrect st1 = 0 ↔ incorrent_sent st1 = []).
  { destruct Hrec as [[-> [->|Hfull]]|[[tags ->] [Hlt _]]]; [done| |].
    - split.
      + intros H0. apply Hzero. lia.
      + intros Hnil. rewrite Hnil in Hfull. simpl in Hfull. lia.
    - split; [lia|]. intros Hnil. by apply app_eq_nil in Hnil as [_ ?]. }
  destruct (IH st1 Hmodel1 Hten1 Hzero1) as (st' & Hloop & Hmodel' & Hsum' & Hten' & Hzero').
  exists st'. simpl for_in. rewrite Hrun, bind_Ok.
  split; [exact Hloop|]. split; [exact Hmodel'|].
  split; [|by split].
  rewrite Hsum', Hsum1. rewrite concat_cons, length_app. lia.
Qed.

(** X22.  The accuracy check of [answers] on a model trained with at least
    one tagged word, whatever its tables held before, and a test set without
    an empty sentence: it raises nothing, every word of the test set is
    counted exactly once as correct or incorrect, at most 10 sentences are
    recorded, and none is recorded exactly when no tag was wrong. *)
Theorem evaluation_counts_every_word
    (corpus test0 test : list (list (string * string)))
    (v0 : table R) (b0 : table string) :
  concat corpus ≠ [] →
  Forall (λ sentence, sentence ≠ []) test →
  ∃ m st,
    train (HMM_init corpus test0) = Ok m ∧
    evaluate (set_tables m v0 b0) test = Ok st ∧
    correct st + incorrect st = length (concat test) ∧
    length (incorrent_sent st) ≤ 10 ∧
    (incorrect st = 0 ↔ incorrent_sent st = []).
Proof.
  intros Hcorpus Htest.
  destruct (train_total corpus test0) as (m & Hm & Hest & Hnd & Hne).
  specialize (Hne Hcorpus).
  destruct (evaluate_loop m test
              {| model := set_tables m v0 b0; correct := 0; incorrect := 0;
                 incorrent_sent := [] |} Hest Hnd Hne Htest)
    as (st & Hrun & _ & Hsum & Hten & Hzero).
  - by exists v0, b0.
  - simpl. lia.
  - done.
  - exists m, st. split; [done|]. split; [exact Hrun|]. by split.
Qed.

Lemma evaluation_counts_every_word_witness :
  concat example_corpus ≠ [] ∧
  Forall (λ sentence : list (string * string), sentence ≠ [])
    [[("Dogs", "NOUN"); ("sleep", "VERB")]] ∧
  ∃ m st,
    train (HMM_init example_corpus []) = Ok m ∧
    evaluate (set_tables m EmptyList EmptyList)
      [[("Dogs", "NOUN"); ("sleep", "VERB")]] = Ok st ∧
    correct st + incorrect st = length (concat [[("Dogs", "NOUN"); ("sleep", "VERB")]]) ∧
    length (incorrent_sent st) ≤ 10 ∧
    (incorrect st = 0 ↔ incorrent_sent st = []).
Proof.
  assert (H : concat example_corpus ≠ []) by (simpl; discriminate).
  assert (H' : Forall (λ sentence : list (string * string), sentence ≠ [])
                 [[("Dogs", "NOUN"); ("sleep", "VERB")]]).
  { apply Forall_cons. split; [discriminate | apply Forall_nil_2]. }
  split; [exact H|]. split; [exact H'|].
  exact (evaluation_counts_every_word example_corpus [] _ EmptyList EmptyList H H').
Defined.

(** X23.  An empty sentence in the test set stops the accuracy check: after
    any number of non-empty sentences, [s[0]] on the empty word list raises
    [IndexError], whatever follows. *)
Theorem evaluation_empty_sentence
    (corpus test0 pre post : list (list (string * string)))
    (v0 : table R) (b0 : table string) :
  concat corpus ≠ [] →
  Forall (λ sentence, sentence ≠ []) pre →
  ∃ m,
    train (HMM_init corpus test0) = Ok m ∧
    evaluate (set_tables m v0 b0) (pre ++ [] :: post) = Raise IndexError.
Proof.
  intros Hcorpus Hpre.
  destruct (train_total corpus test0) as (m & Hm & Hest & Hnd & Hne).
  specialize (Hne Hcorpus).
  destruct (evaluate_loop m pre
              {| model := set_tables m v0 b0; correct := 0; incorrect := 0;
                 incorrent_sent := [] |} Hest Hnd Hne Hpre)
    as (st & Hrun & _).
  - by exists v0, b0.
  - simpl. lia.
  - done.
  - exists m. split; [done|]. unfold evaluate. by rewrite for_in_app, Hrun.
Qed.

Lemma evaluation_empty_sentence_witness :
  concat example_corpus ≠ [] ∧
  Forall (λ sentence : list (string * string), sentence ≠ [])
    [[("Dogs", "NOUN"); ("sleep", "VERB")]] ∧
  ∃ m,
    train (HMM_init example_corpus []) = Ok m ∧
    evaluate (set_tables m EmptyList EmptyList)
      ([[("Dogs", "NOUN"); ("sleep", "VERB")]] ++ [] :: [[("cats", "NOUN")]])
    = Raise IndexError.
Proof.
  assert (H : concat example_corpus ≠ []) by (simpl; discriminate).
  assert (H' : Forall (λ sentence : list (string * string), sentence ≠ [])
                 [[("Dogs", "NOUN"); ("sleep", "VERB")]]).
  { apply Forall_cons. split; [discriminate | apply Forall_nil_2]. }
  split; [exact H|]. split; [exact H'|].
  exact (evaluation_empty_sentence example_corpus [] _ [[("cats", "NOUN")]]
           EmptyList EmptyList H H').
Defined.

(** ** The most probable tag sequence *)

Lemma path_cost_prob (m : HMM) (obs path : list string) :
  calibrated m →
  (0 < path_prob m obs path <= 1)%R ∧
  path_cost m obs path = (- (ln (path_prob m obs path) / ln 2))%R.
Proof.
  intros Hcal. unfold path_cost, path_prob.
  pose proof (prefix_prob_bounds m obs path Hcal) as Hp.
  pose proof (proj1 (proj1 Hcal (default "" (last path)) "</s>")) as Ht.
  split; [nra|].
  rewrite (prefix_cost_prob _ _ _ Hcal), (calibrated_tl _ _ _ Hcal).
  rewrite ln_mult by lra. unfold Rdiv. lra.
Qed.

(** X24.  [tag] returns a most probable tag sequence: the joint probability
    of the returned tags and the sentence (start transition, emissions,
    transitions and the transition to [</s>]) is at least that of every tag
    sequence of the same length over [states], and the total cost of the
    returned tags is [- log2] of that probability. *)
Theorem tag_maximises_probability (corpus test : list (list (string * string)))
    (w : string) (rest : list string) :
  concat corpus ≠ [] →
  ∃ m self0 self' tags,
    train (HMM_init corpus test) = Ok m ∧
    initialise m w = Ok self0 ∧
    tag self0 (w :: rest) = Ok (self', tags) ∧
    (0 < path_prob m (w :: rest) tags <= 1)%R ∧
    path_cost m (w :: rest) tags = (- (ln (path_prob m (w :: rest) tags) / ln 2))%R ∧
    ∀ path,
      length path = length (w :: rest) →
      Forall (λ t, t ∈ states m) path →
      (path_prob m (w :: rest) path <= path_prob m (w :: rest) tags)%R.
Proof.
  intros Hcorpus.
  destruct (train_total corpus test) as (m & Hm & Hest & Hnd & Hne).
  specialize (Hne Hcorpus).
  destruct (decode_Ok m w rest Hest Hnd Hne) as (self0 & self' & Hinit & _ & Htag & Htr).
  pose proof (trained_calibrated _ _ Hm) as Hcal.
  exists m, self0, self'. eexists. split; [done|]. split; [done|].
  split; [exact Htag|].
  split; [apply (path_cost_prob _ _ _ Hcal)|].
  split; [apply (path_cost_prob _ _ _ Hcal)|].
  intros path Hlen Hpath.
  pose proof (viterbi_optimal m w rest path Hne Hlen Hpath) as Hopt.
  cbv zeta in Hopt.
  destruct (path_cost_prob m (w :: rest) path Hcal) as [Hb1 Hc1].
  destruct (path_cost_prob m (w :: rest)
              (reverse (back m w (w :: rest) (length rest)
                          (best_last m w (w :: rest) (length rest)))) Hcal)
    as [Hb2 Hc2].
  rewrite Hc1, Hc2 in Hopt.
  apply Rnot_lt_le. intros Hlt.
  apply ln_increasing in Hlt; [|lra].
  pose proof ln_2_pos as H2. pose proof (Rinv_0_lt_compat _ H2) as Hinv.
  unfold Rdiv in Hopt. nra.
Qed.

Lemma tag_maximises_probability_witness :
  concat example_corpus ≠ [] ∧
  ∃ m self0 self' tags,
    train (HMM_init example_corpus []) = Ok m ∧
    initialise m "dog" = Ok self0 ∧
    tag self0 ["dog"; "runs"] = Ok (self', tags) ∧
    (0 < path_prob m ["dog"; "runs"] tags <= 1)%R ∧
    path_cost m ["dog"; "runs"] tags
    = (- (ln (path_prob m ["dog"; "runs"] tags) / ln 2))%R ∧
    ∀ path,
      length path = length ["dog"; "runs"] →
      Forall (λ t, t ∈ states m) path →
      (path_prob m ["dog"; "runs"] path <= path_prob m ["dog"; "runs"] tags)%R.
Proof.
  assert (H : concat example_corpus ≠ []) by (simpl; discriminate).
  split; [exact H | exact (tag_maximises_probability example_corpus [] "dog" ["runs"] H)].
Defined.

(** ** Words the model never saw *)

Lemma unseen_word_el (self m : HMM) (s w1 w2 : string) :
  train self = Ok m →
  unseen_word (train_data self) w1 → unseen_word (train_data self) w2 →
  el m s w1 = el m s w2.
Proof.
  intros Hm H1 H2. rewrite !(trained_el _ _ _ _ Hm). do 2 f_equal.
  unfold smoothed. rewrite !(count_zero (s, _)); [done| |].
  - intros Hin. apply H2. apply list_elem_of_fmap. by exists (s, w2).
  - intros Hin. apply H1. apply list_elem_of_fmap. by exists (s, w1).
Qed.

(** The trellis up to step [T0] depends on the words up to position [T0]
    only, and on them only through their emission costs. *)
Lemma V_BP_ext (m : HMM) (w1 w2 : string) (obs1 obs2 : list string) (T0 : nat) :
  (∀ s, el m s w1 = el m s w2) →
  (∀ t s, S t ≤ T0 → el m s (obs_at obs1 (S t)) = el m s (obs_at obs2 (S t))) →
  ∀ t s, t ≤ T0 →
    V m w1 obs1 t s = V m w2 obs2 t s ∧ BP m w1 obs1 t s = BP m w2 obs2 t s.
Proof.
  intros Hw Hobs. induction t as [|t IH]; intros s Ht.
  { simpl. by rewrite Hw. }
  assert (Heq : best_prev m (V m w1 obs1 t) (obs_at obs1 (S t)) s
                = best_prev m (V m w2 obs2 t) (obs_at obs2 (S t)) s).
  { unfold best_prev. f_equal. apply list_fmap_ext. intros i p _.
    unfold cand. rewrite (proj1 (IH p ltac:(lia))), Hobs by done. done. }
  simpl. by rewrite Heq.
Qed.

Lemma back_ext (m : HMM) (w1 w2 : string) (obs1 obs2 : list string) (T0 : nat) :
  (∀ t s, t ≤ T0 → BP m w1 obs1 t s = BP m w2 obs2 t s) →
  ∀ T s, T ≤ T0 → back m w1 obs1 T s = back m w2 obs2 T s.
Proof.
  intros Hbp. induction T as [|T IH]; intros s HT; [done|].
  cbn [back]. rewrite IH by lia. by rewrite (Hbp (S T) s HT).
Qed.

(** X25.  Unknown words are interchangeable.  Replace any words of a
    sentence that the training data does not contain (in lower case) by
    other such words: [initialise] and [tag] return the same tags, and the
    accessors return the same costs and backpointers. *)
Theorem unseen_words_are_interchangeable (corpus test : list (list (string * string)))
    (w1 w2 : string) (rest1 rest2 : list string) :
  concat corpus ≠ [] →
  Forall2 (λ a b, a = b ∨ (unseen_word corpus a ∧ unseen_word corpus b))
    (w1 :: rest1) (w2 :: rest2) →
  ∃ m self1 self1' self2 self2' tags,
    train (HMM_init corpus test) = Ok m ∧
    initialise m w1 = Ok self1 ∧ tag self1 (w1 :: rest1) = Ok (self1', tags) ∧
    initialise m w2 = Ok self2 ∧ tag self2 (w2 :: rest2) = Ok (self2', tags) ∧
    ∀ s i,
      get_viterbi_value self1' s i = get_viterbi_value self2' s i ∧
      get_backpointer_value self1' s i = get_backpointer_value self2' s i.
Proof.
  intros Hcorpus Hrel.
  destruct (train_total corpus test) as (m & Hm & Hest & Hnd & Hne).
  specialize (Hne Hcorpus).
  destruct (decode_Ok m w1 rest1 Hest Hnd Hne)
    as (self1 & self1' & Hinit1 & _ & Htag1 & Htr1).
  destruct (decode_Ok m w2 rest2 Hest Hnd Hne)
    as (self2 & self2' & Hinit2 & _ & Htag2 & Htr2).
  assert (Hel : ∀ a b s, a = b ∨ (unseen_word corpus a ∧ unseen_word corpus b) →
                         el m s a = el m s b).
  { intros a b s [->|[Ha Hb]]; [done|]. by apply (unseen_word_el _ _ s a b Hm). }
  assert (Hlen : length rest1 = length rest2).
  { apply Forall2_length in Hrel. simpl in Hrel. lia. }
  assert (Hw : ∀ s, el m s w1 = el m s w2).
  { intros s. apply Hel. by apply Forall2_cons_1 in Hrel as [? _]. }
  assert (Hobs : ∀ t s, el m s (obs_at (w1 :: rest1) (S t))
                        = el m s (obs_at (w2 :: rest2) (S t))).
  { intros t s. unfold obs_at.
    destruct ((w1 :: rest1) !! S t) as [a|] eqn:Ha.
    - destruct (Forall2_lookup_l _ _ _ _ _ Hrel Ha) as (b & Hb & Hab).
      rewrite Hb. simpl. by apply Hel.
    - assert (Hb : (w2 :: rest2) !! S t = None).
      { apply lookup_ge_None in Ha. apply lookup_ge_None. simpl in *. lia. }
      by rewrite Hb. }
  assert (Hext : ∀ t s, V m w1 (w1 :: rest1) t s = V m w2 (w2 :: rest2) t s ∧
                        BP m w1 (w1 :: rest1) t s = BP m w2 (w2 :: rest2) t s).
  { intros t s. apply (V_BP_ext m w1 w2 _ _ t Hw); [intros; apply Hobs | lia]. }
  assert (HV : ∀ T s, Vcol m w1 (w1 :: rest1) T s = Vcol m w2 (w2 :: rest2) T s).
  { intros T s. unfold Vcol. apply list_fmap_ext. intros i t _. apply Hext. }
  assert (HB : ∀ T s, Bcol m w1 (w1 :: rest1) T s = Bcol m w2 (w2 :: rest2) T s).
  { intros T s. unfold Bcol. apply list_fmap_ext. intros i t _. apply Hext. }
  assert (Hlast : best_last m w1 (w1 :: rest1) (length rest1)
                  = best_last m w2 (w2 :: rest2) (length rest2)).
  { rewrite Hlen. unfold best_last. do 2 f_equal. apply list_fmap_ext.
    intros i p _. unfold final. by rewrite (proj1 (Hext (length rest2) p)). }
  assert (Htags : reverse (back m w1 (w1 :: rest1) (length rest1)
                             (best_last m w1 (w1 :: rest1) (length rest1)))
                  = reverse (back m w2 (w2 :: rest2) (length rest2)
                               (best_last m w2 (w2 :: rest2) (length rest2)))).
  { rewrite Hlast, Hlen. f_equal.
    apply (back_ext _ _ _ _ _ (length rest2)); [intros t s _; apply Hext | lia]. }
  exists m, self1, self1', self2, self2'. eexists.
  split; [done|]. split; [done|]. split; [exact Htag1|]. split; [done|].
  split; [rewrite Htags; exact Htag2|].
  intros s i.
  destruct (trellis_getitem m w1 _ _ self1' s i Htr1) as [Hin1 Hout1].
  destruct (trellis_getitem m w2 _ _ self2' s i Htr2) as [Hin2 Hout2].
  destruct (decide (s ∈ states m)) as [Hs|Hs].
  - destruct (Hin1 Hs) as [-> ->]. destruct (Hin2 Hs) as [-> ->].
    by rewrite Hlen, HV, HB.
  - destruct (Hout1 Hs) as [-> ->]. by destruct (Hout2 Hs) as [-> ->].
Qed.

Lemma unseen_words_are_interchangeable_witness :
  concat example_corpus ≠ [] ∧
  Forall2 (λ a b, a = b ∨ (unseen_word example_corpus a ∧ unseen_word example_corpus b))
    ["zebra"; "runs"] ["Dog"; "runs"] ∧
  ∃ m self1 self1' self2 self2' tags,
    train (HMM_init example_corpus []) = Ok m ∧
    initialise m "zebra" = Ok self1 ∧ tag self1 ["zebra"; "runs"] = Ok (self1', tags) ∧
    initialise m "Dog" = Ok self2 ∧ tag self2 ["Dog"; "runs"] = Ok (self2', tags) ∧
    ∀ s i,
      get_viterbi_value self1' s i = get_viterbi_value self2' s i ∧
      get_backpointer_value self1' s i = get_backpointer_value self2' s i.
Proof.
  assert (H : concat example_corpus ≠ []) by (simpl; discriminate).
  assert (H' : Forall2 (λ a b, a = b ∨ (unseen_word example_corpus a
                                        ∧ unseen_word example_corpus b))
                 ["zebra"; "runs"] ["Dog"; "runs"]).
  { apply Forall2_cons. split.
    - right. split; apply (bool_decide_unpack _); vm_compute; exact I.
    - apply Forall2_cons. split; [by left | apply Forall2_nil_2]. }
  split; [exact H|]. split; [exact H'|].
  exact (unseen_words_are_interchangeable example_corpus [] _ _ _ _ H H').
Defined.

(** ** Calling [tag] again without [initialise] *)

Lemma trellis_is_prefix (m : HMM) (w : string) (obs : list string) (T : nat)
    (self : HMM) :
  trellis m w obs T self → trellis_prefix m w obs T self.
Proof.
  intros (dv & db & -> & Hin & _). exists dv, db. split; [done|].
  intros s Hs. destruct (Hin s Hs) as [Hv Hb].
  exists [], []. by rewrite !app_nil_r.
Qed.

Lemma candidate_stored (m : HMM) (dv : gmap string (list R))
    (db : gmap string (list string)) (obs : list string) (t : nat)
    (s p o : string) (l : list R) (x : R) :
  estimated m →
  dv !! p = Some l → l !! t = Some x → obs !! S t = Some o →
  candidate (set_tables m (Dict dv) (Dict db)) obs (Z.of_nat (S t)) s p
  = Ok ((x - tl m p s - el m s o)%R, p).
Proof.
  intros [Htl Hel] Hp Hl Ho. unfold candidate.
  replace (Z.of_nat (S t) - 1)%Z with (Z.of_nat t) by lia.
  rewrite (get_viterbi_value_tables _ _ _ _ l) by done.
  rewrite (list_getitem_nat _ _ _ Hl). simpl.
  destruct (tlprob_inv _ _ _ _ (Htl p s)) as (dt & Hdt & Hlt).
  destruct (elprob_inv _ _ _ _ (Hel s o)) as (de & Hde & Hle).
  rewrite Hdt. simpl. rewrite Hlt. simpl. rewrite Hde. simpl.
  rewrite (list_getitem_nat _ _ _ Ho). simpl. rewrite Hle. done.
Qed.

(** A round of the inner loop on rows that already hold the trellis up to
    step [T]: it reads step [t <= T] and appends behind the row. *)
Lemma tag_state_prefix (m : HMM) (w : string) (obs1 obs2 : list string) (T t : nat)
    (self : HMM) (s : string) :
  estimated m →
  trellis_prefix m w obs1 T self →
  s ∈ states m → t ≤ T → S t < length obs2 →
  ∃ self', tag_state obs2 (Z.of_nat (S t)) self s = Ok self' ∧
           trellis_prefix m w obs1 T self'.
Proof.
  intros Hest (dv & db & -> & Hrows) Hs Ht Hlen.
  destruct (lookup_lt_is_Some_2 obs2 (S t) Hlen) as [o Ho].
  unfold tag_state. simpl states.
  rewrite (comprehension_Ok _ (λ p, ((V m w obs1 t p - tl m p s - el m s o)%R, p)));
    last first.
  { intros p Hp. destruct (Hrows p Hp) as (ev & eb & Hv & _).
    apply (candidate_stored m dv db obs2 t s p o _ _ Hest Hv); [|done].
    rewrite lookup_app_l by (rewrite Vcol_length; lia). by apply Vcol_lookup. }
  rewrite bind_Ok.
  rewrite (min_key_first_min (0%R, "")); last first.
  { apply states_fmap_nonempty. intros Hnil. rewrite Hnil in Hs.
    by apply not_elem_of_nil in Hs. }
  rewrite bind_Ok.
  destruct (Hrows s Hs) as (ev & eb & Hv & Hb).
  cbn [viterbi backpointer set_tables].
  rewrite (table_append_Dict _ _ _ _ Hv), bind_Ok.
  rewrite (table_append_Dict _ _ _ _ Hb), bind_Ok.
  eexists. split; [reflexivity|].
  eexists _, _. split; [reflexivity|]. intros s' Hs'.
  destruct (decide (s' = s)) as [->|Hne].
  - rewrite !lookup_insert_eq. eexists _, _.
    by rewrite <- !app_assoc.
  - rewrite !lookup_insert_ne by done. by apply Hrows.
Qed.

Lemma tag_step_prefix (m : HMM) (w : string) (obs1 obs2 : list string) (T t : nat)
    (self : HMM) :
  estimated m →
  trellis_prefix m w obs1 T self →
  t ≤ T → S t < length obs2 →
  ∃ self', tag_step obs2 self (Z.of_nat (S t)) = Ok self' ∧
           trellis_prefix m w obs1 T self'.
Proof.
  intros Hest Hpre Ht Hlen. unfold tag_step.
  assert (Hst : states self = states m).
  { by destruct Hpre as (dv & db & -> & _). }
  rewrite Hst.
  assert (Hloop : ∀ todo self1,
            (∀ s, s ∈ todo → s ∈ states m) →
            trellis_prefix m w obs1 T self1 →
            ∃ self', for_in todo (tag_state obs2 (Z.of_nat (S t))) self1 = Ok self' ∧
                     trellis_prefix m w obs1 T self').
  { induction todo as [|x todo IH]; intros self1 Hin Hpre1.
    { by exists self1. }
    destruct (tag_state_prefix m w obs1 obs2 T t self1 x Hest Hpre1)
      as (self2 & Hrun & Hpre2); [apply Hin, list_elem_of_here | done | done |].
    destruct (IH self2) as (self' & Hrun' & Hpre'); [|done|].
    { intros s Hs. by apply Hin, list_elem_of_further. }
    exists self'. simpl. by rewrite Hrun, bind_Ok. }
  by apply Hloop.
Qed.

Lemma tag_steps_prefix (m : HMM) (w : string) (obs1 obs2 : list string) (T k t : nat)
    (self : HMM) :
  estimated m →
  trellis_prefix m w obs1 T self →
  t + k ≤ S T → t + k < length obs2 →
  ∃ self', for_in (Z.of_nat <$> seq (S t) k) (tag_step obs2) self = Ok self' ∧
           trellis_prefix m w obs1 T self'.
Proof.
  intros Hest. revert t self. induction k as [|k IH]; intros t self Hpre HT Hlen.
  { by exists self. }
  destruct (tag_step_prefix m w obs1 obs2 T t self Hest Hpre) as (self1 & Hrun & Hpre1);
    [lia | lia |].
  destruct (IH (S t) self1 Hpre1) as (self' & Hrun' & Hpre'); [lia | lia |].
  exists self'. simpl. by rewrite Hrun, bind_Ok.
Qed.

Lemma final_candidate_prefix (m : HMM) (w : string) (obs1 obs2 : list string)
    (T T2 : nat) (self : HMM) (s : string) :
  estimated m →
  trellis_prefix m w obs1 T self →
  s ∈ states m → length obs2 = S T2 → T2 ≤ T →
  final_candidate self obs2 s = Ok (final m w obs1 T2 s).
Proof.
  intros [Htl _] (dv & db & -> & Hrows) Hs Hlen HT. unfold final_candidate.
  destruct (tlprob_inv _ _ _ _ (Htl s "</s>")) as (dt & Hdt & Hlt).
  simpl. rewrite Hdt. simpl. rewrite Hlt. simpl.
  destruct (Hrows s Hs) as (ev & eb & Hv & _).
  rewrite (get_viterbi_value_tables _ _ _ _ _ _ Hv), Hlen.
  replace (Z.of_nat (S T2) - 1)%Z with (Z.of_nat T2) by lia.
  rewrite (list_getitem_nat _ _ (V m w obs1 T2 s)); [done|].
  rewrite lookup_app_l by (rewrite Vcol_length; lia). by apply Vcol_lookup.
Qed.

Lemma backtrace_prefix (m : HMM) (w : string) (obs1 obs2 : list string)
    (T T2 k : nat) (self : HMM) (acc : list string) (s : string) :
  states m ≠ [] →
  trellis_prefix m w obs1 T self →
  length obs2 = S T2 → T2 ≤ T →
  length acc + k = T2 →
  s ∈ states m →
  for_in ((λ i : nat, (Z.of_nat k - Z.of_nat i)%Z) <$> seq 0 k)
         (backtrace_step self obs2) (acc ++ [s])
  = Ok (acc ++ back m w obs1 k s).
Proof.
  intros Hne (dv & db & -> & Hrows) Hlen HT. revert acc s.
  induction k as [|k IH]; intros acc s Hk Hs; [done|].
  simpl seq. rewrite fmap_cons. simpl for_in.
  assert (Hstep : backtrace_step (set_tables m (Dict dv) (Dict db)) obs2 (acc ++ [s])
                    (Z.of_nat (S k) - Z.of_nat 0)
                  = Ok ((acc ++ [s]) ++ [BP m w obs1 (S k) s])).
  { unfold backtrace_step.
    replace (Z.of_nat (length obs2) - 1 - (Z.of_nat (S k) - Z.of_nat 0))%Z
      with (Z.of_nat (length acc)) by lia.
    replace (Z.of_nat (S k) - Z.of_nat 0)%Z with (Z.of_nat (S k)) by lia.
    rewrite (list_getitem_nat _ _ s) by (by apply list_lookup_middle).
    rewrite bind_Ok.
    destruct (Hrows s Hs) as (ev & eb & _ & Hb).
    rewrite (get_backpointer_value_tables _ _ _ _ _ _ Hb).
    rewrite (list_getitem_nat _ _ (BP m w obs1 (S k) s)); [done|].
    rewrite lookup_app_l by (rewrite Bcol_length; lia).
    apply Bcol_lookup. lia. }
  rewrite Hstep, bind_Ok.
  rewrite <- fmap_S_seq, <- list_fmap_compose.
  erewrite (list_fmap_ext _ (λ i : nat, (Z.of_nat k - Z.of_nat i)%Z)); last first.
  { intros i x _. simpl. lia. }
  rewrite (IH (acc ++ [s])).
  - by rewrite <- app_assoc.
  - rewrite length_app. simpl. lia.
  - by apply BP_in_states.
Qed.

(** [tag] on rows that already hold a trellis: the sentence is used for its
    length only. *)
Lemma tag_prefix (m : HMM) (w : string) (obs1 obs2 : list string) (T T2 : nat)
    (self : HMM) :
  estimated m → states m ≠ [] →
  trellis_prefix m w obs1 T self →
  length obs2 = S T2 → T2 ≤ T →
  ∃ self',
    tag self obs2 = Ok (self', reverse (back m w obs1 T2 (best_last m w obs1 T2))) ∧
    trellis_prefix m w obs1 T self'.
Proof.
  intros Hest Hne Hpre Hlen HT. unfold tag.
  rewrite range_from_1, Hlen. simpl Nat.sub. rewrite Nat.sub_0_r.
  destruct (tag_steps_prefix m w obs1 obs2 T T2 0 self Hest Hpre)
    as (self' & Hrun & Hpre'); [lia | lia |].
  rewrite Hrun, bind_Ok. exists self'. split; [|done].
  assert (Hst : states self' = states m).
  { by destruct Hpre' as (dv & db & -> & _). }
  rewrite Hst.
  rewrite (comprehension_Ok _ (final m w obs1 T2)); last first.
  { intros s Hs. by apply (final_candidate_prefix m w obs1 obs2 T T2 self' s). }
  rewrite bind_Ok.
  rewrite (min_key_first_min (0%R, "")) by (by apply states_fmap_nonempty).
  rewrite bind_Ok.
  replace (Z.of_nat (S T2) - 1)%Z with (Z.of_nat T2) by lia.
  rewrite range_down_to_0.
  pose proof (backtrace_prefix m w obs1 obs2 T T2 T2 self' [] (best_last m w obs1 T2)
                Hne Hpre' Hlen HT eq_refl (best_last_in m w obs1 T2 Hne)) as Hbt.
  simpl app in Hbt.
  change (first_min (0%R, "") (final m w obs1 T2 <$> states m)).2
    with (best_last m w obs1 T2).
  by rewrite Hbt.
Qed.

(** X26.  [tag] relies on [initialise] for every sentence.  Called again
    without [initialise], on any sentence of [k] words with [1 <= k <= n],
    where [n] is the length of the sentence decoded before, [tag] raises
    nothing and ignores the words of the new sentence: it returns the tags
    that decoding the first [k] words of the previous sentence returns. *)
Theorem tag_without_initialise_is_stale (corpus test : list (list (string * string)))
    (w : string) (rest obs2 : list string) :
  concat corpus ≠ [] →
  1 ≤ length obs2 ≤ length (w :: rest) →
  ∃ m self0 self1 tags1 self2 tags2 self3,
    train (HMM_init corpus test) = Ok m ∧
    initialise m w = Ok self0 ∧
    tag self0 (w :: rest) = Ok (self1, tags1) ∧
    tag self1 obs2 = Ok (self2, tags2) ∧
    tag self0 (take (length obs2) (w :: rest)) = Ok (self3, tags2).
Proof.
  intros Hcorpus [Hlo Hhi].
  destruct (train_total corpus test) as (m & Hm & Hest & Hnd & Hne).
  specialize (Hne Hcorpus).
  destruct (decode_Ok m w rest Hest Hnd Hne)
    as (self0 & self1 & Hinit & _ & Htag1 & Htr1).
  destruct obs2 as [|o2 rest2]; [simpl in Hlo; lia|]. simpl in Hhi.
  destruct (tag_prefix m w (w :: rest) (o2 :: rest2) (length rest) (length rest2)
              self1 Hest Hne (trellis_is_prefix _ _ _ _ _ Htr1) eq_refl)
    as (self2 & Htag2 & _); [lia|].
  set (obs3 := take (length (o2 :: rest2)) (w :: rest)).
  assert (Hobs3 : obs3 = w :: take (length rest2) rest) by done.
  assert (Hlen3 : length obs3 = S (length rest2)).
  { rewrite Hobs3. simpl. rewrite length_take. lia. }
  destruct (initialise_trellis m w obs3 Hest) as (self0' & Hinit' & Htr0').
  assert (self0' = self0) as -> by congruence.
  destruct (tag_Ok m Hest Hnd Hne w obs3 self0 (length rest2) Hlen3 Htr0')
    as (self3 & Htag3 & _).
  assert (Hext : ∀ t s, t ≤ length rest2 →
            V m w obs3 t s = V m w (w :: rest) t s ∧
            BP m w obs3 t s = BP m w (w :: rest) t s).
  { apply V_BP_ext; [done|]. intros t s Ht. unfold obs_at, obs3.
    by rewrite lookup_take_lt by (simpl; lia). }
  assert (Hlast : best_last m w obs3 (length rest2)
                  = best_last m w (w :: rest) (length rest2)).
  { unfold best_last. do 2 f_equal. apply list_fmap_ext. intros i p _.
    unfold final. by rewrite (proj1 (Hext (length rest2) p (le_n _))). }
  assert (Hback : back m w obs3 (length rest2) (best_last m w obs3 (length rest2))
                  = back m w (w :: rest) (length rest2)
                      (best_last m w (w :: rest) (length rest2))).
  { rewrite Hlast.
    apply (back_ext _ _ _ _ _ (length rest2)); [intros t s Ht; by apply Hext | lia]. }
  rewrite Hback in Htag3.
  exists m, self0, self1. eexists. exists self2. eexists. exists self3.
  split; [done|]. split; [done|]. split; [exact Htag1|].
  split; [exact Htag2 | exact Htag3].
Qed.

Lemma tag_without_initialise_is_stale_witness :
  concat example_corpus ≠ [] ∧
  1 ≤ length ["cats"] ≤ length ["dog"; "runs"] ∧
  ∃ m self0 self1 tags1 self2 tags2 self3,
    train (HMM_init example_corpus []) = Ok m ∧
    initialise m "dog" = Ok self0 ∧
    tag self0 ["dog"; "runs"] = Ok (self1, tags1) ∧
    tag self1 ["cats"] = Ok (self2, tags2) ∧
    tag self0 (take (length ["cats"]) ["dog"; "runs"]) = Ok (self3, tags2).
Proof.
  assert (H : concat example_corpus ≠ []) by (simpl; discriminate).
  assert (H' : 1 ≤ length ["cats"] ≤ length ["dog"; "runs"]) by (simpl; lia).
  split; [exact H|]. split; [exact H'|].
  exact (tag_without_initialise_is_stale example_corpus [] "dog" ["runs"] ["cats"] H H').
Defined.
